(** * Apex Rider: track generation, vehicle tick, apex scoring and projection

    A shallow embedding of the simulation core of the game
    (components/GameCanvas.tsx, utils/gameUtils.ts, constants.ts, types.ts).

    In the simulation JavaScript numbers are modelled as exact rationals
    [Q]: every arithmetic operation of the source is the corresponding
    operation of [Q], without rounding.  Where a property depends on the
    rounding of the source's binary64 numbers, the function is given a
    second time with every operation rounded ([b64], [lerp64],
    [randomRange64], [project64]), and the properties of the simulation
    are stated with the margin that the rounding needs.  Mutable refs ([playerRef], [roadRef], [fxRef])
    become records threaded through the functions; an object stored in an
    array and mutated in place ([apex.hit = true]) is an update of the list
    at the position of that object.  Calls of [Math.random()] become
    explicit draws passed to the function that makes them.  Audio, floating
    particles and the day/night clock are presentation only, never read back
    by the fields modelled here, and are left out. *)

From Stdlib Require Import QArith Qabs Qminmax Qround Qpower ZArith List Sorted Bool
  Lia Lqa.
Import ListNotations.
Open Scope Q_scope.

(** ** Numbers *)

Module Num.

(** [a < b], [a > b], [a >= b] and [a === b] on numbers, as booleans. *)
Definition ltb (a b : Q) : bool := negb (Qle_bool b a).
Definition gtb (a b : Q) : bool := ltb b a.
Definition geb (a b : Q) : bool := Qle_bool b a.
Definition eqb (a b : Q) : bool := Qeq_bool a b.

(** [Math.sign] *)
Definition sign (a : Q) : Q :=
  match a ?= 0 with
  | Lt => -1
  | Eq => 0
  | Gt => 1
  end.

(** A loop counter [i] as a number. *)
Definition num (i : nat) : Q := inject_Z (Z.of_nat i).

(** Number of iterations of [for (let i = 0; i < n; i++)]: the naturals
    below [n]. *)
Definition iters (n : Q) : nat := Z.to_nat (Qceiling n).

End Num.
Import Num.

(** ** utils/gameUtils.ts *)

Definition lerp (start end_ t : Q) : Q := start * (1 - t) + end_ * t.

Definition clamp (val min max : Q) : Q := Qmax min (Qmin max val).

(** [randomRange], with the value [u] returned by its [Math.random()]. *)
Definition randomRange (u min max : Q) : Q := u * (max - min) + min.

(** ** constants.ts *)

Module GAME_CONFIG.
Definition BASE_SPEED : Q := 1500.
Definition MAX_SPEED : Q := 9500.
Definition ACCELERATION : Q := 2500.
Definition STEER_SENSITIVITY : Q := 5.
Definition CURVE_SENSITIVITY : Q := 7 # 10.
Definition LEAN_SMOOTHING : Q := 12.
Definition SEGMENT_LENGTH : Q := 100.
Definition VISIBLE_SEGMENTS : Q := 200.
Definition CAMERA_HEIGHT : Q := 1500.
Definition CAMERA_DEPTH : Q := 8 # 10.
Definition OFF_ROAD_LIMIT : Q := 1.
Definition COLLISION_THRESHOLD : Q := 175 # 100.
Definition OFF_ROAD_FRICTION : Q := 6000.
Definition PERFECT_WINDOW : Q := 800.
Definition GOOD_WINDOW : Q := 1500.
End GAME_CONFIG.

(** ** types.ts *)

Inductive GameState := MENU | PLAYING | GAME_OVER.

Definition GameState_eqb (a b : GameState) : bool :=
  match a, b with
  | MENU, MENU | PLAYING, PLAYING | GAME_OVER, GAME_OVER => true
  | _, _ => false
  end.

Inductive Color := COLOR_APEX_EDGE.

Inductive TimingRating := PERFECT | GOOD | OK | MISS.

Record RoadSegment := mkSeg {
  seg_z : Q;
  seg_curve : Q;
  seg_color : option Color
}.

Record ApexPoint := mkApex {
  apex_z : Q;
  direction : Q;
  hit : bool;
  scored : bool
}.

Record TrailPoint := mkTrail {
  trail_x : Q;
  trail_z : Q;
  alpha : Q
}.

(** A floating text; [id], [x] and the colour (a function of the rating)
    are not modelled. *)
Record FloatingText := mkText {
  text : TimingRating;
  text_y_off : Q;
  life : Q;
  text_scale : Q
}.

Record CrashState := mkCrash {
  active : bool;
  crash_x : Q;
  crash_y : Q;
  vx : Q;
  vy : Q;
  rot : Q;
  vRot : Q
}.

(** ** World state: [roadRef] *)

Record Road := mkRoad {
  segments : list RoadSegment;
  apexPoints : list ApexPoint
}.

Definition emptyRoad : Road := mkRoad [] [].

(** [z] of the last element of a segment array, [dflt] when it is empty. *)
Fixpoint lastZ (dflt : Q) (l : list RoadSegment) : Q :=
  match l with
  | [] => dflt
  | s :: t => lastZ (seg_z s) t
  end.

(** The values pushed by one of the three loops of [addTrackSegment]:
    [f i] for [i = 0, 1, ...] while [i < n]. *)
Definition pushLoop (n : Q) (f : nat -> RoadSegment) : list RoadSegment :=
  map f (seq 0 (iters n)).

Definition addTrackSegment (enter hold exit curve : Q) (r : Road) : Road :=
  let segs := segments r in
  let startZ := lastZ 0 segs in
  let apexes :=
    if gtb (Qabs curve) 2 then
      let apexZ := startZ + (enter + hold / 2) * GAME_CONFIG.SEGMENT_LENGTH in
      apexPoints r ++ [mkApex apexZ (sign curve) false false]
    else apexPoints r in
  let enterSegs := pushLoop enter (fun i =>
    mkSeg (startZ + (num i + 1) * GAME_CONFIG.SEGMENT_LENGTH)
          (lerp 0 curve (num i / enter)) None) in
  let holdSegs := pushLoop hold (fun i =>
    let isApexZone := gtb (num i) (hold / 2 - 2) && ltb (num i) (hold / 2 + 2) in
    mkSeg (startZ + (enter + num i + 1) * GAME_CONFIG.SEGMENT_LENGTH)
          curve (if isApexZone then Some COLOR_APEX_EDGE else None)) in
  let exitSegs := pushLoop exit (fun i =>
    mkSeg (startZ + (enter + hold + num i + 1) * GAME_CONFIG.SEGMENT_LENGTH)
          (lerp curve 0 (num i / exit)) None) in
  mkRoad (segs ++ enterSegs ++ holdSegs ++ exitSegs) apexes.

(** The values of [Math.random()] drawn by one call of [generateRoad], in
    call order: the pattern, the one inside [randomRange], the side. *)
Record Draws := mkDraws {
  pattern : Q;
  range : Q;
  side : Q
}.

(** The four patterns of [generateRoad] with their drawn parameters. *)
Inductive Pattern :=
| Straight (hold : Q)
| MediumCurve (intensity dir : Q)
| SCurve (intensity dir : Q)
| LongHardTurn (intensity dir : Q).

Definition drawDir (d : Draws) : Q := if gtb (side d) (1 # 2) then 1 else -1.

Definition choosePattern (d : Draws) : Pattern :=
  if ltb (pattern d) (20 # 100) then Straight (randomRange (range d) 10 30)
  else if ltb (pattern d) (5 # 10) then
    MediumCurve (randomRange (range d) 3 6) (drawDir d)
  else if ltb (pattern d) (8 # 10) then
    SCurve (randomRange (range d) 4 7) (drawDir d)
  else LongHardTurn (randomRange (range d) 5 8) (drawDir d).

Definition addPattern (p : Pattern) (r : Road) : Road :=
  match p with
  | Straight hold => addTrackSegment 0 hold 0 0 r
  | MediumCurve intensity dir => addTrackSegment 20 20 20 (intensity * dir) r
  | SCurve intensity dir =>
      addTrackSegment 15 10 15 (- intensity * dir)
        (addTrackSegment 15 10 15 (intensity * dir) r)
  | LongHardTurn intensity dir => addTrackSegment 30 40 30 (intensity * dir) r
  end.

(** The [while] loop that shifts stale segments off the front. *)
Fixpoint cleanupBehind (playerZ : Q) (segs : list RoadSegment) : list RoadSegment :=
  match segs with
  | [] => []
  | s :: t =>
      if ltb (seg_z s) (playerZ - 2000) then cleanupBehind playerZ t else segs
  end.

Definition cleanup (playerZ : Q) (r : Road) : Road :=
  mkRoad (cleanupBehind playerZ (segments r))
         (filter (fun ap => gtb (apex_z ap) (playerZ - 1000)) (apexPoints r)).

(** [generateRoad] up to its "Initial Road" step. *)
Definition initialRoad (r : Road) : Road :=
  if Nat.eqb (length (segments r)) 0 then addTrackSegment 0 50 0 0 r else r.

(** The pattern blocks one call appends to the road [r1] left by the
    initial step: none when the horizon is reached, else the chosen one.
    [lastSeg] is read before anything is appended. *)
Definition aheadPatterns (d : Draws) (playerZ : Q) (r1 : Road) : list Pattern :=
  let lastSeg_z := lastZ 0 (segments r1) in
  if ltb lastSeg_z
         (playerZ + GAME_CONFIG.VISIBLE_SEGMENTS * GAME_CONFIG.SEGMENT_LENGTH)
  then [choosePattern d] else [].

(** [generateRoad] before its two "Cleanup" steps. *)
Definition extendRoad (d : Draws) (playerZ : Q) (r : Road) : Road :=
  let r1 := initialRoad r in
  fold_left (fun acc p => addPattern p acc) (aheadPatterns d playerZ r1) r1.

Definition generateRoad (d : Draws) (playerZ : Q) (r : Road) : Road :=
  cleanup playerZ (extendRoad d playerZ r).

(** ** Vehicle state: [playerRef], [fxRef], [inputRef] *)

Record Player := mkPlayer {
  x : Q;
  lean : Q;
  targetLean : Q;
  speed : Q;
  distanceTraveled : Q;
  engineVibration : Q;
  offRoad : bool;
  crash : CrashState;
  score : Z;
  trail : list TrailPoint
}.

Record Fx := mkFx {
  shake : Q;
  texts : list FloatingText;
  slowMoFactor : Q;
  zoom : Q;
  chromaticAberration : Q
}.

Record Inputs := mkInputs {
  inp_left : bool;
  inp_right : bool
}.

(** The simulation context: the refs, the frame counter and the
    [gameState] held by the application ([setGameState] writes it). *)
Record Sim := mkSim {
  player : Player;
  road : Road;
  fx : Fx;
  frameId : nat;
  gameState : GameState
}.

(** Field assignments. *)
Definition set_x v p := mkPlayer v (lean p) (targetLean p) (speed p)
  (distanceTraveled p) (engineVibration p) (offRoad p) (crash p) (score p) (trail p).
Definition set_lean v p := mkPlayer (x p) v (targetLean p) (speed p)
  (distanceTraveled p) (engineVibration p) (offRoad p) (crash p) (score p) (trail p).
Definition set_targetLean v p := mkPlayer (x p) (lean p) v (speed p)
  (distanceTraveled p) (engineVibration p) (offRoad p) (crash p) (score p) (trail p).
Definition set_speed v p := mkPlayer (x p) (lean p) (targetLean p) v
  (distanceTraveled p) (engineVibration p) (offRoad p) (crash p) (score p) (trail p).
Definition set_distanceTraveled v p := mkPlayer (x p) (lean p) (targetLean p) (speed p)
  v (engineVibration p) (offRoad p) (crash p) (score p) (trail p).
Definition set_engineVibration v p := mkPlayer (x p) (lean p) (targetLean p) (speed p)
  (distanceTraveled p) v (offRoad p) (crash p) (score p) (trail p).
Definition set_offRoad v p := mkPlayer (x p) (lean p) (targetLean p) (speed p)
  (distanceTraveled p) (engineVibration p) v (crash p) (score p) (trail p).
Definition set_crash v p := mkPlayer (x p) (lean p) (targetLean p) (speed p)
  (distanceTraveled p) (engineVibration p) (offRoad p) v (score p) (trail p).
Definition set_score v p := mkPlayer (x p) (lean p) (targetLean p) (speed p)
  (distanceTraveled p) (engineVibration p) (offRoad p) (crash p) v (trail p).
Definition set_trail v p := mkPlayer (x p) (lean p) (targetLean p) (speed p)
  (distanceTraveled p) (engineVibration p) (offRoad p) (crash p) (score p) v.

Definition set_shake v f :=
  mkFx v (texts f) (slowMoFactor f) (zoom f) (chromaticAberration f).
Definition set_texts v f :=
  mkFx (shake f) v (slowMoFactor f) (zoom f) (chromaticAberration f).
Definition set_slowMoFactor v f :=
  mkFx (shake f) (texts f) v (zoom f) (chromaticAberration f).
Definition set_zoom v f :=
  mkFx (shake f) (texts f) (slowMoFactor f) v (chromaticAberration f).
Definition set_chromaticAberration v f :=
  mkFx (shake f) (texts f) (slowMoFactor f) (zoom f) v.

Definition set_player v s := mkSim v (road s) (fx s) (frameId s) (gameState s).
Definition set_road v s := mkSim (player s) v (fx s) (frameId s) (gameState s).
Definition set_fx v s := mkSim (player s) (road s) v (frameId s) (gameState s).
Definition set_gameState v s := mkSim (player s) (road s) (fx s) (frameId s) v.
Definition set_apexPoints v r := mkRoad (segments r) v.

(** The state built by the reset effect when a run starts. *)
Definition noCrash : CrashState := mkCrash false 0 0 0 0 0 0.

Definition startPlayer : Player :=
  mkPlayer 0 0 0 GAME_CONFIG.BASE_SPEED 0 0 false noCrash 0 [].

Definition startFx : Fx := mkFx 0 [] 1 1 0.

Definition startSim : Sim := mkSim startPlayer emptyRoad startFx 0 PLAYING.

(** [spawnFloatingText]: a new text at 1/3 of the window height. *)
Definition spawnFloatingText (rating : TimingRating) (f : Fx) : Fx :=
  set_texts (texts f ++ [mkText rating 0 (8 # 10) (1 # 2)]) f.

Definition handleCrash (s : Sim) : Sim :=
  let s := set_gameState GAME_OVER s in
  let s := set_fx (set_slowMoFactor (1 # 10) (set_shake 80 (fx s))) s in
  let p := player s in
  let flyDir : Q := if gtb (x p) 0 then 1 else -1 in
  set_player
    (set_crash (mkCrash true 0 0 (flyDir * (speed p * (1 # 2))) (-300)
                        (lean p) (flyDir * 15)) p) s.

(** *** Pieces of [update], in source order *)

(** 1. Controls *)
Definition controls (inp : Inputs) : Q :=
  if inp_right inp then 1 else if inp_left inp then -1 else 0.

(** 2. Physics & Speed *)
Definition accelerate (gs : GameState) (dt delta v : Q) : Q :=
  if GameState_eqb gs GAME_OVER then lerp v 0 (3 * dt)
  else Qmin (v + GAME_CONFIG.ACCELERATION * delta) GAME_CONFIG.MAX_SPEED.

(** [curveIntensity]: the curve of the first segment at or beyond the
    player, else of the first stored segment, else 0. *)
Definition curveIntensityAt (segs : list RoadSegment) (dist : Q) : Q :=
  let currentSeg :=
    match find (fun s => geb (seg_z s) dist) segs with
    | Some s => Some s
    | None => hd_error segs
    end in
  match currentSeg with
  | Some s => seg_curve s
  | None => 0
  end.

(** Steering force, centrifugal force and auto-centring. *)
Definition lateral (delta dx curveIntensity : Q) (p : Player) : Q :=
  let x1 := x p + lean p * dx * GAME_CONFIG.STEER_SENSITIVITY in
  let x2 := x1 - curveIntensity * dx * GAME_CONFIG.CURVE_SENSITIVITY in
  if ltb (Qabs curveIntensity) (1 # 2) && eqb (targetLean p) 0
  then lerp x2 0 (1 * delta) else x2.

(** BOUNDARY LOGIC: the off-road flag, friction, vibration and shake. *)
Definition boundary (delta absX : Q) (s : Sim) : Sim :=
  let p := set_offRoad (gtb absX GAME_CONFIG.OFF_ROAD_LIMIT) (player s) in
  if offRoad p then
    let offRoadDepth := (absX - GAME_CONFIG.OFF_ROAD_LIMIT)
      / (GAME_CONFIG.COLLISION_THRESHOLD - GAME_CONFIG.OFF_ROAD_LIMIT) in
    let p := set_speed (speed p - GAME_CONFIG.OFF_ROAD_FRICTION * delta) p in
    let p := set_speed (Qmax (speed p) 2000) p in
    let p := set_engineVibration (10 + offRoadDepth * 20) p in
    let f := set_shake (lerp (shake (fx s)) (15 * offRoadDepth) (10 * delta)) (fx s) in
    set_fx f (set_player p s)
  else
    set_player
      (set_engineVibration (speed p / GAME_CONFIG.MAX_SPEED * 3) p) s.

(** TRON Trail Logic *)
Definition trailStep (delta : Q) (frame : nat) (p : Player) : Player :=
  let t := if Nat.eqb (frame mod 2) 0
           then trail p ++ [mkTrail (x p) (distanceTraveled p) 1]
           else trail p in
  let t := map (fun pt => mkTrail (trail_x pt) (trail_z pt)
                                  (alpha pt - (15 # 10) * delta)) t in
  set_trail (filter (fun pt => gtb (alpha pt) 0) t) p.

(** Apex Detection & Scoring.  [find] returns a reference to an element
    of [apexPoints]; the reference is the position of the element. *)
Definition apexCandidate (dist : Q) (ap : ApexPoint) : bool :=
  negb (hit ap) && ltb (Qabs (apex_z ap - dist)) GAME_CONFIG.PERFECT_WINDOW.

Fixpoint findRef (f : ApexPoint -> bool) (l : list ApexPoint) : option nat :=
  match l with
  | [] => None
  | ap :: t => if f ap then Some O else option_map S (findRef f t)
  end.

(** [apexPoints[i].hit = true] *)
Fixpoint markHit (i : nat) (l : list ApexPoint) {struct l} : list ApexPoint :=
  match l, i with
  | [], _ => []
  | ap :: t, O => mkApex (apex_z ap) (direction ap) true (scored ap) :: t
  | ap :: t, S j => ap :: markHit j t
  end.

Definition apexDetection (s : Sim) : Sim :=
  let p := player s in
  let r := road s in
  match findRef (apexCandidate (distanceTraveled p)) (apexPoints r) with
  | Some i =>
      let apex := nth i (apexPoints r) (mkApex 0 0 false false) in
      if eqb (sign (lean p)) (sign (direction apex)) && gtb (Qabs (lean p)) (1 # 2)
      then
        let r := set_apexPoints (markHit i (apexPoints r)) r in
        let isPerfect := gtb (Qabs (lean p)) (8 # 10) in
        let f := spawnFloatingText (if isPerfect then PERFECT else GOOD) (fx s) in
        let p := set_speed (Qmin (speed p + 300) GAME_CONFIG.MAX_SPEED) p in
        set_player p (set_fx f (set_road r s))
      else s
  | None => s
  end.

(** Score Update: the [forEach] over the apex points, threading the
    score. *)
Fixpoint scoreUpdate (dist : Q) (l : list ApexPoint) (sc : Z)
  : list ApexPoint * Z :=
  match l with
  | [] => ([], sc)
  | ap :: t =>
      if negb (scored ap) && gtb dist (apex_z ap) then
        let '(t', sc') := scoreUpdate dist t (sc + 1)%Z in
        (mkApex (apex_z ap) (direction ap) (hit ap) true :: t', sc')
      else
        let '(t', sc') := scoreUpdate dist t sc in
        (ap :: t', sc')
  end.

Definition scoring (s : Sim) : Sim :=
  let p := player s in
  let '(aps, sc) := scoreUpdate (distanceTraveled p) (apexPoints (road s)) (score p) in
  set_player (set_score sc p) (set_road (set_apexPoints aps (road s)) s).

(** The [PLAYING] branch of [update]. *)
Definition drive (delta dx curveIntensity : Q) (s : Sim) : Sim :=
  let p := player s in
  let p := set_lean (lerp (lean p) (targetLean p)
                          (GAME_CONFIG.LEAN_SMOOTHING * delta)) p in
  let p := set_x (lateral delta dx curveIntensity p) p in
  let absX := Qabs (x p) in
  let s := boundary delta absX (set_player p s) in
  let s := set_player (trailStep delta (frameId s) (player s)) s in
  let s := apexDetection s in
  let s := scoring s in
  if gtb absX GAME_CONFIG.COLLISION_THRESHOLD then handleCrash s else s.

(** FALL Animation Physics *)
Definition fall (dt : Q) (c : CrashState) : CrashState :=
  mkCrash (active c)
          (crash_x c + vx c * (3 # 1000) * dt)
          (crash_y c + vy c * dt)
          (vx c)
          (vy c + 1500 * dt)
          (rot c + vRot c * dt)
          (vRot c).

(** 6. FX *)
Definition effects (dt speedRatio : Q) (f : Fx) : Fx :=
  let f := set_shake (lerp (shake f) 0 (5 * dt)) f in
  let f := set_slowMoFactor (lerp (slowMoFactor f) 1 (1 * dt)) f in
  let f := set_chromaticAberration (lerp (chromaticAberration f) 0 (5 * dt)) f in
  let targetZoom := 1 - speedRatio * (2 # 10) in
  let f := set_zoom (lerp (zoom f) targetZoom (2 * dt)) f in
  let ts := map (fun txt => mkText (text txt) (text_y_off txt - 150 * dt)
                                   (life txt - (15 # 10) * dt)
                                   (lerp (text_scale txt) (12 # 10) (5 * dt)))
                (texts f) in
  set_texts (filter (fun txt => gtb (life txt) 0) ts) f.

(** *** The main update loop

    [gs] is the [gameState] prop seen by this call, [d] the draws of its
    [generateRoad]. *)
Definition update (dt : Q) (inp : Inputs) (d : Draws) (s : Sim) : Sim :=
  let gs := gameState s in
  let timeScale := slowMoFactor (fx s) in
  let delta := dt * timeScale in
  let p := set_targetLean (controls inp) (player s) in
  let p := set_speed (accelerate gs dt delta (speed p)) p in
  let curveIntensity :=
    curveIntensityAt (segments (road s)) (distanceTraveled p) in
  let speedRatio := speed p / GAME_CONFIG.MAX_SPEED in
  let dx := delta * 2 * speedRatio in
  let s := set_player p s in
  let s :=
    if GameState_eqb gs PLAYING then drive delta dx curveIntensity s
    else if GameState_eqb gs GAME_OVER && active (crash (player s)) then
      set_player (set_crash (fall dt (crash (player s))) (player s)) s
    else s in
  let p := player s in
  let p := set_distanceTraveled (distanceTraveled p + speed p * delta) p in
  let r := generateRoad d (distanceTraveled p) (road s) in
  let f := effects dt speedRatio (fx s) in
  mkSim p r f (S (frameId s)) (gameState s).

(** A run: successive frames, each with its clamped time step, its inputs
    and its draws. *)
Record Frame := mkFrame {
  frame_dt : Q;
  frame_inp : Inputs;
  frame_draws : Draws
}.

Definition tick (s : Sim) (fr : Frame) : Sim :=
  update (frame_dt fr) (frame_inp fr) (frame_draws fr) s.

Definition run (frames : list Frame) (s : Sim) : Sim := fold_left tick frames s.

(** ** Projector *)

Record ProjectedPoint := mkProjected {
  screenX : Z;
  screenY : Z;
  scale : Q;
  w : Z
}.

(** [Math.round]: the nearest integer, halves towards +infinity. *)
Definition round (a : Q) : Z := Qfloor (a + (1 # 2)).

Definition project (lineX lineY lineZ cameraX cameraY cameraZ cameraDepth
                    width height roadWidth : Q) : ProjectedPoint :=
  let cx := lineX - cameraX in
  let cy := lineY - cameraY in
  let cz := lineZ - cameraZ in
  let safeZ := Qmax 10 cz in
  let scale := cameraDepth / safeZ in
  let screenX := round ((width / 2) + (scale * cx * width / 2)) in
  let screenY := round ((height / 2) - (scale * cy * height / 2)) in
  let projectedWidth := round (scale * roadWidth * width / 2) in
  mkProjected screenX screenY scale projectedWidth.

(** * Specification vocabulary *)

Import GAME_CONFIG.

(** ** Track *)

(** [chain a l]: the [z] of [l] are [a + SEGMENT_LENGTH],
    [a + 2 * SEGMENT_LENGTH], ... in this order. *)
Fixpoint chain (a : Q) (l : list RoadSegment) : Prop :=
  match l with
  | [] => True
  | s :: t => seg_z s == a + SEGMENT_LENGTH /\ chain (seg_z s) t
  end.

(** Consecutive stored segments are exactly [SEGMENT_LENGTH] apart. *)
Definition contiguous (l : list RoadSegment) : Prop :=
  forall i a b, nth_error l i = Some a -> nth_error l (S i) = Some b ->
    seg_z b == seg_z a + SEGMENT_LENGTH.

(** The same, by recursion on the array. *)
Definition chained (l : list RoadSegment) : Prop :=
  match l with
  | [] => True
  | s :: t => chain (seg_z s) t
  end.

(** Number of segments a pattern appends. *)
Definition patternLength (p : Pattern) : nat :=
  match p with
  | Straight hold => iters hold
  | MediumCurve _ _ => 60
  | SCurve _ _ => 80
  | LongHardTurn _ _ => 100
  end.

(** Successive calls of [generateRoad], each with its draws and its
    reference position. *)
Definition generate (calls : list (Draws * Q)) (r : Road) : Road :=
  fold_left (fun acc c => generateRoad (fst c) (snd c) acc) calls r.

(** Stored [z] strictly increase along the array. *)
Definition increasing (l : list RoadSegment) : Prop :=
  forall i j a b, (i < j)%nat ->
    nth_error l i = Some a -> nth_error l j = Some b -> seg_z a < seg_z b.

(** ** Apex flags *)

(** [markHit] and [scoreUpdate] keep the array's length, positions, [z]
    and [direction]; they only raise flags. *)
Definition raised (a a' : ApexPoint) : Prop :=
  apex_z a' = apex_z a /\ direction a' = direction a
  /\ (hit a = true -> hit a' = true)
  /\ (scored a = true -> scored a' = true).

(** The apexes a pass of [scoreUpdate] counts. *)
Definition passedUnscored (dist : Q) (ap : ApexPoint) : bool :=
  negb (scored ap) && gtb dist (apex_z ap).

(** [markHit] only raises a [hit] flag. *)
Definition hitOnly (a a' : ApexPoint) : Prop :=
  apex_z a' = apex_z a /\ direction a' = direction a
  /\ scored a' = scored a /\ (hit a = true -> hit a' = true).

(** What one [PLAYING] tick does to a stored apex. *)
Definition tickFlags (dist : Q) (a a' : ApexPoint) : Prop :=
  apex_z a' = apex_z a /\ direction a' = direction a
  /\ scored a' = (scored a || gtb dist (apex_z a))
  /\ (hit a = true -> hit a' = true).

(** The three ways [apexDetection] can end. *)
Inductive ApexOutcome (s : Sim) : Sim -> Prop :=
| NoCandidate :
    findRef (apexCandidate (distanceTraveled (player s)))
            (apexPoints (road s)) = None ->
    ApexOutcome s s
| Missed i :
    findRef (apexCandidate (distanceTraveled (player s)))
            (apexPoints (road s)) = Some i ->
    eqb (sign (lean (player s)))
        (sign (direction (nth i (apexPoints (road s)) (mkApex 0 0 false false))))
    && gtb (Qabs (lean (player s))) (1 # 2) = false ->
    ApexOutcome s s
| Hit i :
    findRef (apexCandidate (distanceTraveled (player s)))
            (apexPoints (road s)) = Some i ->
    eqb (sign (lean (player s)))
        (sign (direction (nth i (apexPoints (road s)) (mkApex 0 0 false false))))
    && gtb (Qabs (lean (player s))) (1 # 2) = true ->
    ApexOutcome s
      (set_player
         (set_speed (Qmin (speed (player s) + 300) MAX_SPEED) (player s))
         (set_fx
            (spawnFloatingText
               (if gtb (Qabs (lean (player s))) (8 # 10) then PERFECT else GOOD)
               (fx s))
            (set_road (set_apexPoints (markHit i (apexPoints (road s))) (road s))
                      s))).

(** ** Stages of a tick *)

(** The state on which the apex detection of [drive] runs: after the
    lean, the lateral update, the boundary logic and the trail. *)
Definition beforeApex (delta dx curveIntensity : Q) (s : Sim) : Sim :=
  let lean' :=
    lerp (lean (player s)) (targetLean (player s)) (LEAN_SMOOTHING * delta) in
  let x' := lateral delta dx curveIntensity (set_lean lean' (player s)) in
  let s1 := boundary delta (Qabs x')
              (set_player (set_x x' (set_lean lean' (player s))) s) in
  set_player (trailStep delta (frameId s1) (player s1)) s1.

(** The scaled time step of a tick. *)
Definition scaledDelta (dt : Q) (s : Sim) : Q := dt * slowMoFactor (fx s).

(** The state once "Controls" and "Physics & Speed" have run. *)
Definition entering (dt : Q) (inp : Inputs) (s : Sim) : Sim :=
  set_player
    (set_speed (accelerate (gameState s) dt (scaledDelta dt s) (speed (player s)))
               (set_targetLean (controls inp) (player s))) s.

(** The state left by the [PLAYING] branch. *)
Definition driven (dt : Q) (inp : Inputs) (s : Sim) : Sim :=
  let s0 := entering dt inp s in
  drive (scaledDelta dt s)
        (scaledDelta dt s * 2 * (speed (player s0) / MAX_SPEED))
        (curveIntensityAt (segments (road s)) (distanceTraveled (player s)))
        s0.

(** The lateral offset reached within a tick: steering with the smoothed
    lean, curve pull, auto-centring. *)
Definition lateralOffsetAfter (dt : Q) (inp : Inputs) (s : Sim) : Q :=
  let s0 := entering dt inp s in
  lateral (scaledDelta dt s)
          (scaledDelta dt s * 2 * (speed (player s0) / MAX_SPEED))
          (curveIntensityAt (segments (road s)) (distanceTraveled (player s)))
          (set_lean (lerp (lean (player s0)) (targetLean (player s0))
                          (LEAN_SMOOTHING * scaledDelta dt s))
                    (player s0)).

(** The state on which the apex detection of a [PLAYING] tick runs. *)
Definition atApex (dt : Q) (inp : Inputs) (s : Sim) : Sim :=
  let s0 := entering dt inp s in
  beforeApex (scaledDelta dt s)
             (scaledDelta dt s * 2 * (speed (player s0) / MAX_SPEED))
             (curveIntensityAt (segments (road s)) (distanceTraveled (player s)))
             s0.

(** The range kept while driving, with the time scale at rest. *)
Definition drivingRange (s : Sim) : Prop :=
  gameState s = PLAYING ->
  BASE_SPEED <= speed (player s) /\ speed (player s) <= MAX_SPEED
  /\ slowMoFactor (fx s) == 1.

(** ** Shape of a generated track *)

(** A freshly registered apex. *)
Definition fresh (ap : ApexPoint) : Prop := hit ap = false /\ scored ap = false.

(** Two apexes stored one after the other are at least 4000 apart. *)
Definition apexGap (a b : Q) : Prop := a + 4000 <= b.

(** The shape of the stored track: contiguous segments; apexes at least
    4000 apart in storage order, each at least 2000 before the end of
    the track, with direction 1 or -1. *)
Record road_inv (r : Road) : Prop := mkRoadInv {
  inv_chained : chained (segments r);
  inv_spaced : StronglySorted apexGap (map apex_z (apexPoints r));
  inv_behind : Forall (fun ap => apex_z ap + 2000 <= lastZ 0 (segments r))
                      (apexPoints r);
  inv_direction : Forall (fun ap => direction ap = 1 \/ direction ap = -1)
                         (apexPoints r)
}.

(** ** Sample states *)

(** Draws that select a long hard turn of intensity 6.5 to the right. *)
Definition draws_long : Draws := mkDraws (9 # 10) (1 # 2) (3 # 4).

(** Three calls from the empty track, the last one far enough ahead to
    prune. *)
Definition sampleCalls : list (Draws * Q) :=
  [(draws_long, 0); (mkDraws (1 # 10) (1 # 3) 0, 900);
   (mkDraws (6 # 10) (2 # 3) (1 # 4), 9000)].

(** The track after the first frame of a run: the initial straight and a
    long hard turn, with its apex at z = 10000. *)
Definition roadAfterFirstFrame : Road := generateRoad draws_long 0 emptyRoad.

(** A vehicle beyond the barrier on that track. *)
Definition beyondBarrier : Sim :=
  mkSim (set_x (176 # 100) startPlayer) roadAfterFirstFrame startFx 1 PLAYING.

Definition noInput : Inputs := mkInputs false false.

Definition steerRight : Inputs := mkInputs false true.

(** An off-road vehicle at speed [v] on that track. *)
Definition offRoadAt (v : Q) : Sim :=
  mkSim (set_speed v (set_x (3 # 2) startPlayer))
        roadAfterFirstFrame startFx 1 PLAYING.

(** A frame of 1/60 s. *)
Definition frame60 (inp : Inputs) : Frame := mkFrame (1 # 60) inp draws_long.

(** A vehicle 100 units past the first apex of the track (at z = 10000). *)
Definition pastApex : Sim :=
  mkSim (set_distanceTraveled 10100 startPlayer)
        roadAfterFirstFrame startFx 1 PLAYING.

(** A vehicle leaning right at 0.9, 100 units before the first apex of
    the track (at z = 10000, direction 1). *)
Definition onApex : Sim :=
  mkSim (set_lean (9 # 10) (set_distanceTraveled 9900 startPlayer))
        roadAfterFirstFrame startFx 1 PLAYING.

(** * Further vocabulary: the life of a run *)

(** The player left by a tick outside [PLAYING], before it moves forward:
    controls and speed as in [entering], and the fall animation when the
    state is [GAME_OVER] with an active crash. *)
Definition idle (dt : Q) (inp : Inputs) (s : Sim) : Player :=
  let p0 := player (entering dt inp s) in
  if GameState_eqb (gameState s) GAME_OVER && active (crash p0)
  then set_crash (fall dt (crash p0)) p0 else p0.

(** A frame as the render loop and [Math.random] supply it: a time step
    in [0, 0.1], draws in [0, 1). *)
Definition wfFrame (fr : Frame) : Prop :=
  0 <= frame_dt fr /\ frame_dt fr <= 1 # 10
  /\ 0 <= range (frame_draws fr) /\ range (frame_draws fr) < 1.

(** [z] of the first stored segment. *)
Definition firstZ (dflt : Q) (l : list RoadSegment) : Q :=
  match l with
  | [] => dflt
  | sg :: _ => seg_z sg
  end.

(** What every state of a run satisfies. *)
Record runInv (s : Sim) : Prop := mkRunInv {
  ri_slow : 1 # 10 <= slowMoFactor (fx s) /\ slowMoFactor (fx s) <= 1;
  ri_speed : 0 <= speed (player s) /\ speed (player s) <= MAX_SPEED;
  ri_dist : 0 <= distanceTraveled (player s);
  ri_driving : drivingRange s;
  ri_chained : chained (segments (road s));
  ri_behind : Forall (fun sg => distanceTraveled (player s) - 2000 <= seg_z sg)
                     (segments (road s));
  ri_first : firstZ 100 (segments (road s)) <= distanceTraveled (player s) + 100;
  ri_start : segments (road s) = [] -> distanceTraveled (player s) == 0;
  ri_ahead : segments (road s) <> [] ->
             distanceTraveled (player s) + 5000 <= lastZ 0 (segments (road s));
  ri_upper : lastZ 0 (segments (road s)) <= distanceTraveled (player s) + 30000
}.

(** Two frames of 1/60 s, as used to exercise the properties of a run. *)
Definition twoFrames : list Frame := [frame60 noInput; frame60 steerRight].

(** The state after the tick that crashes [beyondBarrier]. *)
Definition crashed : Sim := update (1 # 10) steerRight draws_long beyondBarrier.

(** A trail point that can be drawn: opacity in (0, 1], recorded at or
    behind the distance [dist]. *)
Definition trailPointOk (dist : Q) (pt : TrailPoint) : Prop :=
  0 < alpha pt /\ alpha pt <= 1 /\ trail_z pt <= dist.

(** * More of the program *)

(** ** utils/gameUtils.ts: the easing function *)

Definition easeOutBack (x : Q) : Q :=
  let c1 := 170158 # 100000 in
  let c3 := c1 + 1 in
  1 + c3 * (x - 1) ^ 3 + c1 * (x - 1) ^ 2.

(** ** GameCanvas: the input event listeners

    A keyboard event is its [code]; a touch event is the list of the
    [clientX] of [e.touches]. *)

Inductive KeyCode := ArrowRight | KeyD | ArrowLeft | KeyA | OtherKey.

Definition isRightKey (c : KeyCode) : bool :=
  match c with ArrowRight | KeyD => true | _ => false end.

Definition isLeftKey (c : KeyCode) : bool :=
  match c with ArrowLeft | KeyA => true | _ => false end.

Definition handleKeyDown (gs : GameState) (code : KeyCode) (inp : Inputs)
  : Inputs :=
  if negb (GameState_eqb gs PLAYING) then inp
  else
    let inp := if isRightKey code then mkInputs (inp_left inp) true else inp in
    if isLeftKey code then mkInputs true (inp_right inp) else inp.

Definition handleKeyUp (code : KeyCode) (inp : Inputs) : Inputs :=
  let inp := if isRightKey code then mkInputs (inp_left inp) false else inp in
  if isLeftKey code then mkInputs false (inp_right inp) else inp.

Definition handleTouchStart (gs : GameState) (width : Q) (touches : list Q)
                            (inp : Inputs) : Inputs :=
  if negb (GameState_eqb gs PLAYING) then inp
  else
    fold_left (fun acc clientX =>
                 if gtb clientX (width / 2) then mkInputs (inp_left acc) true
                 else mkInputs true (inp_right acc))
              touches inp.

Definition handleTouchEnd (width : Q) (touches : list Q) : Inputs :=
  let '(left_, right_) :=
    fold_left (fun '(left_, right_) clientX =>
                 if gtb clientX (width / 2) then (left_, true)
                 else (true, right_))
              touches (false, false) in
  mkInputs left_ right_.

(** ** GameCanvas: the time step of the render loop

    [render (time)]: the new [lastTimeRef.current] and the [safeDelta]
    handed to [update]. *)
Definition renderDelta (lastTime time : Q) : Q * Q :=
  let lastTime := if eqb lastTime 0 then time else lastTime in
  let deltaTime := (time - lastTime) / 1000 in
  (time, Qmin deltaTime (1 # 10)).

(** The [safeDelta] of successive animation frames. *)
Fixpoint renderDeltas (lastTime : Q) (times : list Q) : list Q :=
  match times with
  | [] => []
  | time :: rest =>
      let '(lastTime', safeDelta) := renderDelta lastTime time in
      safeDelta :: renderDeltas lastTime' rest
  end.

(** ** GameCanvas: the road pass of [draw] *)

Definition ROAD_WIDTH : Q := 2200.

(** The search for [startIdx]: the first index with [z >= playerZ], 0
    when there is none. *)
Fixpoint startIndex (playerZ : Q) (segs : list RoadSegment) (i : nat) : nat :=
  match segs with
  | [] => O
  | sg :: t => if geb (seg_z sg) playerZ then i else startIndex playerZ t (S i)
  end.

(** An entry of [segmentList] and an entry of [trailSegments]. *)
Record Sample := mkSample {
  sample_p : ProjectedPoint;
  sample_color : option Color
}.

Record TrailSegment := mkTrailSegment {
  ts_worldX : Q;
  ts_z : Q
}.

(** The loop over the visible segments, threading [dx] and [currentX]. *)
Fixpoint projectSegments (width height playerX playerZ dx currentX : Q)
                         (segs : list RoadSegment)
  : list Sample * list TrailSegment :=
  match segs with
  | [] => ([], [])
  | seg :: rest =>
      let dx := dx + seg_curve seg in
      let currentX := currentX + dx in
      let worldX := currentX - playerX in
      let worldZ := seg_z seg - playerZ in
      let '(segmentList, trailSegments) :=
        projectSegments width height playerX playerZ dx currentX rest in
      let trailSegments := mkTrailSegment currentX (seg_z seg) :: trailSegments in
      if ltb worldZ 10 then (segmentList, trailSegments)
      else
        let p1 := project worldX (- CAMERA_HEIGHT) worldZ 0 0 0 CAMERA_DEPTH
                          width height ROAD_WIDTH in
        (mkSample p1 (seg_color seg) :: segmentList, trailSegments)
  end.

Definition roadPass (width height : Q) (p : Player) (r : Road)
  : list Sample * list TrailSegment :=
  let playerZ := distanceTraveled p in
  let playerX := x p * (ROAD_WIDTH / 2) in
  let segs := segments r in
  let startIdx := startIndex playerZ segs 0 in
  let startSeg := nth_error segs startIdx in
  let segmentPercent :=
    match startSeg with
    | Some sg => (playerZ - (seg_z sg - SEGMENT_LENGTH)) / SEGMENT_LENGTH
    | None => 0
    end in
  let dx := - (match startSeg with
               | Some sg => seg_curve sg * segmentPercent
               | None => 0
               end) in
  let currentX := - (dx * segmentPercent) in
  projectSegments width height playerX playerZ dx currentX
                  (firstn (iters VISIBLE_SEGMENTS) (skipn startIdx segs)).

(** An iteration of the drawing loop that is not skipped: the two
    projected points it joins, the kerb colour override and the parity
    that selects the colours. *)
Record Quad := mkQuad {
  quad_i : nat;
  quad_near : ProjectedPoint;
  quad_far : ProjectedPoint;
  quad_kerb : option Color;
  quad_isDark : bool
}.

(** The drawing loop, [i] from [segmentList.length - 1] down to 1. *)
Definition roadQuads (startIdx : nat) (segmentList : list Sample) : list Quad :=
  flat_map
    (fun i =>
       match nth_error segmentList (i - 1), nth_error segmentList i with
       | Some s1, Some s2 =>
           let p1 := sample_p s1 in
           let p2 := sample_p s2 in
           if (screenY p1 <=? screenY p2)%Z then []
           else
             let segIndex := (startIdx + i)%nat in
             [mkQuad i p1 p2 (sample_color s1)
                     (Nat.eqb ((segIndex / 2) mod 2) 0)]
       | _, _ => []
       end)
    (rev (seq 1 (length segmentList - 1))).

(** ** App: the high score effect

    The effect that runs when [score] or [highScore] changes; the
    write to [localStorage] stores the same value. *)
Definition highScoreEffect (score highScore : Z) : Z :=
  if (score >? highScore)%Z then score else highScore.

(** The high score after the successive values of [score]. *)
Definition highScoreAfter (scores : list Z) (highScore : Z) : Z :=
  fold_left (fun high sc => highScoreEffect sc high) scores highScore.

(** Animation-frame timestamps of a sample run, in milliseconds. *)
Definition sampleTimes : list Q := [1000; 1016; 1033; 1400].

(** A short straight and a vehicle 150 units along it, as used to
    exercise the road pass. *)
Definition shortRoad : Road := addTrackSegment 0 6 0 0 emptyRoad.

Definition riderAt150 : Player := set_distanceTraveled 150 (player startSim).

(** Row order of [segmentList]: a later sample is not lower on screen. *)
Definition notBelow (s1 s2 : Sample) : Prop :=
  (screenY (sample_p s2) <= screenY (sample_p s1))%Z.

(** Stored segments in order of [z]. *)
Definition zOrdered (a b : RoadSegment) : Prop := seg_z a <= seg_z b.

(** What every state of a run satisfies about the rider. *)
Record riderInv (s : Sim) : Prop := mkRiderInv {
  rd_state : gameState s = PLAYING \/ gameState s = GAME_OVER;
  rd_inside : gameState s = PLAYING ->
              Qabs (x (player s)) <= COLLISION_THRESHOLD
              /\ active (crash (player s)) = false;
  rd_crashed : gameState s = GAME_OVER ->
               COLLISION_THRESHOLD < Qabs (x (player s))
               /\ active (crash (player s)) = true;
  rd_lean : - (3 # 2) <= lean (player s) /\ lean (player s) <= 3 # 2;
  rd_target : targetLean (player s) = 1 \/ targetLean (player s) = 0
              \/ targetLean (player s) = -1
}.

(** An apex whose position is the far end of a stored segment with the
    apex kerb colour. *)
Definition marked (segs : list RoadSegment) (ap : ApexPoint) : Prop :=
  exists sg, In sg segs /\ seg_z sg == apex_z ap
             /\ seg_color sg = Some COLOR_APEX_EDGE.

Definition apexesMarked (r : Road) : Prop :=
  Forall (marked (segments r)) (apexPoints r).

(** A curve value within the sharpest one the generator draws. *)
Definition curveInRange (c : Q) : Prop := - 8 <= c /\ c <= 8.

Definition curveBounded (r : Road) : Prop :=
  Forall (fun sg => curveInRange (seg_curve sg)) (segments r).

(** A floating text as the FX step leaves it. *)
Definition textOk (t : FloatingText) : Prop :=
  0 < life t /\ life t <= 8 # 10
  /\ 5 # 10 <= text_scale t /\ text_scale t <= 12 # 10
  /\ text_y_off t <= 0.

(** What every state of a run satisfies about the effects. *)
Record fxInv (f : Fx) : Prop := mkFxInv {
  fi_shake : 0 <= shake f /\ shake f <= 80;
  fi_zoom : 8 # 10 <= zoom f /\ zoom f <= 1;
  fi_chroma : chromaticAberration f == 0;
  fi_texts : Forall textOk (texts f)
}.

(** ** GameCanvas: the trail pass and the speed lines of [draw] *)

(** A polygon of the trail: its two projected ends, their widths and the
    opacity it is drawn with. *)
Record TrailQuad := mkTrailQuad {
  tq_proj1 : ProjectedPoint;
  tq_proj2 : ProjectedPoint;
  tq_w1 : Q;
  tq_w2 : Q;
  tq_alpha : Q
}.

(** The loop over the trail points, [i] from 0 to [trail.length - 2],
    with what each iteration draws. *)
Definition trailPass (gs : GameState) (width height : Q) (p : Player)
                     (trailSegments : list TrailSegment) : list TrailQuad :=
  let playerZ := distanceTraveled p in
  let playerX := x p * (ROAD_WIDTH / 2) in
  if GameState_eqb gs PLAYING && (1 <? length (trail p))%nat then
    flat_map
      (fun i =>
         match nth_error (trail p) i, nth_error (trail p) (i + 1) with
         | Some tp1, Some tp2 =>
             let seg1 := find (fun ts => ltb (Qabs (ts_z ts - trail_z tp1))
                                             SEGMENT_LENGTH) trailSegments in
             let seg2 := find (fun ts => ltb (Qabs (ts_z ts - trail_z tp2))
                                             SEGMENT_LENGTH) trailSegments in
             match seg1, seg2 with
             | Some seg1, Some seg2 =>
                 if gtb (trail_z tp1) (playerZ + 10)
                    && gtb (trail_z tp2) (playerZ + 10)
                 then
                   let tx1 := ts_worldX seg1 + (trail_x tp1 * ROAD_WIDTH / 2)
                              - playerX in
                   let tx2 := ts_worldX seg2 + (trail_x tp2 * ROAD_WIDTH / 2)
                              - playerX in
                   let tz1 := trail_z tp1 - playerZ in
                   let tz2 := trail_z tp2 - playerZ in
                   let proj1 := project tx1 (- CAMERA_HEIGHT) tz1 0 0 0
                                        CAMERA_DEPTH width height ROAD_WIDTH in
                   let proj2 := project tx2 (- CAMERA_HEIGHT) tz2 0 0 0
                                        CAMERA_DEPTH width height ROAD_WIDTH in
                   [mkTrailQuad proj1 proj2
                                (inject_Z (w proj1) * (15 # 100))
                                (inject_Z (w proj2) * (15 # 100))
                                (alpha tp1)]
                 else []
             | _, _ => []
             end
         | _, _ => []
         end)
      (seq 0 (length (trail p) - 1))
  else [].


(** Keyboard events as the window delivers them to the two listeners. *)
Inductive KeyEvent := KeyDown (code : KeyCode) | KeyUp (code : KeyCode).

Definition handleKey (gs : GameState) (ev : KeyEvent) (inp : Inputs) : Inputs :=
  match ev with
  | KeyDown code => handleKeyDown gs code inp
  | KeyUp code => handleKeyUp code inp
  end.

Definition handleKeys (gs : GameState) (evs : list KeyEvent) (inp : Inputs)
  : Inputs :=
  fold_left (fun acc ev => handleKey gs ev acc) evs inp.

(** The lean the detection of a [PLAYING] tick reads: the smoothing step
    of that tick applied to the lean the tick started with. *)
Definition tickLean (dt : Q) (inp : Inputs) (s : Sim) : Q :=
  lerp (lean (player s)) (controls inp) (LEAN_SMOOTHING * scaledDelta dt s).

(** The speed the detection of a [PLAYING] tick finds: accelerated, then
    slowed with the floor when the offset reached in the tick is off the
    road. *)
Definition tickBaseSpeed (dt : Q) (inp : Inputs) (s : Sim) : Q :=
  let delta := scaledDelta dt s in
  let v1 := Qmin (speed (player s) + ACCELERATION * delta) MAX_SPEED in
  if gtb (Qabs (lateralOffsetAfter dt inp s)) OFF_ROAD_LIMIT
  then Qmax (v1 - OFF_ROAD_FRICTION * delta) 2000 else v1.

(** The floating texts as the FX step of a tick leaves them. *)
Definition agedTexts (dt : Q) (ts : list FloatingText) : list FloatingText :=
  filter (fun txt => gtb (life txt) 0)
         (map (fun txt => mkText (text txt) (text_y_off txt - 150 * dt)
                                 (life txt - (15 # 10) * dt)
                                 (lerp (text_scale txt) (12 # 10) (5 * dt)))
              ts).

(** * The arithmetic of the source: binary64

    A JavaScript number is a binary64 value, and each arithmetic
    operation returns the exact result rounded to the nearest such value,
    ties to the one with an even significand.  [b64] is that rounding on
    the rationals; the functions below are those of the source with
    every operation rounded, and take the values of the source wherever
    no operand or result is an infinity, a NaN or a subnormal number
    (magnitudes beyond [2^1024] or below [2^-1022], which the game does
    not reach). *)

Definition pow2 (e : Z) : Q := 2 ^ e.

(** [floor (log2 q)] for a positive [q]. *)
Definition ilog2 (q : Q) : Z :=
  let k := (Z.log2 (Qnum q) - Z.log2 (Z.pos (Qden q)))%Z in
  if Qle_bool (pow2 k) q then k else (k - 1)%Z.

(** The integer nearest to [q], ties to the even one. *)
Definition rne (q : Q) : Z :=
  let f := Qfloor q in
  match (q - inject_Z f ?= 1 # 2)%Q with
  | Lt => f
  | Gt => (f + 1)%Z
  | Eq => if Z.even f then f else (f + 1)%Z
  end.

(** The number with a significand of 53 bits nearest to a positive [q]. *)
Definition nearest53 (q : Q) : Q :=
  let ulp := pow2 (ilog2 q - 52) in
  inject_Z (rne (q / ulp)) * ulp.

Definition b64 (q : Q) : Q :=
  Qred (match q ?= 0 with
        | Eq => 0
        | Gt => nearest53 q
        | Lt => - nearest53 (- q)
        end).

(** ** utils/gameUtils.ts in binary64 *)

Definition lerp64 (start end_ t : Q) : Q :=
  b64 (b64 (start * b64 (1 - t)) + b64 (end_ * t)).

Definition randomRange64 (u min max : Q) : Q :=
  b64 (b64 (u * b64 (max - min)) + min).

(** ** GameCanvas: [project] in binary64

    [Math.max] and [Math.round] are exact on their arguments. *)
Definition project64 (lineX lineY lineZ cameraX cameraY cameraZ cameraDepth
                      width height roadWidth : Q) : ProjectedPoint :=
  let cx := b64 (lineX - cameraX) in
  let cy := b64 (lineY - cameraY) in
  let cz := b64 (lineZ - cameraZ) in
  let safeZ := Qmax 10 cz in
  let scale := b64 (cameraDepth / safeZ) in
  let screenX :=
    round (b64 (b64 (width / 2)
                + b64 (b64 (b64 (scale * cx) * width) / 2))) in
  let screenY :=
    round (b64 (b64 (height / 2)
                - b64 (b64 (b64 (scale * cy) * height) / 2))) in
  let projectedWidth :=
    round (b64 (b64 (b64 (scale * roadWidth) * width) / 2)) in
  mkProjected screenX screenY scale projectedWidth.

(** The constant [CAMERA_DEPTH: 0.8] as the source holds it. *)
Definition CAMERA_DEPTH64 : Q := b64 CAMERA_DEPTH.

(** * Properties *)

(** ** Numbers *)

Lemma ltb_lt a b : ltb a b = true <-> a < b.
Proof.
  unfold ltb. rewrite negb_true_iff, <- not_true_iff_false, Qle_bool_iff.
  split; intro H; [apply Qnot_le_lt | apply Qlt_not_le]; exact H.
Qed.

Lemma ltb_ge a b : ltb a b = false <-> b <= a.
Proof.
  unfold ltb. rewrite negb_false_iff. apply Qle_bool_iff.
Qed.

Lemma gtb_gt a b : gtb a b = true <-> b < a.
Proof. apply ltb_lt. Qed.

Lemma gtb_le a b : gtb a b = false <-> a <= b.
Proof. apply ltb_ge. Qed.

Lemma geb_ge a b : geb a b = true <-> b <= a.
Proof. apply Qle_bool_iff. Qed.

Lemma num_S i : num (S i) == num i + 1.
Proof.
  unfold num. rewrite Nat2Z.inj_succ, <- Z.add_1_r, inject_Z_plus. reflexivity.
Qed.

Lemma num_nonneg i : 0 <= num i.
Proof.
  unfold num. change 0 with (inject_Z 0). rewrite <- Zle_Qle. lia.
Qed.

Lemma iters_num i : iters (num i) = i.
Proof.
  unfold iters, num. rewrite Qceiling_Z. apply Nat2Z.id.
Qed.

(** ** Binary64: the rounding *)

Lemma pow2_pos e : 0 < pow2 e.
Proof. apply Qpower_0_lt. reflexivity. Qed.

Lemma pow2_add a b : pow2 (a + b) == pow2 a * pow2 b.
Proof. apply Qpower_plus. discriminate. Qed.

Lemma pow2_le a b : (a <= b)%Z -> pow2 a <= pow2 b.
Proof. intro H. apply Qpower_le_compat_l; [exact H | discriminate]. Qed.

Lemma pow2_lt a b : (a < b)%Z -> pow2 a < pow2 b.
Proof. intro H. apply Qpower_lt_compat_l; [exact H | reflexivity]. Qed.

Lemma pow2_Z a : (0 <= a)%Z -> pow2 a == inject_Z (2 ^ a).
Proof. intro H. unfold pow2. rewrite (Zpower_Qpower 2 a H). reflexivity. Qed.

Lemma pow2_sub a b : pow2 (a - b) == pow2 a / pow2 b.
Proof. apply Qpower_minus. discriminate. Qed.

Lemma Qdiv_lt_bounds x y A B :
  0 < x -> 0 < B -> B <= y -> x < A -> x / y < A / B.
Proof.
  intros Hx HB Hy HA.
  apply Qlt_shift_div_l; [exact HB|].
  assert (E : x / y * B == x * B / y) by (field; lra).
  rewrite E. apply Qlt_shift_div_r; [lra|]. nra.
Qed.

Lemma Qdiv_le_bounds x y A B :
  0 < A -> A <= x -> 0 < y -> y <= B -> A / B <= x / y.
Proof.
  intros HA Hx Hy HB.
  apply Qle_shift_div_l; [exact Hy|].
  assert (E : A / B * y == A * y / B) by (field; lra).
  rewrite E. apply Qle_shift_div_r; [lra|]. nra.
Qed.

Lemma ilog2_spec q :
  0 < q -> pow2 (ilog2 q) <= q /\ q < pow2 (ilog2 q + 1).
Proof.
  intro P. destruct q as [n d]. unfold ilog2. cbn [Qnum Qden].
  assert (Pn : (0 < n)%Z) by (unfold Qlt in P; cbn in P; lia).
  set (a := Z.log2 n). set (b := Z.log2 (Z.pos d)).
  destruct (Z.log2_spec n Pn) as [A0 A1]. fold a in A0, A1.
  destruct (Z.log2_spec (Z.pos d) (Pos2Z.is_pos d)) as [B0 B1].
  fold b in B0, B1.
  assert (Na : (0 <= a)%Z) by apply Z.log2_nonneg.
  assert (Nb : (0 <= b)%Z) by apply Z.log2_nonneg.
  assert (E : n # d == inject_Z n / inject_Z (Z.pos d)) by apply Qmake_Qdiv.
  assert (Pd : 0 < inject_Z (Z.pos d)) by reflexivity.
  assert (QA0 : pow2 a <= inject_Z n)
    by (rewrite (pow2_Z a Na), <- Zle_Qle; exact A0).
  assert (QA1 : inject_Z n < pow2 (a + 1))
    by (rewrite (pow2_Z (a + 1)) by lia; rewrite <- Zlt_Qlt;
        replace (a + 1)%Z with (Z.succ a) by lia; exact A1).
  assert (QB0 : pow2 b <= inject_Z (Z.pos d))
    by (rewrite (pow2_Z b Nb), <- Zle_Qle; exact B0).
  assert (QB1 : inject_Z (Z.pos d) < pow2 (b + 1))
    by (rewrite (pow2_Z (b + 1)) by lia; rewrite <- Zlt_Qlt;
        replace (b + 1)%Z with (Z.succ b) by lia; exact B1).
  pose proof (pow2_pos a) as Pa. pose proof (pow2_pos b) as Pb.
  pose proof (pow2_pos (b + 1)) as Pb1.
  assert (Px : 0 < inject_Z n) by (rewrite Zlt_Qlt in Pn; exact Pn).
  assert (U : n # d < pow2 (a - b + 1)).
  { replace (a - b + 1)%Z with (a + 1 - b)%Z by lia.
    rewrite pow2_sub, E. apply Qdiv_lt_bounds; lra. }
  assert (L : pow2 (a - b - 1) <= n # d).
  { replace (a - b - 1)%Z with (a - (b + 1))%Z by lia.
    rewrite pow2_sub, E. apply Qdiv_le_bounds; lra. }
  destruct (Qle_bool (pow2 (a - b)) (n # d)) eqn:C.
  - apply Qle_bool_iff in C. split; [exact C | exact U].
  - assert (C' : n # d < pow2 (a - b)).
    { apply Qnot_le_lt. intro K. apply Qle_bool_iff in K. congruence. }
    split; [exact L|]. replace (a - b - 1 + 1)%Z with (a - b)%Z by lia.
    exact C'.
Qed.

Lemma ilog2_le p q : 0 < p -> p <= q -> (ilog2 p <= ilog2 q)%Z.
Proof.
  intros P L. destruct (ilog2_spec p P) as [A _].
  destruct (ilog2_spec q) as [_ B]; [lra|].
  destruct (Z_le_gt_dec (ilog2 p) (ilog2 q)) as [K | K]; [exact K|].
  assert (M : pow2 (ilog2 q + 1) <= pow2 (ilog2 p)) by (apply pow2_le; lia).
  lra.
Qed.

Lemma Qfloor_frac q : 0 <= q - inject_Z (Qfloor q) /\ q - inject_Z (Qfloor q) < 1.
Proof.
  pose proof (Qfloor_le q). pose proof (Qlt_floor q).
  rewrite inject_Z_plus in H0. change (inject_Z 1) with 1 in H0. split; lra.
Qed.

Lemma rne_range q : (Qfloor q <= rne q <= Qfloor q + 1)%Z.
Proof.
  unfold rne. destruct (_ ?= _); [destruct (Z.even _)| |]; lia.
Qed.

Lemma rne_integer q m : q == inject_Z m -> rne q = m.
Proof.
  intro E. unfold rne.
  assert (F : Qfloor q = m) by (rewrite E; apply Qfloor_Z).
  rewrite F.
  assert (Z0 : q - inject_Z m == 0) by (rewrite E; ring).
  assert (C : (q - inject_Z m ?= 1 # 2) = Lt)
    by (apply Qlt_alt; rewrite Z0; reflexivity).
  rewrite C. reflexivity.
Qed.

Lemma rne_ge q m : inject_Z m <= q -> (m <= rne q)%Z.
Proof.
  intro H. pose proof (rne_range q).
  assert ((m <= Qfloor q)%Z)
    by (rewrite <- (Qfloor_Z m); apply Qfloor_resp_le, H).
  lia.
Qed.

Lemma rne_le q m : q <= inject_Z m -> (rne q <= m)%Z.
Proof.
  intro H. pose proof (rne_range q).
  destruct (Z_lt_le_dec (Qfloor q) m) as [K | K]; [lia|].
  assert (E : q == inject_Z m).
  { apply Qle_antisym; [exact H|].
    apply Qle_trans with (inject_Z (Qfloor q)); [|apply Qfloor_le].
    rewrite <- Zle_Qle. exact K. }
  rewrite (rne_integer q m E). lia.
Qed.

Lemma rne_spec q :
  (q - inject_Z (Qfloor q) < 1 # 2 /\ rne q = Qfloor q)
  \/ (q - inject_Z (Qfloor q) == 1 # 2
      /\ rne q = if Z.even (Qfloor q) then Qfloor q else (Qfloor q + 1)%Z)
  \/ (1 # 2 < q - inject_Z (Qfloor q) /\ rne q = (Qfloor q + 1)%Z).
Proof.
  unfold rne. destruct (_ ?= _) eqn:C.
  - right; left. split; [apply Qeq_alt, C | reflexivity].
  - left. split; [apply Qlt_alt, C | reflexivity].
  - right; right. split; [apply Qgt_alt, C | reflexivity].
Qed.

Lemma rne_mono p q : p <= q -> (rne p <= rne q)%Z.
Proof.
  intro H.
  assert (F : (Qfloor p <= Qfloor q)%Z) by (apply Qfloor_resp_le, H).
  pose proof (rne_range p) as Rp. pose proof (rne_range q) as Rq.
  destruct (Z.eq_dec (Qfloor p) (Qfloor q)) as [E | NE]; [|lia].
  destruct (rne_spec p) as [[Cp ->] | [[Cp ->] | [Cp ->]]];
    destruct (rne_spec q) as [[Cq ->] | [[Cq ->] | [Cq ->]]];
    rewrite E in *; try (destruct (Z.even (Qfloor q))); try lia;
    exfalso; lra.
Qed.

Lemma nearest53_bounds q :
  0 < q -> pow2 (ilog2 q) <= nearest53 q /\ nearest53 q <= pow2 (ilog2 q + 1).
Proof.
  intro P. destruct (ilog2_spec q P) as [A B]. unfold nearest53.
  set (e := ilog2 q) in *. set (u := pow2 (e - 52)).
  assert (Pu : 0 < u) by apply pow2_pos.
  assert (E0 : pow2 e == inject_Z (2 ^ 52) * u).
  { unfold u. rewrite <- (pow2_Z 52) by lia. rewrite <- pow2_add.
    replace (52 + (e - 52))%Z with e by lia. reflexivity. }
  assert (E1 : pow2 (e + 1) == inject_Z (2 ^ 53) * u).
  { unfold u. rewrite <- (pow2_Z 53) by lia. rewrite <- pow2_add.
    replace (53 + (e - 52))%Z with (e + 1)%Z by lia. reflexivity. }
  assert (L : (2 ^ 52 <= rne (q / u))%Z).
  { apply rne_ge. apply Qle_shift_div_l; [exact Pu | lra]. }
  assert (U : (rne (q / u) <= 2 ^ 53)%Z).
  { apply rne_le. apply Qle_shift_div_r; [exact Pu | lra]. }
  rewrite E0, E1. rewrite Zle_Qle in L, U.
  split; apply Qmult_le_compat_r; lra.
Qed.

Lemma nearest53_mono p q : 0 < p -> p <= q -> nearest53 p <= nearest53 q.
Proof.
  intros P L. assert (Pq : 0 < q) by lra.
  pose proof (ilog2_le p q P L) as K.
  destruct (Z.eq_dec (ilog2 p) (ilog2 q)) as [E | NE].
  - unfold nearest53. rewrite E. set (u := pow2 (ilog2 q - 52)).
    assert (Pu : 0 < u) by apply pow2_pos.
    apply Qmult_le_compat_r; [|lra]. rewrite <- Zle_Qle. apply rne_mono.
    apply Qle_shift_div_l; [exact Pu|].
    assert (X : p / u * u == p) by (field; lra). lra.
  - destruct (nearest53_bounds p P) as [_ U].
    destruct (nearest53_bounds q Pq) as [Lq _].
    assert (M : pow2 (ilog2 p + 1) <= pow2 (ilog2 q)) by (apply pow2_le; lia).
    lra.
Qed.

Lemma nearest53_pos q : 0 < q -> 0 < nearest53 q.
Proof.
  intro P. destruct (nearest53_bounds q P) as [L _].
  pose proof (pow2_pos (ilog2 q)). lra.
Qed.

Lemma b64_cases q :
  (q < 0 /\ b64 q == - nearest53 (- q))
  \/ (q == 0 /\ b64 q == 0)
  \/ (0 < q /\ b64 q == nearest53 q).
Proof.
  unfold b64. rewrite Qred_correct. destruct (q ?= 0) eqn:C.
  - right; left. split; [apply Qeq_alt, C | reflexivity].
  - left. split; [apply Qlt_alt, C | reflexivity].
  - right; right. split; [apply Qgt_alt, C | reflexivity].
Qed.

Lemma b64_mono p q : p <= q -> b64 p <= b64 q.
Proof.
  intro L.
  destruct (b64_cases p) as [[Sp ->] | [[Sp ->] | [Sp ->]]];
    destruct (b64_cases q) as [[Sq ->] | [[Sq ->] | [Sq ->]]]; try lra.
  - assert (M : nearest53 (- q) <= nearest53 (- p))
      by (apply nearest53_mono; lra). lra.
  - assert (0 < nearest53 (- p)) by (apply nearest53_pos; lra). lra.
  - assert (0 < nearest53 (- p)) by (apply nearest53_pos; lra).
    assert (0 < nearest53 q) by (apply nearest53_pos; lra). lra.
  - assert (0 < nearest53 q) by (apply nearest53_pos; lra). lra.
  - apply nearest53_mono; lra.
Qed.

#[global] Instance b64_proper : Proper (Qeq ==> Qeq) b64.
Proof.
  intros p q E. apply Qle_antisym; apply b64_mono; rewrite E; apply Qle_refl.
Qed.

Lemma b64_nonneg q : 0 <= q -> 0 <= b64 q.
Proof. intro H. change 0 with (b64 0) at 1. apply b64_mono, H. Qed.

Lemma b64_0 : b64 0 == 0.
Proof. vm_compute. reflexivity. Qed.

Lemma b64_1 : b64 1 == 1.
Proof. vm_compute. reflexivity. Qed.

Lemma b64_10 : b64 10 == 10.
Proof. vm_compute. reflexivity. Qed.

(** *** The rounding error, and [lerp] between -1 and 1 *)

Lemma ilog2_unique q k :
  0 < q -> pow2 k <= q -> q < pow2 (k + 1) -> ilog2 q = k.
Proof.
  intros P L U. destruct (ilog2_spec q P) as [A B].
  destruct (Z.lt_trichotomy (ilog2 q) k) as [C | [C | C]]; [|exact C|].
  - assert (M : pow2 (ilog2 q + 1) <= pow2 k) by (apply pow2_le; lia). lra.
  - assert (M : pow2 (k + 1) <= pow2 (ilog2 q)) by (apply pow2_le; lia). lra.
Qed.

Lemma rne_error x :
  inject_Z (rne x) - x <= 1 # 2 /\ x - inject_Z (rne x) <= 1 # 2.
Proof.
  destruct (Qfloor_frac x) as [F0 F1].
  destruct (rne_spec x) as [[C ->] | [[C ->] | [C ->]]].
  - split; lra.
  - destruct (Z.even (Qfloor x)); [split; lra|].
    rewrite inject_Z_plus. change (inject_Z 1) with 1. split; lra.
  - rewrite inject_Z_plus. change (inject_Z 1) with 1. split; lra.
Qed.

Lemma pow2_half e : pow2 (e - 53) == (1 # 2) * pow2 (e - 52).
Proof.
  replace (e - 53)%Z with (-1 + (e - 52))%Z by lia. rewrite pow2_add.
  reflexivity.
Qed.

Lemma nearest53_error q :
  0 < q ->
  q - pow2 (ilog2 q - 53) <= nearest53 q
  /\ nearest53 q <= q + pow2 (ilog2 q - 53).
Proof.
  intro P. unfold nearest53. rewrite pow2_half.
  set (u := pow2 (ilog2 q - 52)).
  assert (Pu : 0 < u) by apply pow2_pos.
  destruct (rne_error (q / u)) as [A B].
  assert (E : q / u * u == q) by (field; lra).
  set (m := inject_Z (rne (q / u))) in *.
  assert (A' : (m - q / u) * u <= (1 # 2) * u) by (apply Qmult_le_compat_r; lra).
  assert (B' : (q / u - m) * u <= (1 # 2) * u) by (apply Qmult_le_compat_r; lra).
  split; nra.
Qed.

Lemma nearest53_idem q : 0 < q -> nearest53 (nearest53 q) == nearest53 q.
Proof.
  intro P. destruct (nearest53_bounds q P) as [L U].
  pose proof (nearest53_pos q P) as Pv.
  set (e := ilog2 q) in *.
  set (u := pow2 (e - 52)).
  assert (Pu : 0 < u) by apply pow2_pos.
  assert (V : nearest53 q == inject_Z (rne (q / u)) * u) by reflexivity.
  set (m := rne (q / u)) in *.
  destruct (Qlt_le_dec (nearest53 q) (pow2 (e + 1))) as [C | C].
  - assert (K : ilog2 (nearest53 q) = e) by (apply ilog2_unique; assumption).
    unfold nearest53 at 1. rewrite K. fold u.
    assert (I : nearest53 q / u == inject_Z m) by (rewrite V; field; lra).
    rewrite (rne_integer _ _ I). symmetry. exact V.
  - assert (Ev : nearest53 q == pow2 (e + 1)) by (apply Qle_antisym; assumption).
    assert (K : ilog2 (nearest53 q) = (e + 1)%Z).
    { apply ilog2_unique; [exact Pv | lra|].
      rewrite Ev. apply pow2_lt. lia. }
    unfold nearest53 at 1. rewrite K.
    assert (X : pow2 (e + 1) == inject_Z (2 ^ 52) * pow2 (e + 1 - 52)).
    { rewrite <- (pow2_Z 52) by lia. rewrite <- pow2_add.
      replace (52 + (e + 1 - 52))%Z with (e + 1)%Z by lia. reflexivity. }
    pose proof (pow2_pos (e + 1 - 52)) as Pu'.
    assert (I : nearest53 q / pow2 (e + 1 - 52) == inject_Z (2 ^ 52))
      by (rewrite Ev, X; field; lra).
    rewrite (rne_integer _ _ I). rewrite Ev. symmetry. exact X.
Qed.

Lemma b64_opp q : b64 (- q) == - b64 q.
Proof.
  destruct (b64_cases q) as [[S E] | [[S E] | [S E]]];
    destruct (b64_cases (- q)) as [[S' E'] | [[S' E'] | [S' E']]];
    try lra; rewrite E, E'.
  apply Qopp_comp. apply Qle_antisym; apply nearest53_mono; lra.
Qed.

Lemma b64_idem q : b64 (b64 q) == b64 q.
Proof.
  destruct (b64_cases q) as [[S E] | [[S E] | [S E]]].
  - rewrite E, b64_opp. apply Qopp_comp.
    assert (P : 0 < - q) by lra.
    pose proof (nearest53_pos _ P) as Pv.
    destruct (b64_cases (nearest53 (- q))) as [[S' _] | [[S' _] | [_ E']]];
      [lra | lra|].
    rewrite E'. apply nearest53_idem, P.
  - rewrite E. apply b64_0.
  - pose proof (nearest53_pos _ S) as Pv. rewrite E.
    destruct (b64_cases (nearest53 q)) as [[S' _] | [[S' _] | [_ E']]];
      [lra | lra|].
    rewrite E'. apply nearest53_idem, S.
Qed.

Lemma b64_error_below_one q :
  0 < q -> q < 1 ->
  q - pow2 (-54) <= b64 q /\ b64 q <= q + pow2 (-54).
Proof.
  intros P U.
  destruct (b64_cases q) as [[S _] | [[S _] | [_ E]]]; [lra | lra|].
  rewrite E. destruct (nearest53_error q P) as [A B].
  assert (K : (ilog2 q <= -1)%Z).
  { destruct (ilog2_spec q P) as [L _].
    destruct (Z_le_gt_dec (ilog2 q) (-1)) as [C | C]; [exact C|].
    assert (M : pow2 0 <= pow2 (ilog2 q)) by (apply pow2_le; lia).
    change (pow2 0) with 1 in M. lra. }
  assert (M : pow2 (ilog2 q - 53) <= pow2 (-54)) by (apply pow2_le; lia).
  split; lra.
Qed.

Lemma lerp64_one t : b64 t == t -> 0 <= t -> t <= 1 -> lerp64 1 1 t == 1.
Proof.
  intros R T0 T1. unfold lerp64.
  assert (E1 : 1 * b64 (1 - t) == b64 (1 - t)) by ring.
  assert (E2 : 1 * t == t) by ring.
  rewrite E1, E2, b64_idem, R.
  destruct (Qlt_le_dec 0 t) as [P | Z0].
  - destruct (Qlt_le_dec t 1) as [U | O].
    + destruct (b64_error_below_one (1 - t)) as [A B]; [lra | lra|].
      apply Qle_antisym.
      * assert (X : b64 (1 + pow2 (-54)) == 1) by (vm_compute; reflexivity).
        apply Qle_trans with (b64 (1 + pow2 (-54))); [|rewrite X; lra].
        apply b64_mono. lra.
      * assert (X : b64 (1 - pow2 (-54)) == 1) by (vm_compute; reflexivity).
        apply Qle_trans with (b64 (1 - pow2 (-54))); [rewrite X; lra|].
        apply b64_mono. lra.
    + assert (Et : t == 1) by lra.
      assert (E3 : 1 - t == 0) by lra. rewrite E3, b64_0, Et.
      vm_compute. reflexivity.
  - assert (Et : t == 0) by lra.
    assert (E3 : 1 - t == 1) by lra. rewrite E3, b64_1, Et.
    vm_compute. reflexivity.
Qed.

Lemma lerp64_mono a b a' b' t :
  0 <= t -> t <= 1 -> a <= a' -> b <= b' -> lerp64 a b t <= lerp64 a' b' t.
Proof.
  intros T0 T1 La Lb. unfold lerp64.
  assert (P : 0 <= b64 (1 - t)) by (apply b64_nonneg; lra).
  apply b64_mono. apply Qplus_le_compat; apply b64_mono.
  - apply Qmult_le_compat_r; assumption.
  - apply Qmult_le_compat_r; assumption.
Qed.

Lemma lerp64_opp a b t : lerp64 (- a) (- b) t == - lerp64 a b t.
Proof.
  unfold lerp64.
  assert (E1 : - a * b64 (1 - t) == - (a * b64 (1 - t))) by ring.
  assert (E2 : - b * t == - (b * t)) by ring.
  rewrite E1, E2, !b64_opp.
  assert (E3 : - b64 (a * b64 (1 - t)) + - b64 (b * t)
               == - (b64 (a * b64 (1 - t)) + b64 (b * t))) by ring.
  rewrite E3, b64_opp. reflexivity.
Qed.

Lemma lerp64_unit_range a b t :
  b64 t == t -> 0 <= t -> t <= 1 ->
  -1 <= a -> a <= 1 -> -1 <= b -> b <= 1 ->
  -1 <= lerp64 a b t /\ lerp64 a b t <= 1.
Proof.
  intros R T0 T1 A0 A1 B0 B1.
  pose proof (lerp64_one t R T0 T1) as O.
  split.
  - assert (M : lerp64 (- 1) (- 1) t <= lerp64 a b t)
      by (apply lerp64_mono; assumption).
    assert (N : lerp64 (- 1) (- 1) t == - lerp64 1 1 t)
      by exact (lerp64_opp 1 1 t).
    rewrite N, O in M. exact M.
  - rewrite <- O. apply lerp64_mono; assumption.
Qed.

(** *** Numbers that the rounding keeps apart *)

Lemma b64_rel_error q :
  0 < q ->
  q * (1 - pow2 (-53)) <= b64 q /\ b64 q <= q * (1 + pow2 (-53)).
Proof.
  intro P.
  destruct (b64_cases q) as [[S _] | [[S _] | [_ E]]]; [lra | lra|].
  rewrite E. destruct (nearest53_error q P) as [A B].
  destruct (ilog2_spec q P) as [L _].
  assert (X : pow2 (ilog2 q - 53) == pow2 (ilog2 q) * pow2 (-53)).
  { rewrite <- pow2_add. replace (ilog2 q + -53)%Z with (ilog2 q - 53)%Z by lia.
    reflexivity. }
  rewrite X in A, B.
  pose proof (pow2_pos (-53)) as Pe.
  assert (M : pow2 (ilog2 q) * pow2 (-53) <= q * pow2 (-53))
    by (apply Qmult_le_compat_r; lra).
  split; lra.
Qed.

Lemma b64_separates q1 q2 :
  0 < q2 -> q2 * (1 + pow2 (-50)) <= q1 -> b64 q2 < b64 q1.
Proof.
  intros P G.
  pose proof (pow2_pos (-50)) as P50.
  assert (P1 : 0 < q1) by nra.
  destruct (b64_rel_error q1 P1) as [A _].
  destruct (b64_rel_error q2 P) as [_ B].
  assert (E50 : pow2 (-50) == 8 * pow2 (-53)) by reflexivity.
  assert (Ev : pow2 (-53) == 1 # 9007199254740992) by reflexivity.
  set (e := pow2 (-53)) in *. rewrite E50 in G.
  apply Qle_lt_trans with (q2 * (1 + e)); [exact B|].
  apply Qlt_le_trans with (q1 * (1 - e)); [|exact A].
  apply Qlt_le_trans with (q2 * (1 + 8 * e) * (1 - e)).
  - assert (K : 0 < q2 * (e * (6 - 8 * e))).
    { apply Qmult_lt_0_compat; [exact P|].
      apply Qmult_lt_0_compat; lra. }
    assert (R : q2 * (1 + 8 * e) * (1 - e) - q2 * (1 + e)
                == q2 * (e * (6 - 8 * e))) by ring.
    lra.
  - apply Qmult_le_compat_r; [exact G | lra].
Qed.

(** ** Track: contiguity *)

Section Chain.

Lemma chain_proper a b l : a == b -> chain a l -> chain b l.
Proof.
  destruct l as [|s t]; simpl; [trivial|].
  intros E [H1 H2]. split; [rewrite H1, E; reflexivity | exact H2].
Qed.

Lemma lastZ_app a l1 l2 : lastZ a (l1 ++ l2) = lastZ (lastZ a l1) l2.
Proof.
  revert a. induction l1 as [|s t IH]; intro a; simpl; [reflexivity | apply IH].
Qed.

Lemma chain_app a l1 l2 :
  chain a (l1 ++ l2) <-> chain a l1 /\ chain (lastZ a l1) l2.
Proof.
  revert a. induction l1 as [|s t IH]; intro a; simpl.
  - tauto.
  - rewrite IH. tauto.
Qed.

Lemma chain_chained a l : chain a l -> chained l.
Proof. destruct l; simpl; tauto. Qed.

Lemma chain_lastZ a l :
  chain a l -> lastZ a l == a + num (length l) * SEGMENT_LENGTH.
Proof.
  revert a. induction l as [|s t IH]; intros a H.
  - simpl. unfold num. simpl. ring.
  - destruct H as [H1 H2]. cbn [lastZ length].
    rewrite (IH _ H2), H1, num_S. ring.
Qed.

Lemma chain_lower a l : chain a l -> Forall (fun s => a < seg_z s) l.
Proof.
  revert a. induction l as [|s t IH]; intros a H; constructor.
  - destruct H as [H _]. cbv beta. rewrite H. unfold SEGMENT_LENGTH. lra.
  - destruct H as [H1 H2]. apply IH in H2.
    eapply Forall_impl; [|exact H2]. cbv beta. intros u Hu.
    rewrite H1 in Hu. unfold SEGMENT_LENGTH in Hu. lra.
Qed.

Lemma chained_contiguous l : chained l <-> contiguous l.
Proof.
  split.
  - induction l as [|s t IH]; intros H i a b Ha Hb.
    + destruct i; discriminate.
    + destruct t as [|u t']; [destruct i as [|[|]]; discriminate|].
      destruct H as [H1 H2]. destruct i as [|i].
      * simpl in Ha, Hb. injection Ha as <-. injection Hb as <-. exact H1.
      * apply (IH H2 i a b); assumption.
  - induction l as [|s t IH]; intro H; [exact I|].
    destruct t as [|u t']; [exact I|]. split.
    + apply (H O s u); reflexivity.
    + apply IH. intros i a b Ha Hb. apply (H (S i) a b); assumption.
Qed.

(** A loop pushing [z = base + (k + i + 1) * SEGMENT_LENGTH]. *)
Lemma chain_loop base k f n j :
  (forall i, seg_z (f i) == base + (k + num i + 1) * SEGMENT_LENGTH) ->
  chain (base + (k + num j) * SEGMENT_LENGTH) (map f (seq j n)).
Proof.
  intro Hf. revert j. induction n as [|n IH]; intro j; simpl; [exact I|].
  split.
  - rewrite Hf. ring.
  - apply chain_proper with (a := base + (k + num (S j)) * SEGMENT_LENGTH).
    + rewrite Hf, num_S. ring.
    + apply IH.
Qed.

Lemma chain_pushLoop base k f n :
  (forall i, seg_z (f i) == base + (k + num i + 1) * SEGMENT_LENGTH) ->
  chain (base + k * SEGMENT_LENGTH) (pushLoop n f).
Proof.
  intro Hf. unfold pushLoop.
  apply chain_proper with (a := base + (k + num 0) * SEGMENT_LENGTH).
  - unfold num. simpl. ring.
  - apply chain_loop, Hf.
Qed.

Lemma pushLoop_length n f : length (pushLoop n f) = iters n.
Proof. unfold pushLoop. rewrite length_map, length_seq. reflexivity. Qed.

End Chain.

(** ** Track: what a block appends *)

Section Blocks.

(** A block whose [enter] and [exit] are whole numbers, and whose [hold]
    is whole too unless [exit] is 0: every call in [generateRoad] is
    one. *)
Lemma addTrackSegment_block (e x : nat) (hold curve : Q) (r : Road) :
  x = O \/ hold == num (iters hold) ->
  exists B,
    segments (addTrackSegment (num e) hold (num x) curve r)
      = segments r ++ B
    /\ chain (lastZ 0 (segments r)) B
    /\ length B = (e + iters hold + x)%nat.
Proof.
  intro Hx. unfold addTrackSegment. cbn [segments].
  set (a := lastZ 0 (segments r)).
  match goal with
  | |- exists B, _ ++ ?E ++ ?H ++ ?X = _ /\ _ =>
      set (enterSegs := E); set (holdSegs := H); set (exitSegs := X)
  end.
  assert (HE : chain a enterSegs).
  { apply chain_proper with (a := a + 0 * SEGMENT_LENGTH); [ring|].
    apply chain_pushLoop. intro i. cbn [seg_z]. ring. }
  assert (LE : lastZ a enterSegs == a + num e * SEGMENT_LENGTH).
  { rewrite (chain_lastZ _ _ HE). unfold enterSegs.
    rewrite pushLoop_length, iters_num. reflexivity. }
  assert (HH : chain (lastZ a enterSegs) holdSegs).
  { apply chain_proper with (a := a + num e * SEGMENT_LENGTH);
      [symmetry; exact LE|].
    apply chain_pushLoop. intro i. cbn [seg_z]. ring. }
  assert (LH : lastZ (lastZ a enterSegs) holdSegs
               == a + (num e + num (iters hold)) * SEGMENT_LENGTH).
  { rewrite (chain_lastZ _ _ HH), LE. unfold holdSegs.
    rewrite pushLoop_length. ring. }
  assert (HX : chain (lastZ (lastZ a enterSegs) holdSegs) exitSegs).
  { destruct Hx as [-> | Hh].
    - exact I.
    - apply chain_proper with (a := a + (num e + hold) * SEGMENT_LENGTH).
      + rewrite LH, <- Hh. reflexivity.
      + apply chain_pushLoop. intro i. cbn [seg_z]. ring. }
  exists (enterSegs ++ holdSegs ++ exitSegs).
  split; [reflexivity|]. split.
  - rewrite !chain_app. auto.
  - unfold enterSegs, holdSegs, exitSegs.
    rewrite !length_app, !pushLoop_length, !iters_num. lia.
Qed.

End Blocks.

Section Generation.

Lemma chained_append l B : chained l -> chain (lastZ 0 l) B -> chained (l ++ B).
Proof.
  destruct l as [|s t]; simpl.
  - intros _. apply chain_chained.
  - intros H1 H2. apply chain_app. split; assumption.
Qed.

Lemma chained_suffix l1 l2 : chained (l1 ++ l2) -> chained l2.
Proof.
  induction l1 as [|s t IH]; [trivial|].
  intro H. apply IH. simpl in H. exact (chain_chained _ _ H).
Qed.

Lemma lastZ_append l B :
  chain (lastZ 0 l) B ->
  lastZ 0 (l ++ B) == lastZ 0 l + num (length B) * SEGMENT_LENGTH.
Proof.
  intro H. rewrite lastZ_app. apply chain_lastZ, H.
Qed.

Lemma addPattern_block p r :
  exists B,
    segments (addPattern p r) = segments r ++ B
    /\ chain (lastZ 0 (segments r)) B
    /\ length B = patternLength p.
Proof.
  destruct p as [hold | i dr | i dr | i dr]; cbn [addPattern patternLength].
  - destruct (addTrackSegment_block 0 0 hold 0 r) as (B & E & C & L);
      [left; reflexivity|].
    exists B. repeat split; [exact E | exact C | rewrite L; lia].
  - destruct (addTrackSegment_block 20 20 20 (i * dr) r) as (B & E & C & L);
      [right; vm_compute; reflexivity|].
    exists B. repeat split; [exact E | exact C | exact L].
  - destruct (addTrackSegment_block 15 15 10 (i * dr) r)
      as (B1 & E1 & C1 & L1); [right; vm_compute; reflexivity|].
    destruct (addTrackSegment_block 15 15 10 (- i * dr)
                (addTrackSegment (num 15) 10 (num 15) (i * dr) r))
      as (B2 & E2 & C2 & L2); [right; vm_compute; reflexivity|].
    exists (B1 ++ B2). split; [|split].
    + change 15 with (num 15). rewrite E2, E1, app_assoc. reflexivity.
    + apply chain_app. split; [exact C1|].
      rewrite E1, lastZ_app in C2. exact C2.
    + rewrite length_app, L1, L2. reflexivity.
  - destruct (addTrackSegment_block 30 30 40 (i * dr) r) as (B & E & C & L);
      [right; vm_compute; reflexivity|].
    exists B. repeat split; [exact E | exact C | exact L].
Qed.

Lemma initialRoad_block r :
  exists B,
    segments (initialRoad r) = segments r ++ B
    /\ chain (lastZ 0 (segments r)) B
    /\ (segments r = [] -> length B = 50%nat)
    /\ (segments r <> [] -> B = []).
Proof.
  unfold initialRoad. destruct (segments r) as [|s t] eqn:E; cbn [length Nat.eqb].
  - destruct (addTrackSegment_block 0 0 50 0 r) as (B & E1 & C1 & L1);
      [left; reflexivity|].
    exists B. rewrite E in E1, C1. repeat split; try assumption.
    + intros _. rewrite L1. reflexivity.
    + intro H. contradiction H. reflexivity.
  - exists []. rewrite E, app_nil_r. repeat split; try reflexivity.
    intro H; discriminate.
Qed.

Lemma initialRoad_nonempty r : segments (initialRoad r) <> [].
Proof.
  destruct (initialRoad_block r) as (B & E & _ & L & N).
  destruct (segments r) as [|s t] eqn:Er.
  - rewrite E. destruct B; [specialize (L eq_refl); discriminate|].
    simpl. discriminate.
  - rewrite E. simpl. discriminate.
Qed.

Lemma aheadPatterns_cases d playerZ r1 :
  (lastZ 0 (segments r1) < playerZ + VISIBLE_SEGMENTS * SEGMENT_LENGTH
   /\ aheadPatterns d playerZ r1 = [choosePattern d])
  \/ (playerZ + VISIBLE_SEGMENTS * SEGMENT_LENGTH <= lastZ 0 (segments r1)
      /\ aheadPatterns d playerZ r1 = []).
Proof.
  unfold aheadPatterns.
  destruct (ltb _ _) eqn:E.
  - left. split; [apply ltb_lt, E | reflexivity].
  - right. split; [apply ltb_ge, E | reflexivity].
Qed.

Lemma extendRoad_block d playerZ r :
  exists B,
    segments (extendRoad d playerZ r) = segments r ++ B
    /\ chain (lastZ 0 (segments r)) B.
Proof.
  destruct (initialRoad_block r) as (B0 & E0 & C0 & _).
  unfold extendRoad.
  destruct (aheadPatterns_cases d playerZ (initialRoad r)) as [[_ ->] | [_ ->]];
    cbn [fold_left].
  - destruct (addPattern_block (choosePattern d) (initialRoad r))
      as (B1 & E1 & C1 & _).
    exists (B0 ++ B1). rewrite E1, E0, app_assoc. split; [reflexivity|].
    apply chain_app. split; [exact C0|].
    rewrite E0, lastZ_app in C1. exact C1.
  - exists B0. split; assumption.
Qed.

Lemma cleanupBehind_suffix playerZ l :
  exists l1, l = l1 ++ cleanupBehind playerZ l
             /\ Forall (fun s => seg_z s < playerZ - 2000) l1.
Proof.
  induction l as [|s t (l1 & E & F)]; simpl.
  - exists []. split; [reflexivity | constructor].
  - destruct (ltb (seg_z s) (playerZ - 2000)) eqn:C.
    + exists (s :: l1). split; [simpl; f_equal; exact E|].
      constructor; [apply ltb_lt, C | exact F].
    + exists []. split; [reflexivity | constructor].
Qed.

Lemma cleanupBehind_bound playerZ l :
  chained l ->
  Forall (fun s => playerZ - 2000 <= seg_z s) (cleanupBehind playerZ l).
Proof.
  induction l as [|s t IH]; intro H; simpl; [constructor|].
  destruct (ltb (seg_z s) (playerZ - 2000)) eqn:C.
  - apply IH. exact (chain_chained _ _ H).
  - apply ltb_ge in C. constructor; [exact C|].
    eapply Forall_impl; [|apply chain_lower; exact H].
    cbv beta. intros u Hu. lra.
Qed.

Lemma cleanupBehind_keeps playerZ l :
  forall s, In s l -> playerZ - 2000 <= seg_z s -> In s (cleanupBehind playerZ l).
Proof.
  induction l as [|u t IH]; intros s Hin Hs; simpl; [contradiction|].
  destruct (ltb (seg_z u) (playerZ - 2000)) eqn:C.
  - destruct Hin as [-> | Hin].
    + apply ltb_lt in C. lra.
    + apply IH; assumption.
  - exact Hin.
Qed.

Lemma cleanupBehind_last playerZ a l :
  cleanupBehind playerZ l <> [] ->
  lastZ a (cleanupBehind playerZ l) = lastZ a l.
Proof.
  revert a. induction l as [|s t IH]; intros a H; simpl in *; [reflexivity|].
  destruct (ltb (seg_z s) (playerZ - 2000)).
  - destruct t as [|u t']; [contradiction H; reflexivity|].
    rewrite (IH _ H). reflexivity.
  - reflexivity.
Qed.

Lemma generateRoad_chained d playerZ r :
  chained (segments r) -> chained (segments (generateRoad d playerZ r)).
Proof.
  intro H. unfold generateRoad, cleanup. cbn [segments].
  destruct (extendRoad_block d playerZ r) as (B & E & C).
  destruct (cleanupBehind_suffix playerZ (segments (extendRoad d playerZ r)))
    as (l1 & E1 & _).
  apply chained_suffix with (l1 := l1). rewrite <- E1, E.
  apply chained_append; assumption.
Qed.

End Generation.

(** ** Track: the embedding on the spec's scenarios *)

(** The first road of a run: 50 segments at z = 100, ..., 5000, curve 0
    throughout, no apex. *)
Example initialRoad_empty :
  length (segments (initialRoad emptyRoad)) = 50%nat
  /\ forallb (fun sg => eqb (seg_curve sg) 0) (segments (initialRoad emptyRoad))
     = true
  /\ map seg_z (firstn 2 (segments (initialRoad emptyRoad))) = [100; 200]
  /\ lastZ 0 (segments (initialRoad emptyRoad)) == 5000
  /\ apexPoints (initialRoad emptyRoad) = [].
Proof.
  repeat split; vm_compute; reflexivity.
Qed.

(** A medium curve of curvature 5 appended to that road: 60 segments and
    one apex, 30 segments into the block, direction 1. *)
Example mediumCurve_apex :
  let r := addTrackSegment 20 20 20 5 (initialRoad emptyRoad) in
  length (segments r) = 110%nat
  /\ (exists ap, apexPoints r = [ap]
                 /\ apex_z ap == 5000 + 30 * SEGMENT_LENGTH
                 /\ direction ap = 1 /\ hit ap = false /\ scored ap = false)
  /\ lastZ 0 (segments r) == 11000.
Proof.
  cbv zeta. split; [vm_compute; reflexivity|]. split.
  - eexists. split; [vm_compute; reflexivity|].
    repeat split; vm_compute; reflexivity.
  - vm_compute. reflexivity.
Qed.

(** ** Track: claims on [generateRoad] *)

Lemma chained_increasing l : chained l -> increasing l.
Proof.
  induction l as [|s t IH]; intros H i j a b Hij Ha Hb.
  - destruct i; discriminate.
  - destruct j as [|j]; [lia|]. simpl in Hb. destruct i as [|i].
    + simpl in Ha. injection Ha as <-.
      apply nth_error_In in Hb.
      pose proof (chain_lower _ _ H) as F.
      rewrite Forall_forall in F. exact (F b Hb).
    + simpl in Ha. apply (IH (chain_chained _ _ H) i j a b); [lia | assumption..].
Qed.

Lemma generateRoad_contiguous d playerZ r :
  contiguous (segments r) -> contiguous (segments (generateRoad d playerZ r)).
Proof.
  rewrite <- !chained_contiguous. apply generateRoad_chained.
Qed.

Lemma generate_chained calls r :
  chained (segments r) -> chained (segments (generate calls r)).
Proof.
  revert r. induction calls as [|c cs IH]; intros r H; simpl; [exact H|].
  apply IH, generateRoad_chained, H.
Qed.

Lemma addTrackSegment_contiguous (e h x : nat) curve r :
  contiguous (segments r) ->
  contiguous (segments (addTrackSegment (num e) (num h) (num x) curve r)).
Proof.
  rewrite <- !chained_contiguous. intro H.
  destruct (addTrackSegment_block e x (num h) curve r) as (B & E & C & _).
  - right. rewrite iters_num. reflexivity.
  - rewrite E. apply chained_append; assumption.
Qed.

(** C3. Whatever the sequence of [generateRoad] calls made since the track
    was created empty (any draws, any reference positions, hence any
    pruning), consecutive stored segments are exactly [SEGMENT_LENGTH]
    apart and the stored [z] strictly increase: no gap, no duplicate.
    One more call, or one more block of whole-number [enter], [hold] and
    [exit], appended to a contiguous track leaves it contiguous. *)
Theorem generateRoad_track_contiguous (calls : list (Draws * Q)) :
  contiguous (segments (generate calls emptyRoad))
  /\ increasing (segments (generate calls emptyRoad))
  /\ (forall d playerZ r, contiguous (segments r) ->
        contiguous (segments (generateRoad d playerZ r)))
  /\ (forall (enter hold exit : nat) curve r, contiguous (segments r) ->
        contiguous (segments (addTrackSegment (num enter) (num hold) (num exit)
                                              curve r))).
Proof.
  assert (H : chained (segments (generate calls emptyRoad)))
    by (apply generate_chained; exact I).
  split; [apply chained_contiguous, H|].
  split; [apply chained_increasing, H|].
  split; [apply generateRoad_contiguous | apply addTrackSegment_contiguous].
Qed.

Lemma generateRoad_track_contiguous_witness :
  length (segments (generate sampleCalls emptyRoad)) = 178%nat
  /\ contiguous (segments (generate sampleCalls emptyRoad))
  /\ increasing (segments (generate sampleCalls emptyRoad)).
Proof.
  destruct (generateRoad_track_contiguous sampleCalls) as (A & B & _).
  split; [vm_compute; reflexivity | split; [exact A | exact B]].
Defined.

Lemma cleanupBehind_nonempty playerZ a l :
  l <> [] -> playerZ - 2000 <= lastZ a l -> cleanupBehind playerZ l <> [].
Proof.
  revert a. induction l as [|s t IH]; intros a Hne Hl; [contradiction|].
  simpl. destruct (ltb (seg_z s) (playerZ - 2000)) eqn:C; [|discriminate].
  simpl in Hl. apply (IH (seg_z s)); [|exact Hl].
  destruct t; [|discriminate]. simpl in Hl. apply ltb_lt in C. lra.
Qed.

Lemma straight_length u :
  0 <= u -> u < 1 -> (10 <= iters (randomRange u 10 30) <= 30)%nat.
Proof.
  intros H0 H1. unfold iters, randomRange.
  assert (A : (Qceiling 10 <= Qceiling (u * (30 - 10) + 10))%Z)
    by (apply Qceiling_resp_le; lra).
  assert (B : (Qceiling (u * (30 - 10) + 10) <= Qceiling 30)%Z)
    by (apply Qceiling_resp_le; lra).
  change (Qceiling 10) with 10%Z in A. change (Qceiling 30) with 30%Z in B.
  lia.
Qed.

Lemma choosePattern_length d :
  0 <= range d -> range d < 1 ->
  (10 <= patternLength (choosePattern d) <= 100)%nat.
Proof.
  intros H0 H1. unfold choosePattern.
  destruct (ltb (pattern d) (20 # 100));
    [|destruct (ltb (pattern d) (5 # 10)); [|destruct (ltb (pattern d) (8 # 10))]];
    cbn [patternLength]; try lia.
  pose proof (straight_length (range d) H0 H1). lia.
Qed.

(** C2 (as the code has it). One call appends at most one pattern, after
    the initial 50-segment straight of an empty track.  With [L] the last
    [z] once the initial road is there: if [L] has reached the horizon
    [playerZ + VISIBLE_SEGMENTS * SEGMENT_LENGTH], nothing is appended and
    the last stored [z] stays [L]; otherwise exactly the drawn pattern is
    appended, and with its draw in [0, 1) it moves the last [z] forward by
    [k] segments, [10 <= k <= 100], whether or not that reaches the
    horizon. *)
Theorem generateRoad_one_pattern (d : Draws) (playerZ : Q) (r : Road) :
  let r1 := initialRoad r in
  let L := lastZ 0 (segments r1) in
  let horizon := playerZ + VISIBLE_SEGMENTS * SEGMENT_LENGTH in
  (length (aheadPatterns d playerZ r1) <= 1)%nat
  /\ (horizon <= L ->
      aheadPatterns d playerZ r1 = []
      /\ segments (extendRoad d playerZ r) = segments r1
      /\ lastZ 0 (segments (generateRoad d playerZ r)) == L)
  /\ (L < horizon -> 0 <= range d -> range d < 1 ->
      aheadPatterns d playerZ r1 = [choosePattern d]
      /\ exists k, (10 <= k <= 100)%nat
         /\ lastZ 0 (segments (extendRoad d playerZ r))
            == L + num k * SEGMENT_LENGTH
         /\ (segments (generateRoad d playerZ r) <> [] ->
             lastZ 0 (segments (generateRoad d playerZ r))
             == L + num k * SEGMENT_LENGTH)).
Proof.
  intros r1 L horizon. subst r1 L horizon.
  split; [|split].
  - destruct (aheadPatterns_cases d playerZ (initialRoad r)) as [[_ ->] | [_ ->]];
      simpl; lia.
  - intro H.
    destruct (aheadPatterns_cases d playerZ (initialRoad r)) as [[C _] | [_ E]];
      [lra|].
    assert (X : segments (extendRoad d playerZ r) = segments (initialRoad r))
      by (unfold extendRoad; rewrite E; reflexivity).
    split; [exact E|]. split; [exact X|].
    unfold generateRoad, cleanup. cbn [segments]. rewrite X.
    rewrite cleanupBehind_last; [reflexivity|].
    apply cleanupBehind_nonempty with (a := 0); [apply initialRoad_nonempty|].
    unfold VISIBLE_SEGMENTS, SEGMENT_LENGTH in H. lra.
  - intros H H0 H1.
    destruct (aheadPatterns_cases d playerZ (initialRoad r)) as [[_ E] | [C _]];
      [|lra].
    split; [exact E|].
    destruct (addPattern_block (choosePattern d) (initialRoad r))
      as (B & EB & CB & LB).
    assert (X : segments (extendRoad d playerZ r) = segments (initialRoad r) ++ B)
      by (unfold extendRoad; rewrite E; exact EB).
    exists (patternLength (choosePattern d)).
    split; [apply choosePattern_length; assumption|].
    assert (Y : lastZ 0 (segments (extendRoad d playerZ r))
                == lastZ 0 (segments (initialRoad r))
                   + num (patternLength (choosePattern d)) * SEGMENT_LENGTH).
    { rewrite X, <- LB. apply lastZ_append, CB. }
    split; [exact Y|].
    intro Hne. unfold generateRoad, cleanup in *. cbn [segments] in *.
    rewrite cleanupBehind_last; [exact Y | exact Hne].
Qed.

(** Two instances: the first call of a run, which draws a long hard turn
    short of the horizon, and a call on the track two such calls later,
    whose last [z] = 25000 is past the horizon. *)
Lemma generateRoad_one_pattern_witness :
  (lastZ 0 (segments (initialRoad emptyRoad))
     < 0 + VISIBLE_SEGMENTS * SEGMENT_LENGTH
   /\ 0 <= range draws_long /\ range draws_long < 1
   /\ aheadPatterns draws_long 0 (initialRoad emptyRoad)
      = [choosePattern draws_long])
  /\ (let r := generate [(draws_long, 0); (draws_long, 0)] emptyRoad in
      0 + VISIBLE_SEGMENTS * SEGMENT_LENGTH <= lastZ 0 (segments (initialRoad r))
      /\ aheadPatterns draws_long 0 (initialRoad r) = []).
Proof.
  split.
  - destruct (generateRoad_one_pattern draws_long 0 emptyRoad) as (_ & _ & H).
    assert (A : lastZ 0 (segments (initialRoad emptyRoad))
                < 0 + VISIBLE_SEGMENTS * SEGMENT_LENGTH)
      by (vm_compute; reflexivity).
    assert (B : 0 <= range draws_long) by (vm_compute; discriminate).
    assert (C : range draws_long < 1) by (vm_compute; reflexivity).
    split; [exact A | split; [exact B | split; [exact C|]]].
    exact (proj1 (H A B C)).
  - intro r.
    destruct (generateRoad_one_pattern draws_long 0 r) as (_ & H & _).
    assert (A : 0 + VISIBLE_SEGMENTS * SEGMENT_LENGTH
                <= lastZ 0 (segments (initialRoad r)))
      by (vm_compute; discriminate).
    split; [exact A | exact (proj1 (H A))].
Defined.

(** C2 (as stated) fails on the first call of a run: on the empty track
    with [playerZ = 0] the initial straight ends at 5000 and even the
    longest pattern, 100 segments, ends at 15000, short of the horizon
    at 20000. *)
Lemma generateRoad_horizon_counterexample :
  lastZ 0 (segments (generateRoad draws_long 0 emptyRoad)) == 15000
  /\ ~ (0 + VISIBLE_SEGMENTS * SEGMENT_LENGTH
        <= lastZ 0 (segments (generateRoad draws_long 0 emptyRoad))).
Proof.
  split.
  - vm_compute. reflexivity.
  - intro H. vm_compute in H. apply H. reflexivity.
Qed.

(** C4 (as the code has it). On a track whose stored segments are
    contiguous (every generated track is), after [generateRoad] every
    stored segment has [z >= playerZ - 2000] and every stored apex has
    [z > playerZ - 1000]; of the entries present before the cleanup,
    exactly those within these bounds are still stored. *)
Theorem generateRoad_pruning (d : Draws) (playerZ : Q) (r : Road) :
  contiguous (segments r) ->
  Forall (fun s => playerZ - 2000 <= seg_z s)
         (segments (generateRoad d playerZ r))
  /\ Forall (fun ap => playerZ - 1000 < apex_z ap)
            (apexPoints (generateRoad d playerZ r))
  /\ (forall s, In s (segments (extendRoad d playerZ r)) ->
        (In s (segments (generateRoad d playerZ r))
         <-> playerZ - 2000 <= seg_z s))
  /\ (forall ap, In ap (apexPoints (extendRoad d playerZ r)) ->
        (In ap (apexPoints (generateRoad d playerZ r))
         <-> playerZ - 1000 < apex_z ap)).
Proof.
  intro H. apply chained_contiguous in H.
  assert (HE : chained (segments (extendRoad d playerZ r))).
  { destruct (extendRoad_block d playerZ r) as (B & E & C).
    rewrite E. apply chained_append; assumption. }
  pose proof (cleanupBehind_bound playerZ _ HE) as F.
  unfold generateRoad, cleanup. cbn [segments apexPoints].
  split; [exact F|]. split; [|split].
  - apply Forall_forall. intros ap Hap. apply filter_In in Hap.
    destruct Hap as [_ Hap]. apply gtb_gt, Hap.
  - intros s Hs. split.
    + intro Hin. rewrite Forall_forall in F. exact (F s Hin).
    + apply cleanupBehind_keeps, Hs.
  - intros ap Hap. rewrite filter_In, gtb_gt. tauto.
Qed.

Lemma generateRoad_pruning_witness :
  contiguous (segments emptyRoad)
  /\ Forall (fun s => 2100 - 2000 <= seg_z s)
            (segments (generateRoad draws_long 2100 emptyRoad))
  /\ Forall (fun ap => 2100 - 1000 < apex_z ap)
            (apexPoints (generateRoad draws_long 2100 emptyRoad)).
Proof.
  assert (A : contiguous (segments emptyRoad))
    by (intros [|i] a b Ha; discriminate Ha).
  destruct (generateRoad_pruning draws_long 2100 emptyRoad A) as (F1 & F2 & _).
  split; [exact A | split; [exact F1 | exact F2]].
Defined.

(** C4 (as stated) fails at the boundary: the loop drops a segment only
    when its [z] is below [playerZ - 2000], so after [generateRoad] at
    [playerZ = 2100] on the empty track the first stored segment has
    [z = 100 = playerZ - 2000], which is not above the bound. *)
Lemma generateRoad_pruning_counterexample :
  ~ Forall (fun s => 2100 - 2000 < seg_z s)
           (segments (generateRoad draws_long 2100 emptyRoad)).
Proof.
  intro F.
  assert (E : exists t, segments (generateRoad draws_long 2100 emptyRoad)
                        = mkSeg (100 # 1) 0 None :: t).
  { eexists. vm_compute. reflexivity. }
  destruct E as [t E]. rewrite E in F.
  apply Forall_inv in F. vm_compute in F. discriminate F.
Qed.

(** ** Vehicle: what each step of the tick touches *)

Section Steps.

Variables (delta absX : Q).

Lemma boundary_player_frame s :
  let p' := player (boundary delta absX s) in
  x p' = x (player s) /\ lean p' = lean (player s)
  /\ targetLean p' = targetLean (player s)
  /\ distanceTraveled p' = distanceTraveled (player s)
  /\ score p' = score (player s) /\ crash p' = crash (player s)
  /\ offRoad p' = gtb absX OFF_ROAD_LIMIT.
Proof.
  unfold boundary. cbn [offRoad set_offRoad].
  destruct (gtb absX OFF_ROAD_LIMIT); cbn; repeat split; reflexivity.
Qed.

Lemma boundary_speed s :
  speed (player (boundary delta absX s))
  = if gtb absX OFF_ROAD_LIMIT
    then Qmax (speed (player s) - OFF_ROAD_FRICTION * delta) 2000
    else speed (player s).
Proof.
  unfold boundary. cbn [offRoad set_offRoad].
  destruct (gtb absX OFF_ROAD_LIMIT); reflexivity.
Qed.

Lemma boundary_sim_frame s :
  road (boundary delta absX s) = road s
  /\ gameState (boundary delta absX s) = gameState s
  /\ frameId (boundary delta absX s) = frameId s
  /\ texts (fx (boundary delta absX s)) = texts (fx s)
  /\ slowMoFactor (fx (boundary delta absX s)) = slowMoFactor (fx s).
Proof.
  unfold boundary. cbn [offRoad set_offRoad].
  destruct (gtb absX OFF_ROAD_LIMIT); cbn; repeat split; reflexivity.
Qed.

End Steps.

Lemma raised_refl a : raised a a.
Proof. repeat split; auto. Qed.

Lemma raised_trans a b c : raised a b -> raised b c -> raised a c.
Proof.
  intros (A1 & A2 & A3 & A4) (B1 & B2 & B3 & B4).
  repeat split; [congruence | congruence | auto | auto].
Qed.

Lemma Forall2_raised_refl l : Forall2 raised l l.
Proof. induction l; constructor; [apply raised_refl | assumption]. Qed.

Lemma Forall2_raised_trans l1 l2 l3 :
  Forall2 raised l1 l2 -> Forall2 raised l2 l3 -> Forall2 raised l1 l3.
Proof.
  intro H. revert l3. induction H as [|a b l1 l2 R _ IH]; intros l3 H3.
  - inversion H3. constructor.
  - inversion H3 as [|b' c l2' l3' R' H3' E1 E2]; subst.
    constructor; [eapply raised_trans; eassumption | apply IH, H3'].
Qed.

Lemma hitOnly_raised a a' : hitOnly a a' -> raised a a'.
Proof.
  intros (H1 & H2 & H3 & H4). repeat split; auto. rewrite H3. auto.
Qed.

Lemma Forall2_hitOnly_refl l : Forall2 hitOnly l l.
Proof. induction l; constructor; [repeat split; auto | assumption]. Qed.

Lemma markHit_hitOnly i l : Forall2 hitOnly l (markHit i l).
Proof.
  revert i. induction l as [|a t IH]; intro i; [simpl; constructor|].
  destruct i as [|j]; simpl.
  - constructor; [|apply Forall2_hitOnly_refl].
    repeat split; auto.
  - constructor; [repeat split; auto | apply IH].
Qed.

Lemma hitOnly_passedUnscored dist l l' :
  Forall2 hitOnly l l' ->
  length (filter (passedUnscored dist) l')
  = length (filter (passedUnscored dist) l).
Proof.
  induction 1 as [|a b l1 l2 (R1 & R2 & R3 & R4) _ IH]; [reflexivity|].
  assert (E : passedUnscored dist b = passedUnscored dist a)
    by (unfold passedUnscored; rewrite R1, R3; reflexivity).
  simpl. rewrite E. destruct (passedUnscored dist a); simpl; congruence.
Qed.

Lemma markHit_nth i l :
  (forall ap, nth_error l i = Some ap ->
     nth_error (markHit i l) i
     = Some (mkApex (apex_z ap) (direction ap) true (scored ap)))
  /\ (forall j, j <> i -> nth_error (markHit i l) j = nth_error l j).
Proof.
  revert i. induction l as [|a t IH]; intro i.
  - split; [destruct i; discriminate | reflexivity].
  - destruct i as [|i]; simpl.
    + split; [intros ap [= <-]; reflexivity|].
      intros [|j] Hj; [contradiction Hj; reflexivity | reflexivity].
    + destruct (IH i) as [H1 H2]. split; [exact H1|].
      intros [|j] Hj; [reflexivity|]. simpl. apply H2. congruence.
Qed.

Lemma scoreUpdate_score dist l sc :
  snd (scoreUpdate dist l sc)
  = (sc + Z.of_nat (length (filter (passedUnscored dist) l)))%Z.
Proof.
  revert sc. induction l as [|a t IH]; intro sc; simpl.
  - lia.
  - unfold passedUnscored at 1.
    destruct (negb (scored a) && gtb dist (apex_z a)).
    + specialize (IH (sc + 1)%Z).
      destruct (scoreUpdate dist t (sc + 1)%Z) as [t' sc']. simpl in *.
      rewrite IH. lia.
    + specialize (IH sc).
      destruct (scoreUpdate dist t sc) as [t' sc']. simpl in *. exact IH.
Qed.

Lemma scoreUpdate_flags dist l sc :
  Forall2 (fun a a' => apex_z a' = apex_z a /\ direction a' = direction a
                       /\ hit a' = hit a
                       /\ scored a' = (scored a || gtb dist (apex_z a)))
          l (fst (scoreUpdate dist l sc)).
Proof.
  revert sc. induction l as [|a t IH]; intro sc; simpl; [constructor|].
  destruct (negb (scored a) && gtb dist (apex_z a)) eqn:C.
  - specialize (IH (sc + 1)%Z).
    destruct (scoreUpdate dist t (sc + 1)%Z) as [t' sc']. simpl in *.
    constructor; [|exact IH]. cbn.
    apply andb_true_iff in C. destruct C as [C1 C2]. rewrite C2.
    rewrite orb_true_r. auto.
  - specialize (IH sc).
    destruct (scoreUpdate dist t sc) as [t' sc']. simpl in *.
    constructor; [|exact IH].
    repeat split; try reflexivity.
    destruct (scored a); [reflexivity|]. simpl in *. symmetry. exact C.
Qed.

Lemma scoreUpdate_raised dist l sc :
  Forall2 raised l (fst (scoreUpdate dist l sc)).
Proof.
  eapply Forall2_impl; [|apply scoreUpdate_flags].
  intros a a' (H1 & H2 & H3 & H4). repeat split; auto.
  - intro H. rewrite H3. exact H.
  - intro H. rewrite H4, H. reflexivity.
Qed.

Lemma scoring_eq s :
  scoring s
  = let su := scoreUpdate (distanceTraveled (player s))
                          (apexPoints (road s)) (score (player s)) in
    set_player (set_score (snd su) (player s))
               (set_road (set_apexPoints (fst su) (road s)) s).
Proof.
  unfold scoring. destruct (scoreUpdate _ _ _) as [aps sc]. reflexivity.
Qed.

Lemma apexDetection_outcome s : ApexOutcome s (apexDetection s).
Proof.
  unfold apexDetection.
  destruct (findRef _ _) as [i|] eqn:F; [|apply NoCandidate, F].
  destruct (eqb _ _ && gtb _ _) eqn:C.
  - apply (Hit s i F C).
  - apply (Missed s i F C).
Qed.

Lemma apexDetection_frame s :
  let s' := apexDetection s in
  x (player s') = x (player s) /\ lean (player s') = lean (player s)
  /\ targetLean (player s') = targetLean (player s)
  /\ distanceTraveled (player s') = distanceTraveled (player s)
  /\ score (player s') = score (player s)
  /\ offRoad (player s') = offRoad (player s)
  /\ crash (player s') = crash (player s)
  /\ gameState s' = gameState s /\ frameId s' = frameId s
  /\ segments (road s') = segments (road s)
  /\ slowMoFactor (fx s') = slowMoFactor (fx s)
  /\ Forall2 hitOnly (apexPoints (road s)) (apexPoints (road s')).
Proof.
  cbv zeta. destruct (apexDetection_outcome s); cbn;
    repeat split; try reflexivity;
    first [apply Forall2_hitOnly_refl | apply markHit_hitOnly].
Qed.

Lemma apexDetection_speed s :
  speed (player (apexDetection s)) = speed (player s)
  \/ speed (player (apexDetection s)) = Qmin (speed (player s) + 300) MAX_SPEED.
Proof.
  destruct (apexDetection_outcome s); cbn; auto.
Qed.

(** *** The [PLAYING] branch, field by field *)

Section Drive.

Variables (delta dx curveIntensity : Q) (s : Sim).

Let lean' : Q :=
  lerp (lean (player s)) (targetLean (player s)) (LEAN_SMOOTHING * delta).

Let x' : Q := lateral delta dx curveIntensity (set_lean lean' (player s)).

Lemma drive_eq :
  drive delta dx curveIntensity s
  = let s5 := scoring (apexDetection (beforeApex delta dx curveIntensity s)) in
    if gtb (Qabs x') COLLISION_THRESHOLD then handleCrash s5 else s5.
Proof. reflexivity. Qed.

Lemma beforeApex_frame :
  x (player (beforeApex delta dx curveIntensity s)) = x'
  /\ lean (player (beforeApex delta dx curveIntensity s)) = lean'
  /\ targetLean (player (beforeApex delta dx curveIntensity s)) = targetLean (player s)
  /\ distanceTraveled (player (beforeApex delta dx curveIntensity s)) = distanceTraveled (player s)
  /\ score (player (beforeApex delta dx curveIntensity s)) = score (player s)
  /\ offRoad (player (beforeApex delta dx curveIntensity s)) = gtb (Qabs x') OFF_ROAD_LIMIT
  /\ speed (player (beforeApex delta dx curveIntensity s))
     = (if gtb (Qabs x') OFF_ROAD_LIMIT
        then Qmax (speed (player s) - OFF_ROAD_FRICTION * delta) 2000
        else speed (player s))
  /\ road (beforeApex delta dx curveIntensity s) = road s
  /\ gameState (beforeApex delta dx curveIntensity s) = gameState s
  /\ slowMoFactor (fx (beforeApex delta dx curveIntensity s)) = slowMoFactor (fx s)
  /\ texts (fx (beforeApex delta dx curveIntensity s)) = texts (fx s).
Proof.
  unfold beforeApex. cbv zeta.
  set (s0 := set_player (set_x x' (set_lean lean' (player s))) s).
  destruct (boundary_player_frame delta (Qabs x') s0)
    as (B1 & B2 & B3 & B4 & B5 & B6 & B7).
  pose proof (boundary_speed delta (Qabs x') s0) as B8.
  destruct (boundary_sim_frame delta (Qabs x') s0) as (B9 & B10 & B11 & B12 & B13).
  cbn. repeat split; assumption.
Qed.

Lemma drive_frame :
  let s' := drive delta dx curveIntensity s in
  x (player s') = x'
  /\ lean (player s') = lean'
  /\ distanceTraveled (player s') = distanceTraveled (player s)
  /\ offRoad (player s') = gtb (Qabs x') OFF_ROAD_LIMIT
  /\ segments (road s') = segments (road s)
  /\ gameState s'
     = (if gtb (Qabs x') COLLISION_THRESHOLD then GAME_OVER else gameState s)
  /\ speed (player s') = speed (player (apexDetection (beforeApex delta dx curveIntensity s)))
  /\ score (player s')
     = (score (player s)
        + Z.of_nat (length (filter (passedUnscored (distanceTraveled (player s)))
                                   (apexPoints (road s)))))%Z.
Proof.
  cbv zeta. rewrite drive_eq. cbv zeta.
  destruct beforeApex_frame
    as (F1 & F2 & F3 & F4 & F5 & F6 & F7 & F8 & F9 & F10 & F11).
  destruct (apexDetection_frame (beforeApex delta dx curveIntensity s))
    as (A1 & A2 & A3 & A4 & A5 & A6 & A7 & A8 & A9 & A10 & A11 & A12).
  rewrite scoring_eq. cbv zeta.
  assert (SC : snd (scoreUpdate (distanceTraveled (player (apexDetection (beforeApex delta dx curveIntensity s))))
                      (apexPoints (road (apexDetection (beforeApex delta dx curveIntensity s))))
                      (score (player (apexDetection (beforeApex delta dx curveIntensity s)))))
               = (score (player s)
                  + Z.of_nat (length (filter (passedUnscored (distanceTraveled (player s)))
                                             (apexPoints (road s)))))%Z).
  { rewrite scoreUpdate_score, A4, A5, F4, F5. f_equal. f_equal.
    rewrite <- F8. apply hitOnly_passedUnscored, A12. }
  destruct (gtb (Qabs x') COLLISION_THRESHOLD); cbn;
    rewrite ?SC, ?A1, ?A2, ?A4, ?A6, ?A8, ?A10, ?F1, ?F2, ?F4, ?F6, ?F8, ?F9;
    repeat split; reflexivity.
Qed.

End Drive.

(** *** A [PLAYING] tick as a whole *)

Lemma update_playing dt inp d s :
  gameState s = PLAYING ->
  let s1 := driven dt inp s in
  let dist' := distanceTraveled (player s1)
               + speed (player s1) * scaledDelta dt s in
  update dt inp d s
  = mkSim (set_distanceTraveled dist' (player s1))
          (generateRoad d dist' (road s1))
          (effects dt (speed (player (entering dt inp s)) / MAX_SPEED) (fx s1))
          (S (frameId s1)) (gameState s1).
Proof.
  intro H. unfold update, driven, entering, scaledDelta. rewrite H. reflexivity.
Qed.

Lemma update_playing_frame dt inp d s :
  gameState s = PLAYING ->
  let s' := update dt inp d s in
  let delta := scaledDelta dt s in
  let x' := lateralOffsetAfter dt inp s in
  let v1 := Qmin (speed (player s) + ACCELERATION * delta) MAX_SPEED in
  let base := if gtb (Qabs x') OFF_ROAD_LIMIT
              then Qmax (v1 - OFF_ROAD_FRICTION * delta) 2000 else v1 in
  x (player s') = x'
  /\ lean (player s')
     = lerp (lean (player s)) (controls inp) (LEAN_SMOOTHING * delta)
  /\ offRoad (player s') = gtb (Qabs x') OFF_ROAD_LIMIT
  /\ gameState s'
     = (if gtb (Qabs x') COLLISION_THRESHOLD then GAME_OVER else PLAYING)
  /\ (speed (player s') = base
      \/ speed (player s') = Qmin (base + 300) MAX_SPEED)
  /\ distanceTraveled (player s')
     = distanceTraveled (player s) + speed (player s') * delta
  /\ score (player s')
     = (score (player s)
        + Z.of_nat (length (filter (passedUnscored (distanceTraveled (player s)))
                                   (apexPoints (road s)))))%Z.
Proof.
  intro H. cbv zeta. rewrite (update_playing dt inp d s H). cbv zeta.
  cbn [player gameState set_distanceTraveled x lean offRoad speed
       distanceTraveled score].
  unfold driven.
  set (s0 := entering dt inp s).
  set (ci := curveIntensityAt _ _).
  set (dx := scaledDelta dt s * 2 * _).
  destruct (drive_frame (scaledDelta dt s) dx ci s0)
    as (D1 & D2 & D3 & D4 & D5 & D6 & D7 & D8).
  destruct (beforeApex_frame (scaledDelta dt s) dx ci s0)
    as (F1 & F2 & F3 & F4 & F5 & F6 & F7 & F8 & F9 & F10 & F11).
  assert (E : lateralOffsetAfter dt inp s
              = lateral (scaledDelta dt s) dx ci
                  (set_lean (lerp (lean (player s0)) (targetLean (player s0))
                                  (LEAN_SMOOTHING * scaledDelta dt s))
                            (player s0))) by reflexivity.
  rewrite E.
  assert (V : speed (player s0)
              = Qmin (speed (player s) + ACCELERATION * scaledDelta dt s) MAX_SPEED).
  { unfold s0, entering, accelerate. rewrite H. reflexivity. }
  assert (G : gameState s0 = PLAYING) by exact H.
  rewrite D1, D2, D3, D4, D6, D7, D8, G.
  split; [reflexivity|]. split; [reflexivity|]. split; [reflexivity|].
  split; [reflexivity|]. split; [|split; reflexivity].
  destruct (apexDetection_speed (beforeApex (scaledDelta dt s) dx ci s0))
    as [A | A]; rewrite A, F7, V; auto.
Qed.

Lemma drive_crash delta dx ci s :
  gtb (Qabs (x (player (drive delta dx ci s)))) COLLISION_THRESHOLD = true ->
  active (crash (player (drive delta dx ci s))) = true.
Proof.
  destruct (drive_frame delta dx ci s) as (D1 & _).
  rewrite D1. rewrite drive_eq. cbv zeta. intro C. rewrite C. reflexivity.
Qed.

Lemma update_playing_crash dt inp d s :
  gameState s = PLAYING ->
  gtb (Qabs (x (player (update dt inp d s)))) COLLISION_THRESHOLD = true ->
  active (crash (player (update dt inp d s))) = true.
Proof.
  intro H. rewrite (update_playing dt inp d s H). cbv zeta.
  cbn [player set_distanceTraveled x crash]. apply drive_crash.
Qed.

(** *** The embedding on the first frame of a run *)

(** Steering right for 1/60 s from the start state: [lean] goes a fifth
    of the way to 1, the speed gains [2500 / 60], the offset moves by
    [lean * dx * 5] with [dx = delta * 2 * speed / MAX_SPEED], the distance
    by [speed * delta], and the track gets its initial straight and the
    drawn pattern. *)
Example first_frame :
  let s' := update (1 # 60) steerRight draws_long startSim in
  lean (player s') == 1 # 5
  /\ speed (player s') == 1500 + 2500 * (1 # 60)
  /\ x (player s')
     == (1 # 5) * ((1 # 60) * 2 * ((1500 + 2500 * (1 # 60)) / 9500)) * 5
  /\ distanceTraveled (player s') == (1500 + 2500 * (1 # 60)) * (1 # 60)
  /\ offRoad (player s') = false /\ score (player s') = 0%Z
  /\ gameState s' = PLAYING /\ frameId s' = 1%nat
  /\ length (segments (road s')) = 150%nat
  /\ length (trail (player s')) = 1%nat.
Proof.
  cbv zeta. repeat split; vm_compute; reflexivity.
Qed.

(** ** Vehicle: collision *)




(** ** Vehicle: lean *)

Lemma lerp_step a b t : lerp a b t == a + (b - a) * t.
Proof. unfold lerp. ring. Qed.

Lemma lerp_between a b t :
  0 <= t -> t <= 1 -> Qmin a b <= lerp a b t /\ lerp a b t <= Qmax a b.
Proof.
  intros H0 H1. rewrite lerp_step.
  destruct (Q.min_spec a b) as [[C ->] | [C ->]];
    destruct (Q.max_spec a b) as [[C' ->] | [C' ->]]; split; nra.
Qed.

(** C8 (as the code has it). On a [PLAYING] tick the target is 1, -1 or
    0 and [lean] becomes [lerp (lean, targetLean, LEAN_SMOOTHING * delta)],
    that is [lean * (1 - t) + targetLean * t] with
    [t = LEAN_SMOOTHING * delta], where [delta] is the scaled time step.
    Nothing clamps [t]: a lean within [-1, 1] is shown to stay within
    [-1, 1] only for [0 <= t <= 1]; for such a [t] it does so as well
    when every operation of [lerp] is rounded to binary64. *)
Theorem lean_update (dt : Q) (inp : Inputs) (d : Draws) (s : Sim) :
  gameState s = PLAYING ->
  let delta := scaledDelta dt s in
  let l := lean (player s) in
  let l' := lean (player (update dt inp d s)) in
  (controls inp = 1 \/ controls inp = 0 \/ controls inp = -1)
  /\ l' = lerp l (controls inp) (LEAN_SMOOTHING * delta)
  /\ (0 <= LEAN_SMOOTHING * delta -> LEAN_SMOOTHING * delta <= 1 ->
      -1 <= l -> l <= 1 -> -1 <= l' /\ l' <= 1)
  /\ (forall t, b64 t == t -> 0 <= t -> t <= 1 -> -1 <= l -> l <= 1 ->
      -1 <= lerp64 l (controls inp) t /\ lerp64 l (controls inp) t <= 1).
Proof.
  intros H delta l l'.
  destruct (update_playing_frame dt inp d s H) as (_ & L & _).
  fold l' l delta in L.
  assert (T : controls inp = 1 \/ controls inp = 0 \/ controls inp = -1).
  { unfold controls. destruct (inp_right inp); [auto|].
    destruct (inp_left inp); auto. }
  assert (T' : -1 <= controls inp /\ controls inp <= 1).
  { destruct T as [-> | [-> | ->]]; split; lra. }
  destruct T' as [T0 T1].
  split; [exact T|]. split; [exact L|]. split.
  - intros H0 H1 L0 L1. rewrite L.
    destruct (lerp_between l (controls inp) _ H0 H1) as [A B].
    destruct (Q.min_spec l (controls inp)) as [[_ E] | [_ E]];
      destruct (Q.max_spec l (controls inp)) as [[_ E'] | [_ E']];
      rewrite E in A; rewrite E' in B; split; lra.
  - intros t R H0 H1 L0 L1. apply lerp64_unit_range; assumption.
Qed.

Lemma lean_update_witness :
  gameState startSim = PLAYING
  /\ 0 <= LEAN_SMOOTHING * scaledDelta (1 # 60) startSim
  /\ LEAN_SMOOTHING * scaledDelta (1 # 60) startSim <= 1
  /\ -1 <= lean (player startSim) /\ lean (player startSim) <= 1
  /\ -1 <= lean (player (update (1 # 60) steerRight draws_long startSim))
  /\ lean (player (update (1 # 60) steerRight draws_long startSim)) <= 1
  /\ b64 (1 # 4) == 1 # 4 /\ 0 <= 1 # 4 /\ 1 # 4 <= 1
  /\ -1 <= lerp64 (lean (player startSim)) (controls steerRight) (1 # 4)
  /\ lerp64 (lean (player startSim)) (controls steerRight) (1 # 4) <= 1.
Proof.
  destruct (lean_update (1 # 60) steerRight draws_long startSim eq_refl)
    as (_ & _ & H & H64).
  assert (A : 0 <= LEAN_SMOOTHING * scaledDelta (1 # 60) startSim)
    by (vm_compute; discriminate).
  assert (B : LEAN_SMOOTHING * scaledDelta (1 # 60) startSim <= 1)
    by (vm_compute; discriminate).
  assert (L0 : -1 <= lean (player startSim)) by (vm_compute; discriminate).
  assert (L1 : lean (player startSim) <= 1) by (vm_compute; discriminate).
  assert (R : b64 (1 # 4) == 1 # 4) by (vm_compute; reflexivity).
  assert (T0 : 0 <= 1 # 4) by (vm_compute; discriminate).
  assert (T1 : 1 # 4 <= 1) by (vm_compute; discriminate).
  destruct (H A B L0 L1) as [K0 K1].
  destruct (H64 (1 # 4) R T0 T1 L0 L1) as [M0 M1].
  split; [reflexivity|]. split; [exact A|]. split; [exact B|].
  split; [exact L0|]. split; [exact L1|]. split; [exact K0|].
  split; [exact K1|]. split; [exact R|]. split; [exact T0|].
  split; [exact T1|]. split; [exact M0 | exact M1].
Defined.

(** C8 (as stated) fails at the largest clamped step: from the start of a
    run, steering right for a tick of 0.1 s gives
    [lean = 0 * (1 - 1.2) + 1 * 1.2 = 1.2], past the target and outside
    [-1, 1]. *)
Lemma lean_overshoot_counterexample :
  lean (player startSim) == 0
  /\ targetLean (player (update (1 # 10) steerRight draws_long startSim)) == 1
  /\ lean (player (update (1 # 10) steerRight draws_long startSim)) == 12 # 10
  /\ ~ (lean (player (update (1 # 10) steerRight draws_long startSim)) <= 1).
Proof.
  repeat split; try (vm_compute; reflexivity).
  intro H. vm_compute in H. apply H. reflexivity.
Qed.

(** ** Vehicle: speed *)

Lemma findRef_none f l :
  Forall (fun ap => f ap = false) l -> findRef f l = None.
Proof.
  induction 1 as [|a t Ha _ IH]; simpl; [reflexivity|].
  rewrite Ha, IH. reflexivity.
Qed.

Lemma update_playing_speed_nocandidate dt inp d s :
  gameState s = PLAYING ->
  findRef (apexCandidate (distanceTraveled (player s))) (apexPoints (road s))
  = None ->
  let delta := scaledDelta dt s in
  let v1 := Qmin (speed (player s) + ACCELERATION * delta) MAX_SPEED in
  speed (player (update dt inp d s))
  = if offRoad (player (update dt inp d s))
    then Qmax (v1 - OFF_ROAD_FRICTION * delta) 2000 else v1.
Proof.
  intros H N. cbv zeta.
  destruct (update_playing_frame dt inp d s H) as (_ & _ & O & _).
  rewrite O. clear O.
  rewrite (update_playing dt inp d s H). cbv zeta.
  cbn [player set_distanceTraveled speed]. unfold driven.
  set (s0 := entering dt inp s).
  set (ci := curveIntensityAt _ _).
  set (dx := scaledDelta dt s * 2 * _).
  destruct (drive_frame (scaledDelta dt s) dx ci s0)
    as (_ & _ & _ & _ & _ & _ & D7 & _).
  destruct (beforeApex_frame (scaledDelta dt s) dx ci s0)
    as (_ & _ & _ & F4 & _ & _ & F7 & F8 & _).
  rewrite D7.
  assert (V : speed (player s0)
              = Qmin (speed (player s) + ACCELERATION * scaledDelta dt s) MAX_SPEED).
  { unfold s0, entering, accelerate. rewrite H. reflexivity. }
  assert (N' : findRef (apexCandidate
                 (distanceTraveled (player (beforeApex (scaledDelta dt s) dx ci s0))))
                 (apexPoints (road (beforeApex (scaledDelta dt s) dx ci s0)))
               = None) by (rewrite F4, F8; exact N).
  unfold apexDetection. rewrite N'. rewrite F7, V. reflexivity.
Qed.

(** C9 (as the code has it). A [PLAYING] tick first accelerates,
    [v1 = min(speed + ACCELERATION * delta, MAX_SPEED)], on and off the
    road alike; when the offset reached in the tick is off-road, the
    friction is taken from [v1], with the floor:
    [max(v1 - OFF_ROAD_FRICTION * delta, 2000)].  The tick ends at that
    speed, or 300 above it (capped) when an apex is hit; with no un-hit
    apex in the window, at that speed.  From a speed of at most 2000 an
    off-road tick with [delta >= 0] gives 2000, which for [speed = 100]
    is also [max(100 - OFF_ROAD_FRICTION * delta, 2000)]. *)
Theorem speed_update (dt : Q) (inp : Inputs) (d : Draws) (s : Sim) :
  gameState s = PLAYING ->
  let s' := update dt inp d s in
  let delta := scaledDelta dt s in
  let v1 := Qmin (speed (player s) + ACCELERATION * delta) MAX_SPEED in
  let base := if offRoad (player s')
              then Qmax (v1 - OFF_ROAD_FRICTION * delta) 2000 else v1 in
  offRoad (player s') = gtb (Qabs (x (player s'))) OFF_ROAD_LIMIT
  /\ (speed (player s') = base
      \/ speed (player s') = Qmin (base + 300) MAX_SPEED)
  /\ (Forall (fun ap => apexCandidate (distanceTraveled (player s)) ap = false)
             (apexPoints (road s)) ->
      speed (player s') = base)
  /\ (offRoad (player s') = true -> 0 <= delta ->
      speed (player s) <= 2000 -> base == 2000)
  /\ (offRoad (player s') = true -> 0 <= delta ->
      speed (player s) == 100 ->
      base == Qmax (100 - OFF_ROAD_FRICTION * delta) 2000).
Proof.
  intros H s' delta v1 base.
  destruct (update_playing_frame dt inp d s H) as (X & _ & O & _ & V & _).
  fold s' delta in X, O, V. fold v1 in V.
  rewrite <- X in O, V. rewrite <- O in V. fold base in V.
  split; [exact O|]. split; [exact V|]. split.
  - intro F. apply findRef_none in F.
    apply (update_playing_speed_nocandidate dt inp d s H F).
  - assert (K : offRoad (player s') = true -> 0 <= delta ->
                speed (player s) <= 2000 -> base == 2000).
    { intros OR D0 S0. unfold base. rewrite OR.
      assert (A : v1 <= speed (player s) + ACCELERATION * delta)
        by apply Q.le_min_l.
      destruct (Q.max_spec (v1 - OFF_ROAD_FRICTION * delta) 2000)
        as [[_ E] | [C E]]; [exact E|].
      rewrite E. unfold ACCELERATION, OFF_ROAD_FRICTION in *. lra. }
    split; [exact K|].
    intros OR D0 S0. rewrite (K OR D0); [|rewrite S0; lra].
    destruct (Q.max_spec (100 - OFF_ROAD_FRICTION * delta) 2000)
      as [[_ E] | [C E]]; [symmetry; exact E|].
    rewrite E. unfold OFF_ROAD_FRICTION in *. lra.
Qed.

Lemma speed_update_witness :
  gameState (offRoadAt 100) = PLAYING
  /\ offRoad (player (update (1 # 10) noInput draws_long (offRoadAt 100))) = true
  /\ 0 <= scaledDelta (1 # 10) (offRoadAt 100)
  /\ speed (player (offRoadAt 100)) == 100
  /\ speed (player (update (1 # 10) noInput draws_long (offRoadAt 100)))
     == 2000.
Proof.
  destruct (speed_update (1 # 10) noInput draws_long (offRoadAt 100) eq_refl)
    as (_ & _ & F & K & _).
  assert (O : offRoad (player (update (1 # 10) noInput draws_long (offRoadAt 100)))
              = true) by (vm_compute; reflexivity).
  assert (D : 0 <= scaledDelta (1 # 10) (offRoadAt 100))
    by (vm_compute; discriminate).
  assert (S0 : speed (player (offRoadAt 100)) <= 2000)
    by (vm_compute; discriminate).
  assert (A : Forall (fun ap => apexCandidate
                        (distanceTraveled (player (offRoadAt 100))) ap = false)
                     (apexPoints (road (offRoadAt 100))))
    by (vm_compute; repeat constructor).
  split; [reflexivity | split; [exact O | split; [exact D | split]]].
  - vm_compute. reflexivity.
  - rewrite (F A). exact (K O D S0).
Defined.

(** C9 (as stated) fails for an off-road tick: from speed 5000 with
    [delta = 0.1] the tick ends at [min(5000 + 250, 9500) - 600 = 4650],
    not at [max(5000 - 600, 2000) = 4400]: the acceleration is applied
    off the road too. *)
Lemma speed_offroad_counterexample :
  offRoad (player (update (1 # 10) noInput draws_long (offRoadAt 5000))) = true
  /\ speed (player (update (1 # 10) noInput draws_long (offRoadAt 5000)))
     == 4650
  /\ Qmax (speed (player (offRoadAt 5000))
           - OFF_ROAD_FRICTION * scaledDelta (1 # 10) (offRoadAt 5000)) 2000
     == 4400.
Proof.
  repeat split; vm_compute; reflexivity.
Qed.

(** ** Vehicle: the speed range of a run *)

Lemma update_gameState_other dt inp d s :
  gameState s <> PLAYING -> gameState (update dt inp d s) = gameState s.
Proof.
  intro H. unfold update.
  destruct (gameState s) eqn:G; [|contradiction H; reflexivity|]; cbn.
  - exact G.
  - destruct (active (crash (player s))); exact G.
Qed.

Lemma update_playing_before dt inp d s :
  gameState (update dt inp d s) = PLAYING -> gameState s = PLAYING.
Proof.
  intro H. destruct (gameState s) eqn:G; [|reflexivity|];
    rewrite update_gameState_other in H by (rewrite G; discriminate);
    rewrite G in H; discriminate H.
Qed.

Lemma drive_slowMo delta dx ci s :
  gtb (Qabs (x (player (drive delta dx ci s)))) COLLISION_THRESHOLD = false ->
  slowMoFactor (fx (drive delta dx ci s)) = slowMoFactor (fx s).
Proof.
  destruct (drive_frame delta dx ci s) as (D1 & _).
  rewrite D1. rewrite drive_eq. cbv zeta. intro C. rewrite C.
  rewrite scoring_eq. cbv zeta. cbn [fx set_player set_road].
  destruct (apexDetection_frame (beforeApex delta dx ci s))
    as (_ & _ & _ & _ & _ & _ & _ & _ & _ & _ & A11 & _).
  destruct (beforeApex_frame delta dx ci s)
    as (_ & _ & _ & _ & _ & _ & _ & _ & _ & F10 & _).
  rewrite A11, F10. reflexivity.
Qed.

Lemma update_playing_slowMo dt inp d s :
  gameState s = PLAYING ->
  gameState (update dt inp d s) = PLAYING ->
  slowMoFactor (fx (update dt inp d s))
  = lerp (slowMoFactor (fx s)) 1 (1 * dt).
Proof.
  intros H H'.
  destruct (update_playing_frame dt inp d s H) as (X & _ & _ & G & _).
  rewrite H' in G. rewrite <- X in G.
  destruct (gtb (Qabs (x (player (update dt inp d s)))) COLLISION_THRESHOLD) eqn:C;
    [discriminate G|].
  revert C. rewrite (update_playing dt inp d s H). cbv zeta.
  cbn [player set_distanceTraveled x fx effects slowMoFactor set_shake
       set_slowMoFactor set_chromaticAberration set_zoom set_texts].
  intro C. unfold driven in *. rewrite (drive_slowMo _ _ _ _ C). reflexivity.
Qed.

Lemma playing_speed_range dt inp d s :
  gameState s = PLAYING -> 0 <= scaledDelta dt s ->
  BASE_SPEED <= speed (player s) -> speed (player s) <= MAX_SPEED ->
  BASE_SPEED <= speed (player (update dt inp d s))
  /\ speed (player (update dt inp d s)) <= MAX_SPEED.
Proof.
  intros H D0 S0 S1.
  destruct (update_playing_frame dt inp d s H) as (_ & _ & _ & _ & V & _).
  set (delta := scaledDelta dt s) in *.
  set (v1 := Qmin (speed (player s) + ACCELERATION * delta) MAX_SPEED) in *.
  assert (A0 : BASE_SPEED <= v1).
  { apply Q.min_glb; unfold BASE_SPEED, ACCELERATION, MAX_SPEED in *; lra. }
  assert (A1 : v1 <= MAX_SPEED) by apply Q.le_min_r.
  set (base := if gtb _ _ then _ else v1) in *.
  assert (B : BASE_SPEED <= base /\ base <= MAX_SPEED).
  { unfold base. destruct (gtb _ _); [|split; assumption]. split.
    - eapply Qle_trans; [|apply Q.le_max_r]. unfold BASE_SPEED. lra.
    - apply Q.max_lub;
        unfold BASE_SPEED, OFF_ROAD_FRICTION, MAX_SPEED in *; lra. }
  destruct B as [B0 B1].
  destruct V as [-> | ->]; [split; assumption|]. split.
  - apply Q.min_glb; unfold BASE_SPEED, MAX_SPEED in *; lra.
  - apply Q.le_min_r.
Qed.

Lemma drivingRange_update dt inp d s :
  0 <= dt -> drivingRange s -> drivingRange (update dt inp d s).
Proof.
  intros D0 I H'.
  pose proof (update_playing_before dt inp d s H') as H.
  destruct (I H) as (S0 & S1 & M).
  assert (D : 0 <= scaledDelta dt s).
  { unfold scaledDelta. rewrite M. lra. }
  destruct (playing_speed_range dt inp d s H D S0 S1) as [R0 R1].
  split; [exact R0|]. split; [exact R1|].
  rewrite (update_playing_slowMo dt inp d s H H').
  unfold lerp. rewrite M. ring.
Qed.

Lemma drivingRange_run frames s :
  Forall (fun fr => 0 <= frame_dt fr) frames ->
  drivingRange s -> drivingRange (run frames s).
Proof.
  intro F. revert s. induction F as [|fr frames D0 _ IH]; intros s I; [exact I|].
  simpl. apply IH. unfold tick. apply drivingRange_update; assumption.
Qed.

Lemma drivingRange_start : drivingRange startSim.
Proof.
  intros _. cbn. unfold BASE_SPEED, MAX_SPEED. repeat split; lra.
Qed.

(** C10. Along a run from the start state with non-negative time steps,
    as long as the state is [PLAYING] the speed is within
    [BASE_SPEED, MAX_SPEED], hence positive; one more tick with a
    non-negative time step, crashing or not, leaves it in that range, and
    with a positive time step the scaled step is positive and
    [distanceTraveled] moves strictly forward. *)
Theorem driving_speed_range (frames : list Frame) :
  Forall (fun fr => 0 <= frame_dt fr) frames ->
  let s := run frames startSim in
  gameState s = PLAYING ->
  BASE_SPEED <= speed (player s) /\ speed (player s) <= MAX_SPEED
  /\ 0 < speed (player s)
  /\ (forall dt inp d, 0 <= dt ->
        BASE_SPEED <= speed (player (update dt inp d s))
        /\ speed (player (update dt inp d s)) <= MAX_SPEED)
  /\ (forall dt inp d, 0 < dt ->
        0 < scaledDelta dt s
        /\ distanceTraveled (player s)
           < distanceTraveled (player (update dt inp d s))).
Proof.
  intros F s H.
  destruct (drivingRange_run frames startSim F drivingRange_start H)
    as (S0 & S1 & M).
  fold s in S0, S1, M.
  split; [exact S0|]. split; [exact S1|]. split; [|split].
  - unfold BASE_SPEED in S0. lra.
  - intros dt inp d Hdt.
    apply (playing_speed_range dt inp d s H); [|exact S0 | exact S1].
    unfold scaledDelta. rewrite M. lra.
  - intros dt inp d Hdt.
    assert (D : 0 < scaledDelta dt s) by (unfold scaledDelta; rewrite M; lra).
    split; [exact D|].
    destruct (playing_speed_range dt inp d s H (Qlt_le_weak _ _ D) S0 S1)
      as [R0 _].
    destruct (update_playing_frame dt inp d s H)
      as (_ & _ & _ & _ & _ & DT & _).
    rewrite DT. unfold BASE_SPEED in R0.
    set (v := speed (player (update dt inp d s))) in *.
    set (e := scaledDelta dt s) in *.
    nra.
Qed.

Lemma driving_speed_range_witness :
  Forall (fun fr => 0 <= frame_dt fr) [frame60 noInput; frame60 steerRight]
  /\ gameState (run [frame60 noInput; frame60 steerRight] startSim) = PLAYING
  /\ BASE_SPEED <= speed (player (run [frame60 noInput; frame60 steerRight] startSim))
  /\ speed (player (run [frame60 noInput; frame60 steerRight] startSim)) <= MAX_SPEED.
Proof.
  assert (F : Forall (fun fr => 0 <= frame_dt fr)
                     [frame60 noInput; frame60 steerRight])
    by (repeat constructor; vm_compute; discriminate).
  assert (G : gameState (run [frame60 noInput; frame60 steerRight] startSim)
              = PLAYING) by (vm_compute; reflexivity).
  destruct (driving_speed_range _ F G) as (S0 & S1 & _).
  split; [exact F | split; [exact G | split; [exact S0 | exact S1]]].
Defined.

(** ** Apex points: what the track generator creates *)

Lemma sign_cases a :
  (a < 0 /\ sign a = -1) \/ (a == 0 /\ sign a = 0) \/ (0 < a /\ sign a = 1).
Proof.
  unfold sign. destruct (a ?= 0) eqn:C.
  - right; left. split; [apply Qeq_alt, C | reflexivity].
  - left. split; [apply Qlt_alt, C | reflexivity].
  - right; right. split; [apply Qgt_alt, C | reflexivity].
Qed.

Lemma sign_sharp curve :
  gtb (Qabs curve) 2 = true -> sign curve = 1 \/ sign curve = -1.
Proof.
  intro H. apply gtb_gt in H.
  destruct (sign_cases curve) as [[_ ->] | [[E _] | [_ ->]]]; auto.
  rewrite E in H. vm_compute in H. discriminate H.
Qed.

Lemma StronglySorted_snoc (R : Q -> Q -> Prop) l b :
  StronglySorted R l -> Forall (fun a => R a b) l -> StronglySorted R (l ++ [b]).
Proof.
  induction 1 as [|a l S IH F]; intro Fb; simpl.
  - repeat constructor.
  - inversion Fb as [|? ? Ra Fb']; subst. constructor; [apply IH, Fb'|].
    apply Forall_app. split; [exact F | repeat constructor; exact Ra].
Qed.

Lemma StronglySorted_map_filter (R : Q -> Q -> Prop) f (l : list ApexPoint) :
  StronglySorted R (map apex_z l) -> StronglySorted R (map apex_z (filter f l)).
Proof.
  induction l as [|a t IH]; simpl; intro S; [constructor|].
  apply StronglySorted_inv in S. destruct S as [S F].
  destruct (f a); [|apply IH, S]. simpl. constructor; [apply IH, S|].
  rewrite Forall_forall in *. intros z Hz. apply F.
  apply in_map_iff in Hz. destruct Hz as (b & <- & Hb).
  apply filter_In in Hb. apply in_map, Hb.
Qed.

Lemma addTrackSegment_apexPoints enter hold exit curve r :
  exists new,
    apexPoints (addTrackSegment enter hold exit curve r) = apexPoints r ++ new
    /\ Forall fresh new.
Proof.
  unfold addTrackSegment. cbn [apexPoints].
  destruct (gtb (Qabs curve) 2).
  - eexists. split; [reflexivity|]. repeat constructor.
  - exists []. rewrite app_nil_r. split; [reflexivity | constructor].
Qed.

Lemma addTrackSegment_inv (e x : nat) (hold curve : Q) (r : Road) :
  x = O \/ hold == num (iters hold) ->
  (gtb (Qabs curve) 2 = true ->
   hold == num (iters hold)
   /\ 20 <= num e + hold / 2 /\ 20 <= hold / 2 + num x) ->
  road_inv r -> road_inv (addTrackSegment (num e) hold (num x) curve r).
Proof.
  intros Hx Hc [I1 I2 I3 I4].
  destruct (addTrackSegment_block e x hold curve r Hx) as (B & E & C & L).
  pose proof (lastZ_append _ _ C) as LZ. rewrite <- E, L in LZ.
  set (r' := addTrackSegment (num e) hold (num x) curve r) in *.
  assert (G : lastZ 0 (segments r) <= lastZ 0 (segments r')).
  { rewrite LZ. pose proof (num_nonneg (e + iters hold + x)).
    unfold SEGMENT_LENGTH. nra. }
  assert (I1' : chained (segments r'))
    by (rewrite E; apply chained_append; assumption).
  assert (I3o : Forall (fun ap => apex_z ap + 2000 <= lastZ 0 (segments r'))
                       (apexPoints r)).
  { eapply Forall_impl; [|exact I3]. cbv beta. intros ap Hap. lra. }
  unfold r', addTrackSegment in *. cbn [segments apexPoints] in *.
  destruct (gtb (Qabs curve) 2) eqn:Sharp.
  - destruct (Hc eq_refl) as (Hh & He & Hxx).
    assert (N : num (e + iters hold + x) == num e + hold + num x).
    { unfold num. rewrite !Nat2Z.inj_add, !inject_Z_plus.
      fold (num e) (num (iters hold)) (num x). rewrite <- Hh. reflexivity. }
    constructor; cbn [segments apexPoints].
    + exact I1'.
    + rewrite map_app. apply StronglySorted_snoc; [exact I2|].
      apply Forall_forall. intros z Hz. apply in_map_iff in Hz.
      destruct Hz as (ap & <- & Hap). rewrite Forall_forall in I3.
      specialize (I3 ap Hap). unfold apexGap. cbn [apex_z map].
      unfold SEGMENT_LENGTH, Qdiv in *. change (/ 2) with (1 # 2) in *. lra.
    + apply Forall_app. split; [exact I3o|]. constructor; [|constructor].
      cbn [apex_z]. rewrite LZ, N.
      unfold SEGMENT_LENGTH, Qdiv in *. change (/ 2) with (1 # 2) in *. lra.
    + apply Forall_app. split; [exact I4|]. constructor; [|constructor].
      cbn [direction]. apply sign_sharp, Sharp.
  - constructor; cbn [segments apexPoints]; assumption.
Qed.

Lemma straight_not_sharp : gtb (Qabs 0) 2 = true -> False.
Proof. vm_compute. discriminate. Qed.

Lemma addPattern_inv p r : road_inv r -> road_inv (addPattern p r).
Proof.
  intro I. destruct p as [hold | i dr | i dr | i dr]; cbn [addPattern].
  - apply (addTrackSegment_inv 0 0 hold 0 r); [left; reflexivity| |exact I].
    intro H. destruct (straight_not_sharp H).
  - apply (addTrackSegment_inv 20 20 20 (i * dr) r);
      [right; vm_compute; reflexivity| |exact I].
    intros _. repeat split; vm_compute; first [reflexivity | discriminate].
  - apply (addTrackSegment_inv 15 15 10 (- i * dr));
      [right; vm_compute; reflexivity| |].
    + intros _. repeat split; vm_compute; first [reflexivity | discriminate].
    + apply (addTrackSegment_inv 15 15 10 (i * dr) r);
        [right; vm_compute; reflexivity| |exact I].
      intros _. repeat split; vm_compute; first [reflexivity | discriminate].
  - apply (addTrackSegment_inv 30 30 40 (i * dr) r);
      [right; vm_compute; reflexivity| |exact I].
    intros _. repeat split; vm_compute; first [reflexivity | discriminate].
Qed.

Lemma addPattern_apexPoints p r :
  exists new,
    apexPoints (addPattern p r) = apexPoints r ++ new /\ Forall fresh new.
Proof.
  destruct p as [hold | i dr | i dr | i dr]; cbn [addPattern];
    try apply addTrackSegment_apexPoints.
  destruct (addTrackSegment_apexPoints 15 10 15 (i * dr) r) as (n1 & E1 & F1).
  destruct (addTrackSegment_apexPoints 15 10 15 (- i * dr)
              (addTrackSegment 15 10 15 (i * dr) r)) as (n2 & E2 & F2).
  exists (n1 ++ n2). rewrite E2, E1, app_assoc. split; [reflexivity|].
  apply Forall_app. split; assumption.
Qed.

Lemma initialRoad_inv r : road_inv r -> road_inv (initialRoad r).
Proof.
  intro I. unfold initialRoad. destruct (Nat.eqb _ _); [|exact I].
  apply (addTrackSegment_inv 0 0 50 0 r); [left; reflexivity| |exact I].
  intro H. destruct (straight_not_sharp H).
Qed.

Lemma initialRoad_apexPoints r : apexPoints (initialRoad r) = apexPoints r.
Proof.
  unfold initialRoad. destruct (Nat.eqb _ _); reflexivity.
Qed.

Lemma extendRoad_inv d playerZ r : road_inv r -> road_inv (extendRoad d playerZ r).
Proof.
  intro I. unfold extendRoad.
  destruct (aheadPatterns_cases d playerZ (initialRoad r)) as [[_ ->] | [_ ->]];
    cbn [fold_left].
  - apply addPattern_inv, initialRoad_inv, I.
  - apply initialRoad_inv, I.
Qed.

Lemma extendRoad_apexPoints d playerZ r :
  exists new,
    apexPoints (extendRoad d playerZ r) = apexPoints r ++ new
    /\ Forall fresh new.
Proof.
  unfold extendRoad.
  destruct (aheadPatterns_cases d playerZ (initialRoad r)) as [[_ ->] | [_ ->]];
    cbn [fold_left].
  - destruct (addPattern_apexPoints (choosePattern d) (initialRoad r))
      as (new & E & F).
    exists new. rewrite E, initialRoad_apexPoints. split; [reflexivity | exact F].
  - exists []. rewrite initialRoad_apexPoints, app_nil_r.
    split; [reflexivity | constructor].
Qed.

Lemma lastZ_below a b l :
  l <> [] -> Forall (fun s => seg_z s < b) l -> lastZ a l < b.
Proof.
  revert a. induction l as [|s t IH]; intros a Hne F; [contradiction|].
  inversion F as [|? ? Hs Ft]; subst. destruct t as [|u t']; [exact Hs|].
  cbn [lastZ]. apply (IH (seg_z s)); [discriminate | exact Ft].
Qed.

Lemma cleanup_inv playerZ r : road_inv r -> road_inv (cleanup playerZ r).
Proof.
  intros [I1 I2 I3 I4]. unfold cleanup.
  destruct (cleanupBehind_suffix playerZ (segments r)) as (l1 & E & F).
  constructor; cbn [segments apexPoints].
  - apply chained_suffix with (l1 := l1). rewrite <- E. exact I1.
  - apply StronglySorted_map_filter, I2.
  - apply Forall_forall. intros ap Hap. apply filter_In in Hap.
    destruct Hap as [Hin Hz]. apply gtb_gt in Hz.
    rewrite Forall_forall in I3. specialize (I3 ap Hin).
    destruct (cleanupBehind playerZ (segments r)) as [|u t] eqn:C.
    + rewrite app_nil_r in E. destruct (segments r) as [|s0 t0] eqn:S.
      * exact I3.
      * assert (B : lastZ 0 (s0 :: t0) < playerZ - 2000).
        { apply lastZ_below; [discriminate|]. rewrite E. exact F. }
        lra.
    + rewrite <- C. rewrite cleanupBehind_last; [exact I3|].
      rewrite C. discriminate.
  - apply Forall_forall. intros ap Hap. apply filter_In in Hap.
    rewrite Forall_forall in I4. apply I4, Hap.
Qed.

Lemma generateRoad_inv d playerZ r : road_inv r -> road_inv (generateRoad d playerZ r).
Proof.
  intro I. apply cleanup_inv, extendRoad_inv, I.
Qed.

(** [generateRoad] never rewrites an apex: it keeps, of the stored ones
    followed by the freshly registered ones, those not yet left behind. *)
Lemma generateRoad_apexPoints d playerZ r :
  exists new,
    apexPoints (generateRoad d playerZ r)
    = filter (fun ap => gtb (apex_z ap) (playerZ - 1000)) (apexPoints r ++ new)
    /\ Forall fresh new.
Proof.
  destruct (extendRoad_apexPoints d playerZ r) as (new & E & F).
  exists new. unfold generateRoad, cleanup. cbn [apexPoints].
  rewrite E. split; [reflexivity | exact F].
Qed.

Lemma Forall2_raised_map_z l l' :
  Forall2 raised l l' -> map apex_z l' = map apex_z l.
Proof.
  induction 1 as [|a b l1 l2 (R1 & _) _ IH]; simpl; congruence.
Qed.

Lemma Forall2_transfer (P Q : ApexPoint -> Prop) l l' :
  Forall2 raised l l' ->
  (forall a a', raised a a' -> P a -> Q a') ->
  Forall P l -> Forall Q l'.
Proof.
  intros H K. induction H as [|a b l1 l2 R _ IH]; intro F; constructor.
  - inversion F; subst. eapply K; eassumption.
  - inversion F; subst. apply IH. assumption.
Qed.

Lemma road_inv_raised r r' :
  segments r' = segments r ->
  Forall2 raised (apexPoints r) (apexPoints r') ->
  road_inv r -> road_inv r'.
Proof.
  intros S R [I1 I2 I3 I4]. constructor.
  - rewrite S. exact I1.
  - rewrite (Forall2_raised_map_z _ _ R). exact I2.
  - rewrite S. apply (Forall2_transfer _ _ _ _ R) with (2 := I3).
    intros a a' (Z & _) H. cbv beta. rewrite Z. exact H.
  - apply (Forall2_transfer _ _ _ _ R) with (2 := I4).
    intros a a' (_ & D & _) H. cbv beta. rewrite D. exact H.
Qed.

(** ** Apex points through a tick *)

Lemma driven_eq dt inp s :
  driven dt inp s
  = let s5 := scoring (apexDetection (atApex dt inp s)) in
    if gtb (Qabs (lateralOffsetAfter dt inp s)) COLLISION_THRESHOLD
    then handleCrash s5 else s5.
Proof. reflexivity. Qed.

Lemma atApex_frame dt inp s :
  road (atApex dt inp s) = road s
  /\ distanceTraveled (player (atApex dt inp s)) = distanceTraveled (player s)
  /\ score (player (atApex dt inp s)) = score (player s)
  /\ lean (player (atApex dt inp s))
     = lerp (lean (player s)) (controls inp)
            (LEAN_SMOOTHING * scaledDelta dt s).
Proof.
  unfold atApex. cbv zeta.
  set (s0 := entering dt inp s).
  destruct (beforeApex_frame (scaledDelta dt s)
              (scaledDelta dt s * 2 * (speed (player s0) / MAX_SPEED))
              (curveIntensityAt (segments (road s)) (distanceTraveled (player s)))
              s0)
    as (_ & F2 & _ & F4 & F5 & _ & _ & F8 & _).
  rewrite F2, F4, F5, F8. repeat split; reflexivity.
Qed.

Lemma tickFlags_raised dist a a' : tickFlags dist a a' -> raised a a'.
Proof.
  intros (H1 & H2 & H3 & H4). repeat split; auto.
  intro S. rewrite H3, S. reflexivity.
Qed.

Lemma Forall2_tickFlags dist l l0 l1 :
  Forall2 hitOnly l l0 ->
  Forall2 (fun a a' => apex_z a' = apex_z a /\ direction a' = direction a
                       /\ hit a' = hit a
                       /\ scored a' = (scored a || gtb dist (apex_z a)))
          l0 l1 ->
  Forall2 (tickFlags dist) l l1.
Proof.
  intro H. revert l1. induction H as [|a b l l0 (R1 & R2 & R3 & R4) _ IH];
    intros l1 H1.
  - inversion H1. constructor.
  - inversion H1 as [|b' c l0' l1' (S1 & S2 & S3 & S4) H1' E1 E2]; subst.
    constructor; [|apply IH, H1'].
    repeat split; try congruence.
    intro Ha. rewrite S3. apply R4, Ha.
Qed.

Lemma driven_road dt inp s :
  segments (road (driven dt inp s)) = segments (road s)
  /\ Forall2 (tickFlags (distanceTraveled (player s)))
             (apexPoints (road s)) (apexPoints (road (driven dt inp s))).
Proof.
  rewrite driven_eq. cbv zeta.
  destruct (atApex_frame dt inp s) as (R & D & _).
  destruct (apexDetection_frame (atApex dt inp s))
    as (_ & _ & _ & A4 & _ & _ & _ & _ & _ & A10 & _ & A12).
  assert (K : segments (road (scoring (apexDetection (atApex dt inp s))))
              = segments (road s)
              /\ Forall2 (tickFlags (distanceTraveled (player s)))
                   (apexPoints (road s))
                   (apexPoints (road (scoring (apexDetection (atApex dt inp s)))))).
  { rewrite scoring_eq. cbv zeta. cbn [road set_player set_road set_apexPoints
                                       segments apexPoints].
    rewrite A10, R. split; [reflexivity|].
    rewrite R in A12. apply (Forall2_tickFlags _ _ _ _ A12).
    rewrite <- D, <- A4. apply scoreUpdate_flags. }
  destruct (gtb _ _); exact K.
Qed.

Lemma update_other dt inp d s :
  gameState s <> PLAYING ->
  score (player (update dt inp d s)) = score (player s)
  /\ exists playerZ, road (update dt inp d s) = generateRoad d playerZ (road s).
Proof.
  intro H. unfold update.
  destruct (gameState s) eqn:G; [|contradiction H; reflexivity|]; cbn.
  - split; [reflexivity | eexists; reflexivity].
  - destruct (active (crash (player s))); cbn;
      (split; [reflexivity | eexists; reflexivity]).
Qed.

(** A tick keeps the stored apexes in place, only raising flags, before
    [generateRoad] extends and prunes. *)
Lemma update_road dt inp d s :
  exists r1 playerZ,
    road (update dt inp d s) = generateRoad d playerZ r1
    /\ segments r1 = segments (road s)
    /\ Forall2 raised (apexPoints (road s)) (apexPoints r1).
Proof.
  destruct (GameState_eqb (gameState s) PLAYING) eqn:G.
  - assert (H : gameState s = PLAYING) by (destruct (gameState s); try discriminate; reflexivity).
    rewrite (update_playing dt inp d s H). cbv zeta. cbn [road].
    destruct (driven_road dt inp s) as [S F].
    eexists. eexists. split; [reflexivity|]. split; [exact S|].
    eapply Forall2_impl; [|exact F]. intros a b. apply tickFlags_raised.
  - assert (H : gameState s <> PLAYING) by (intro E; rewrite E in G; discriminate).
    destruct (update_other dt inp d s H) as (_ & playerZ & E).
    exists (road s), playerZ. split; [exact E|]. split; [reflexivity|].
    apply Forall2_raised_refl.
Qed.

Lemma update_road_inv dt inp d s :
  road_inv (road s) -> road_inv (road (update dt inp d s)).
Proof.
  intro I. destruct (update_road dt inp d s) as (r1 & playerZ & E & S & R).
  rewrite E. apply generateRoad_inv. exact (road_inv_raised _ _ S R I).
Qed.

Lemma run_road_inv frames s :
  road_inv (road s) -> road_inv (road (run frames s)).
Proof.
  revert s. induction frames as [|fr frames IH]; intros s I; [exact I|].
  simpl. apply IH. unfold tick. apply update_road_inv, I.
Qed.

Lemma emptyRoad_inv : road_inv emptyRoad.
Proof. constructor; cbn; constructor. Qed.

(** ** Score *)

Lemma update_score_mono dt inp d s :
  (score (player s) <= score (player (update dt inp d s)))%Z.
Proof.
  destruct (GameState_eqb (gameState s) PLAYING) eqn:G.
  - assert (H : gameState s = PLAYING)
      by (destruct (gameState s); try discriminate; reflexivity).
    destruct (update_playing_frame dt inp d s H)
      as (_ & _ & _ & _ & _ & _ & SC).
    rewrite SC. lia.
  - assert (H : gameState s <> PLAYING)
      by (intro E; rewrite E in G; discriminate).
    destruct (update_other dt inp d s H) as (E & _). rewrite E. lia.
Qed.

Lemma run_score_mono frames s :
  (score (player s) <= score (player (run frames s)))%Z.
Proof.
  revert s. induction frames as [|fr frames IH]; intro s; simpl; [lia|].
  eapply Z.le_trans; [|apply IH]. apply update_score_mono.
Qed.

Lemma update_playing_apexPoints dt inp d s :
  gameState s = PLAYING ->
  exists aps1 new,
    apexPoints (road (update dt inp d s))
    = filter (fun ap => gtb (apex_z ap)
                            (distanceTraveled (player (update dt inp d s)) - 1000))
             (aps1 ++ new)
    /\ Forall2 (tickFlags (distanceTraveled (player s)))
               (apexPoints (road s)) aps1
    /\ Forall fresh new.
Proof.
  intro H. rewrite (update_playing dt inp d s H). cbv zeta.
  cbn [road player set_distanceTraveled distanceTraveled].
  destruct (driven_road dt inp s) as [_ F].
  destruct (generateRoad_apexPoints d
              (distanceTraveled (player (driven dt inp s))
               + speed (player (driven dt inp s)) * scaledDelta dt s)
              (road (driven dt inp s))) as (new & E & N).
  exists (apexPoints (road (driven dt inp s))), new.
  split; [exact E | split; [exact F | exact N]].
Qed.

(** C5. On a [PLAYING] tick the score grows by the number of stored
    apexes that are not yet scored and lie behind [distanceTraveled], one
    point each, so it never decreases, on this tick or along any run.
    Each stored apex keeps its place, [z] and direction, and its [scored]
    flag becomes [scored || distanceTraveled > z]; then [generateRoad]
    appends unscored apexes and drops those left behind.  An apex that is
    scored is never counted again. *)
Theorem score_update (dt : Q) (inp : Inputs) (d : Draws) (s : Sim) :
  gameState s = PLAYING ->
  let s' := update dt inp d s in
  let dist := distanceTraveled (player s) in
  score (player s')
  = (score (player s)
     + Z.of_nat (length (filter (passedUnscored dist) (apexPoints (road s)))))%Z
  /\ (score (player s) <= score (player s'))%Z
  /\ (exists aps1 new,
        apexPoints (road s')
        = filter (fun ap => gtb (apex_z ap) (distanceTraveled (player s') - 1000))
                 (aps1 ++ new)
        /\ Forall2 (fun a a' =>
                      apex_z a' = apex_z a /\ direction a' = direction a
                      /\ scored a' = (scored a || gtb dist (apex_z a)))
                   (apexPoints (road s)) aps1
        /\ Forall (fun ap => scored ap = false) new)
  /\ (forall dist2 ap, scored ap = true -> passedUnscored dist2 ap = false)
  /\ (forall frames, (score (player s) <= score (player (run frames s)))%Z).
Proof.
  intros H s' dist.
  destruct (update_playing_frame dt inp d s H) as (_ & _ & _ & _ & _ & _ & SC).
  fold s' dist in SC.
  split; [exact SC|]. split; [rewrite SC; lia|]. split; [|split].
  - destruct (update_playing_apexPoints dt inp d s H) as (aps1 & new & E & F & N).
    exists aps1, new. split; [exact E|]. split.
    + eapply Forall2_impl; [|exact F].
      intros a a' (H1 & H2 & H3 & _). auto.
    + eapply Forall_impl; [|exact N]. intros ap [_ S]. exact S.
  - intros dist2 ap S. unfold passedUnscored. rewrite S. reflexivity.
  - intro frames. apply run_score_mono.
Qed.

Lemma score_update_witness :
  gameState pastApex = PLAYING
  /\ score (player pastApex) = 0%Z
  /\ score (player (update (1 # 60) noInput draws_long pastApex)) = 1%Z
  /\ score (player (update (1 # 60) noInput draws_long
                      (update (1 # 60) noInput draws_long pastApex))) = 1%Z.
Proof.
  destruct (score_update (1 # 60) noInput draws_long pastApex eq_refl)
    as (E & _).
  destruct (score_update (1 # 60) noInput draws_long
              (update (1 # 60) noInput draws_long pastApex) eq_refl)
    as (E2 & _).
  split; [reflexivity | split; [reflexivity | split]].
  - rewrite E. vm_compute. reflexivity.
  - rewrite E2. vm_compute. reflexivity.
Defined.

(** ** Apex detection *)

Lemma findRef_some f l i :
  findRef f l = Some i ->
  exists ap, nth_error l i = Some ap /\ f ap = true
             /\ forall j b, (j < i)%nat -> nth_error l j = Some b -> f b = false.
Proof.
  revert i. induction l as [|a t IH]; intros i H; simpl in H; [discriminate|].
  destruct (f a) eqn:Fa.
  - injection H as <-. exists a. repeat split; [exact Fa|]. intros j b Hj. lia.
  - destruct (findRef f t) as [k|] eqn:Ft; [|discriminate].
    simpl in H. injection H as <-.
    destruct (IH k eq_refl) as (ap & N & Fap & Before).
    exists ap. repeat split; [exact N | exact Fap|].
    intros [|j] b Hj Hb; simpl in Hb.
    + injection Hb as <-. exact Fa.
    + apply (Before j b); [lia | exact Hb].
Qed.

Lemma findRef_exists f l b :
  In b l -> f b = true -> exists i, findRef f l = Some i.
Proof.
  induction l as [|a t IH]; intros Hin Hb; [contradiction|]. simpl.
  destruct (f a) eqn:Fa; [eexists; reflexivity|].
  destruct Hin as [-> | Hin]; [congruence|].
  destruct (IH Hin Hb) as [i ->]. eexists; reflexivity.
Qed.

Lemma apexCandidate_spec dist ap :
  apexCandidate dist ap = true
  <-> hit ap = false /\ Qabs (apex_z ap - dist) < PERFECT_WINDOW.
Proof.
  unfold apexCandidate. rewrite andb_true_iff, negb_true_iff, ltb_lt. tauto.
Qed.

Lemma spaced_apart l i j a b :
  StronglySorted apexGap (map apex_z l) ->
  (i < j)%nat -> nth_error l i = Some a -> nth_error l j = Some b ->
  apex_z a + 4000 <= apex_z b.
Proof.
  revert i j. induction l as [|c t IH]; intros i j S Hij Ha Hb.
  - destruct i; discriminate.
  - simpl in S. apply StronglySorted_inv in S. destruct S as [S F].
    destruct j as [|j]; [lia|]. simpl in Hb. destruct i as [|i].
    + simpl in Ha. injection Ha as <-.
      rewrite Forall_forall in F. apply (F (apex_z b)).
      apply in_map. eapply nth_error_In, Hb.
    + simpl in Ha. apply (IH i j); [exact S | lia | exact Ha | exact Hb].
Qed.

(** With apexes at least 4000 apart, two of them cannot both lie within
    [PERFECT_WINDOW] of the same point. *)
Lemma window_unique l dist i j a b :
  StronglySorted apexGap (map apex_z l) ->
  nth_error l i = Some a -> nth_error l j = Some b ->
  Qabs (apex_z a - dist) < PERFECT_WINDOW ->
  Qabs (apex_z b - dist) < PERFECT_WINDOW ->
  i = j.
Proof.
  intros S Ha Hb Wa Wb.
  apply Qabs_Qlt_condition in Wa. apply Qabs_Qlt_condition in Wb.
  unfold PERFECT_WINDOW in *.
  destruct (Nat.lt_trichotomy i j) as [L | [E | L]]; [|exact E|].
  - pose proof (spaced_apart l i j a b S L Ha Hb). lra.
  - pose proof (spaced_apart l j i b a S L Hb Ha). lra.
Qed.

Lemma sign_direction dir : dir = 1 \/ dir = -1 -> sign dir = dir.
Proof. intros [-> | ->]; reflexivity. Qed.

(** The detection step on a track as the generator builds it: it picks
    the first stored apex that is un-hit and within [PERFECT_WINDOW] of
    [distanceTraveled], which is the only such apex, hence the nearest;
    it marks it and boosts the speed when the lean agrees, and leaves the
    state alone otherwise. *)
Lemma apexDetection_spec (s : Sim) :
  road_inv (road s) ->
  let dist := distanceTraveled (player s) in
  let l := lean (player s) in
  let aps := apexPoints (road s) in
  let s' := apexDetection s in
  (forall i, findRef (apexCandidate dist) aps = Some i ->
     exists ap,
       nth_error aps i = Some ap
       /\ hit ap = false /\ Qabs (apex_z ap - dist) < PERFECT_WINDOW
       /\ (forall j b, nth_error aps j = Some b -> hit b = false ->
             Qabs (apex_z b - dist) < PERFECT_WINDOW ->
             j = i /\ Qabs (apex_z ap - dist) <= Qabs (apex_z b - dist))
       /\ (sign l == direction ap -> 1 # 2 < Qabs l ->
           nth_error (apexPoints (road s')) i
           = Some (mkApex (apex_z ap) (direction ap) true (scored ap))
           /\ (forall j, j <> i ->
                 nth_error (apexPoints (road s')) j = nth_error aps j)
           /\ (exists rating,
                 texts (fx s')
                 = texts (fx s) ++ [mkText rating 0 (8 # 10) (1 # 2)]
                 /\ (8 # 10 < Qabs l -> rating = PERFECT)
                 /\ (Qabs l <= 8 # 10 -> rating = GOOD))
           /\ speed (player s') = Qmin (speed (player s) + 300) MAX_SPEED)
       /\ (~ (sign l == direction ap /\ 1 # 2 < Qabs l) -> s' = s))
  /\ (findRef (apexCandidate dist) aps = None ->
      s' = s
      /\ forall b, In b aps -> hit b = false ->
           ~ Qabs (apex_z b - dist) < PERFECT_WINDOW)
  /\ (forall b, In b aps -> hit b = false ->
        Qabs (apex_z b - dist) < PERFECT_WINDOW ->
        exists i, findRef (apexCandidate dist) aps = Some i)
  /\ Forall2 (fun a a' => hit a = true -> hit a' = true)
             aps (apexPoints (road s'))
  /\ (forall dt inp d, exists aps1 new playerZ,
        apexPoints (road (update dt inp d s))
        = filter (fun ap => gtb (apex_z ap) (playerZ - 1000)) (aps1 ++ new)
        /\ Forall2 (fun a a' => hit a = true -> hit a' = true) aps aps1
        /\ Forall (fun ap => hit ap = false) new).
Proof.
  intros [I1 I2 I3 I4] dist l aps s'.
  split; [|split; [|split; [|split]]].
  - intros i F.
    destruct (findRef_some _ _ _ F) as (ap & N & C & _).
    apply apexCandidate_spec in C. destruct C as [Hh Hw].
    assert (Dir : sign (direction ap) = direction ap).
    { apply sign_direction. rewrite Forall_forall in I4.
      apply I4. eapply nth_error_In, N. }
    assert (Nth : nth i aps (mkApex 0 0 false false) = ap)
      by (apply nth_error_nth, N).
    assert (Cond : eqb (sign l) (sign (direction
                      (nth i aps (mkApex 0 0 false false))))
                   && gtb (Qabs l) (1 # 2) = true
                   <-> sign l == direction ap /\ 1 # 2 < Qabs l).
    { rewrite Nth, Dir, andb_true_iff, gtb_gt. unfold eqb.
      rewrite Qeq_bool_iff. tauto. }
    exists ap. split; [exact N|]. split; [exact Hh|]. split; [exact Hw|].
    split; [|split].
    + intros j b Nb Hb Wb.
      assert (E : j = i) by (symmetry; eapply window_unique; eassumption).
      subst j. split; [reflexivity|].
      rewrite N in Nb. injection Nb as <-. apply Qle_refl.
    + intros Hs Hl.
      assert (C : eqb (sign l) (sign (direction
                      (nth i aps (mkApex 0 0 false false))))
                  && gtb (Qabs l) (1 # 2) = true) by (apply Cond; auto).
      unfold s', apexDetection. fold dist aps l. rewrite F, C.
      cbn [road player fx set_player set_fx set_road set_apexPoints apexPoints
           speed set_speed spawnFloatingText texts set_texts].
      destruct (markHit_nth i aps) as [M1 M2].
      split; [apply M1, N|]. split; [exact M2|]. split; [|reflexivity].
      eexists. split; [reflexivity|]. split.
      * intro P. apply gtb_gt in P. rewrite P. reflexivity.
      * intro P. apply gtb_le in P. rewrite P. reflexivity.
    + intro NC.
      assert (C : eqb (sign l) (sign (direction
                      (nth i aps (mkApex 0 0 false false))))
                  && gtb (Qabs l) (1 # 2) = false).
      { destruct (eqb _ _ && gtb _ _) eqn:C; [|reflexivity].
        contradiction NC. apply Cond. reflexivity. }
      unfold s', apexDetection. fold dist aps l. rewrite F, C. reflexivity.
  - intro F. split.
    + unfold s', apexDetection. fold dist aps. rewrite F. reflexivity.
    + intros b Hin Hb Wb.
      destruct (findRef_exists (apexCandidate dist) aps b Hin) as [i Fi].
      * apply apexCandidate_spec. auto.
      * fold aps in F. congruence.
  - intros b Hin Hb Wb. apply (findRef_exists _ _ b Hin).
    apply apexCandidate_spec. auto.
  - destruct (apexDetection_frame s)
      as (_ & _ & _ & _ & _ & _ & _ & _ & _ & _ & _ & A12).
    eapply Forall2_impl; [|exact A12]. intros a a' (_ & _ & _ & K). exact K.
  - intros dt inp d.
    destruct (update_road dt inp d s) as (r1 & playerZ & E & _ & R).
    destruct (generateRoad_apexPoints d playerZ r1) as (new & E2 & N).
    exists (apexPoints r1), new, playerZ. rewrite E. split; [exact E2|]. split.
    + eapply Forall2_impl; [|exact R]. intros a a' (_ & _ & K & _). exact K.
    + eapply Forall_impl; [|exact N]. intros ap [K _]. exact K.
Qed.

Lemma effects_texts dt ratio f : texts (effects dt ratio f) = agedTexts dt (texts f).
Proof. reflexivity. Qed.

Lemma atApex_state dt inp s :
  gameState s = PLAYING ->
  road (atApex dt inp s) = road s
  /\ distanceTraveled (player (atApex dt inp s)) = distanceTraveled (player s)
  /\ lean (player (atApex dt inp s)) = tickLean dt inp s
  /\ speed (player (atApex dt inp s)) = tickBaseSpeed dt inp s
  /\ texts (fx (atApex dt inp s)) = texts (fx s).
Proof.
  intro H. destruct (atApex_frame dt inp s) as (R & D & _ & L).
  split; [exact R|]. split; [exact D|]. split; [exact L|].
  unfold atApex. cbv zeta.
  match goal with
  | |- context [beforeApex ?a ?b ?c ?e] =>
      destruct (beforeApex_frame a b c e)
        as (_ & _ & _ & _ & _ & _ & F7 & _ & _ & _ & F11)
  end.
  rewrite F7, F11. split; [|reflexivity].
  unfold tickBaseSpeed, lateralOffsetAfter. cbv zeta.
  assert (V : speed (player (entering dt inp s))
              = Qmin (speed (player s) + ACCELERATION * scaledDelta dt s)
                     MAX_SPEED).
  { unfold entering, accelerate. rewrite H. reflexivity. }
  rewrite V. reflexivity.
Qed.

Lemma driven_detection dt inp s :
  speed (player (driven dt inp s))
  = speed (player (apexDetection (atApex dt inp s)))
  /\ texts (fx (driven dt inp s))
     = texts (fx (apexDetection (atApex dt inp s)))
  /\ Forall2 (fun a a' => apex_z a' = apex_z a /\ direction a' = direction a
                          /\ hit a' = hit a
                          /\ scored a'
                             = (scored a
                                || gtb (distanceTraveled (player s)) (apex_z a)))
             (apexPoints (road (apexDetection (atApex dt inp s))))
             (apexPoints (road (driven dt inp s))).
Proof.
  rewrite driven_eq. cbv zeta. rewrite scoring_eq. cbv zeta.
  destruct (atApex_frame dt inp s) as (_ & D & _).
  destruct (apexDetection_frame (atApex dt inp s))
    as (_ & _ & _ & A4 & _).
  pose proof (scoreUpdate_flags
                (distanceTraveled (player (apexDetection (atApex dt inp s))))
                (apexPoints (road (apexDetection (atApex dt inp s))))
                (score (player (apexDetection (atApex dt inp s))))) as F.
  rewrite A4, D in F. rewrite A4, D.
  destruct (gtb _ COLLISION_THRESHOLD); cbn;
    (split; [reflexivity | split; [reflexivity | exact F]]).
Qed.

Lemma Forall2_nth_error {A B} (R : A -> B -> Prop) l l' :
  Forall2 R l l' ->
  forall j a, nth_error l j = Some a ->
    exists b, nth_error l' j = Some b /\ R a b.
Proof.
  induction 1 as [|x y l l' Rxy _ IH]; intros j a N;
    [destruct j; discriminate|].
  destruct j as [|j]; cbn in N |- *.
  - injection N as <-. exists y. split; [reflexivity | exact Rxy].
  - exact (IH j a N).
Qed.

Lemma Forall2_map_eq {A B C} (f : A -> C) (g : B -> C) l l' :
  Forall2 (fun a b => g b = f a) l l' -> map g l' = map f l.
Proof.
  induction 1 as [|x y l l' E _ IH]; [reflexivity|].
  cbn. rewrite E, IH. reflexivity.
Qed.

(** C6. On every [PLAYING] tick, on a track as the generator builds it,
    [update] runs the apex detection at the distance the tick started
    with, with the lean this tick has just smoothed and the speed it has
    just accelerated (and slowed off the road).  It picks the first stored
    apex that is un-hit and within [PERFECT_WINDOW]: the only such apex,
    hence the nearest.  If the sign of that lean is the apex's direction
    and [|lean| > 0.5], this apex and no other gets [hit = true], a
    rating is emitted, [PERFECT] when [|lean| > 0.8] and [GOOD]
    otherwise, and the tick ends with the speed [min(speed + 300,
    MAX_SPEED)].  Otherwise, and when no apex qualifies, no [hit] flag
    changes, no text is emitted and the speed gets no boost.  No [hit]
    flag is ever lowered, by this tick or by a tick in any game state:
    the stored apexes keep their place, and [generateRoad] only appends
    un-hit ones and drops those left behind. *)
Theorem apex_detection (dt : Q) (inp : Inputs) (d : Draws) (s : Sim) :
  let dist := distanceTraveled (player s) in
  let l := tickLean dt inp s in
  let base := tickBaseSpeed dt inp s in
  let aps := apexPoints (road s) in
  let s' := update dt inp d s in
  (gameState s = PLAYING -> road_inv (road s) ->
   exists aps1 new,
     apexPoints (road s')
     = filter (fun ap => gtb (apex_z ap) (distanceTraveled (player s') - 1000))
              (aps1 ++ new)
     /\ Forall (fun ap => hit ap = false) new
     /\ Forall2 (fun a a1 => apex_z a1 = apex_z a /\ direction a1 = direction a
                             /\ (hit a = true -> hit a1 = true)) aps aps1
     /\ (forall i, findRef (apexCandidate dist) aps = Some i ->
         exists ap,
           nth_error aps i = Some ap
           /\ hit ap = false /\ Qabs (apex_z ap - dist) < PERFECT_WINDOW
           /\ (forall j b, nth_error aps j = Some b -> hit b = false ->
                 Qabs (apex_z b - dist) < PERFECT_WINDOW ->
                 j = i /\ Qabs (apex_z ap - dist) <= Qabs (apex_z b - dist))
           /\ (sign l == direction ap -> 1 # 2 < Qabs l ->
               (exists ap1, nth_error aps1 i = Some ap1 /\ hit ap1 = true)
               /\ (forall j a a1, j <> i -> nth_error aps j = Some a ->
                     nth_error aps1 j = Some a1 -> hit a1 = hit a)
               /\ (exists rating,
                     texts (fx s')
                     = agedTexts dt (texts (fx s)
                                     ++ [mkText rating 0 (8 # 10) (1 # 2)])
                     /\ (8 # 10 < Qabs l -> rating = PERFECT)
                     /\ (Qabs l <= 8 # 10 -> rating = GOOD))
               /\ speed (player s') = Qmin (base + 300) MAX_SPEED)
           /\ (~ (sign l == direction ap /\ 1 # 2 < Qabs l) ->
               map hit aps1 = map hit aps
               /\ texts (fx s') = agedTexts dt (texts (fx s))
               /\ speed (player s') = base))
     /\ (findRef (apexCandidate dist) aps = None ->
         map hit aps1 = map hit aps
         /\ texts (fx s') = agedTexts dt (texts (fx s))
         /\ speed (player s') = base
         /\ forall b, In b aps -> hit b = false ->
              ~ Qabs (apex_z b - dist) < PERFECT_WINDOW)
     /\ (forall b, In b aps -> hit b = false ->
           Qabs (apex_z b - dist) < PERFECT_WINDOW ->
           exists i, findRef (apexCandidate dist) aps = Some i))
  /\ (exists aps1 new playerZ,
        apexPoints (road s')
        = filter (fun ap => gtb (apex_z ap) (playerZ - 1000)) (aps1 ++ new)
        /\ Forall2 (fun a a' => hit a = true -> hit a' = true) aps aps1
        /\ Forall (fun ap => hit ap = false) new).
Proof.
  intros dist l base aps s'. split.
  - intros H I.
    destruct (atApex_state dt inp s H) as (AR & AD & AL & AS & AT).
    destruct (driven_detection dt inp s) as (DS & DT & DF).
    set (a := atApex dt inp s) in *.
    assert (Ia : road_inv (road a)) by (rewrite AR; exact I).
    destruct (apexDetection_spec a Ia) as (K1 & K2 & K3 & _ & _).
    cbv zeta in K1, K2, K3. rewrite AR, AD, AL in K1. rewrite AR, AD in K2, K3.
    fold dist aps l in K1, K2, K3.
    assert (US : speed (player s') = speed (player (apexDetection a))).
    { unfold s'. rewrite (update_playing dt inp d s H). cbv zeta.
      cbn [player set_distanceTraveled speed]. exact DS. }
    assert (UT : texts (fx s') = agedTexts dt (texts (fx (apexDetection a)))).
    { unfold s'. rewrite (update_playing dt inp d s H). cbv zeta.
      cbn [fx]. rewrite effects_texts, DT. reflexivity. }
    assert (UA : exists new,
               apexPoints (road s')
               = filter (fun ap => gtb (apex_z ap)
                                       (distanceTraveled (player s') - 1000))
                        (apexPoints (road (driven dt inp s)) ++ new)
               /\ Forall fresh new).
    { unfold s'. rewrite (update_playing dt inp d s H). cbv zeta.
      cbn [road player set_distanceTraveled distanceTraveled].
      destruct (generateRoad_apexPoints d
                  (distanceTraveled (player (driven dt inp s))
                   + speed (player (driven dt inp s)) * scaledDelta dt s)
                  (road (driven dt inp s))) as (new & E & N).
      exists new. split; [exact E | exact N]. }
    destruct UA as (new & UA & UN).
    destruct (driven_road dt inp s) as [_ TF]. fold aps dist in TF.
    set (aps1 := apexPoints (road (driven dt inp s))) in *.
    set (aps4 := apexPoints (road (apexDetection a))) in *.
    assert (Hit41 : Forall2 (fun a4 a1 => hit a1 = hit a4) aps4 aps1).
    { eapply Forall2_impl; [|exact DF]. intros x y (_ & _ & E & _). exact E. }
    exists aps1, new.
    split; [exact UA|]. split.
    { eapply Forall_impl; [|exact UN]. intros ap [E _]. exact E. }
    split.
    { eapply Forall2_impl; [|exact TF].
      intros x y (E1 & E2 & _ & E4). auto. }
    split; [|split].
    + intros i F. destruct (K1 i F) as (ap & N & Hh & Hw & Un & Yes & No).
      exists ap. split; [exact N|]. split; [exact Hh|]. split; [exact Hw|].
      split; [exact Un|]. split.
      * intros Sg Ln. destruct (Yes Sg Ln) as (M1 & M2 & (rating & T & P) & V).
        fold aps4 in M1, M2. rewrite AT in T. rewrite AS in V.
        split; [|split; [|split]].
        -- destruct (Forall2_nth_error _ _ _ Hit41 i _ M1) as (ap1 & N1 & E).
           exists ap1. split; [exact N1 | rewrite E; reflexivity].
        -- intros j x x1 NE Nx Nx1. specialize (M2 j NE). rewrite <- M2 in Nx.
           destruct (Forall2_nth_error _ _ _ Hit41 j _ Nx) as (y & Ny & E).
           rewrite Nx1 in Ny. injection Ny as <-. exact E.
        -- exists rating. split; [rewrite UT, T; reflexivity | exact P].
        -- rewrite US. exact V.
      * intro NC. specialize (No NC).
        assert (E4 : aps4 = aps) by (unfold aps4; rewrite No, AR; reflexivity).
        split; [|split].
        -- rewrite <- E4. apply Forall2_map_eq. exact Hit41.
        -- rewrite UT, No, AT. reflexivity.
        -- rewrite US, No. exact AS.
    + intro F. destruct (K2 F) as (Same & Out).
      assert (E4 : aps4 = aps) by (unfold aps4; rewrite Same, AR; reflexivity).
      split; [|split; [|split]].
      * rewrite <- E4. apply Forall2_map_eq. exact Hit41.
      * rewrite UT, Same, AT. reflexivity.
      * rewrite US, Same. exact AS.
      * exact Out.
    + exact K3.
  - destruct (update_road dt inp d s) as (r1 & playerZ & E & _ & R).
    destruct (generateRoad_apexPoints d playerZ r1) as (new & E2 & N).
    exists (apexPoints r1), new, playerZ. unfold s'. rewrite E.
    split; [exact E2|]. split.
    + eapply Forall2_impl; [|exact R]. intros x y (_ & _ & K & _). exact K.
    + eapply Forall_impl; [|exact N]. intros ap [K _]. exact K.
Qed.

Lemma apex_detection_witness :
  gameState onApex = PLAYING /\ road_inv (road onApex)
  /\ findRef (apexCandidate (distanceTraveled (player onApex)))
             (apexPoints (road onApex)) = Some O
  /\ speed (player (update (1 # 60) steerRight draws_long onApex))
     = Qmin (tickBaseSpeed (1 # 60) steerRight onApex + 300) MAX_SPEED
  /\ exists rating,
       texts (fx (update (1 # 60) steerRight draws_long onApex))
       = agedTexts (1 # 60)
                   (texts (fx onApex) ++ [mkText rating 0 (8 # 10) (1 # 2)])
       /\ rating = PERFECT.
Proof.
  assert (G : gameState onApex = PLAYING) by reflexivity.
  assert (I : road_inv (road onApex))
    by (apply generateRoad_inv, emptyRoad_inv).
  assert (F : findRef (apexCandidate (distanceTraveled (player onApex)))
                      (apexPoints (road onApex)) = Some O)
    by (vm_compute; reflexivity).
  destruct (apex_detection (1 # 60) steerRight draws_long onApex) as (H & _).
  destruct (H G I) as (aps1 & new & _ & _ & _ & K & _).
  destruct (K O F) as (ap & N & _ & _ & _ & Yes & _).
  assert (E : exists z, ap = mkApex z 1 false false).
  { vm_compute in N. injection N as <-. eexists. reflexivity. }
  destruct E as [z ->].
  assert (A : sign (tickLean (1 # 60) steerRight onApex)
              == direction (mkApex z 1 false false))
    by (vm_compute; reflexivity).
  assert (B : 1 # 2 < Qabs (tickLean (1 # 60) steerRight onApex))
    by (vm_compute; reflexivity).
  destruct (Yes A B) as (_ & _ & (rating & T & P & _) & V).
  split; [exact G | split; [exact I | split; [exact F | split; [exact V|]]]].
  exists rating. split; [exact T|]. apply P. vm_compute. reflexivity.
Defined.


(** Every state of a run has a track of that shape, and a [PLAYING]
    tick runs the detection on that track, at the distance the tick
    started with. *)
Lemma run_detection_state frames dt inp :
  let s := run frames startSim in
  road_inv (road (atApex dt inp s))
  /\ road (atApex dt inp s) = road s
  /\ distanceTraveled (player (atApex dt inp s)) = distanceTraveled (player s).
Proof.
  intro s. destruct (atApex_frame dt inp s) as (R & D & _).
  rewrite R. split; [|split; [reflexivity | exact D]].
  apply run_road_inv, emptyRoad_inv.
Qed.

(** * Further properties *)

(** ** A tick in any game state *)

Lemma Qmult_le_nonneg_l a b c : 0 <= a -> b <= c -> a * b <= a * c.
Proof.
  intros Ha Hbc. rewrite (Qmult_comm a b), (Qmult_comm a c).
  apply Qmult_le_compat_r; assumption.
Qed.

Lemma update_other_eq dt inp d s :
  gameState s <> PLAYING ->
  let p1 := idle dt inp s in
  let dist' := distanceTraveled p1 + speed p1 * scaledDelta dt s in
  update dt inp d s
  = mkSim (set_distanceTraveled dist' p1)
          (generateRoad d dist' (road s))
          (effects dt (speed (player (entering dt inp s)) / MAX_SPEED) (fx s))
          (S (frameId s)) (gameState s).
Proof.
  intro H. unfold update, idle, entering, scaledDelta.
  destruct (gameState s) eqn:G; [|contradiction H; reflexivity|]; cbn.
  - rewrite G. reflexivity.
  - destruct (active (crash (player s))); cbn; rewrite G; reflexivity.
Qed.

Lemma idle_frame dt inp s :
  x (idle dt inp s) = x (player s)
  /\ lean (idle dt inp s) = lean (player s)
  /\ targetLean (idle dt inp s) = controls inp
  /\ speed (idle dt inp s)
     = accelerate (gameState s) dt (scaledDelta dt s) (speed (player s))
  /\ distanceTraveled (idle dt inp s) = distanceTraveled (player s)
  /\ score (idle dt inp s) = score (player s)
  /\ offRoad (idle dt inp s) = offRoad (player s)
  /\ trail (idle dt inp s) = trail (player s).
Proof.
  unfold idle. cbv zeta.
  destruct (GameState_eqb (gameState s) GAME_OVER
            && active (crash (player (entering dt inp s))));
    cbn; repeat split; reflexivity.
Qed.

Lemma GameState_eqb_eq a b : GameState_eqb a b = true <-> a = b.
Proof. destruct a, b; simpl; split; intro H; try reflexivity; discriminate. Qed.

Lemma playing_dec s : gameState s = PLAYING \/ gameState s <> PLAYING.
Proof. destruct (gameState s); auto; right; discriminate. Qed.

(** The tick moves forward by the final speed times the scaled step, and
    hands the new distance to [generateRoad]. *)
Lemma update_forward dt inp d s :
  distanceTraveled (player (update dt inp d s))
  = distanceTraveled (player s)
    + speed (player (update dt inp d s)) * scaledDelta dt s
  /\ exists r1,
       road (update dt inp d s)
       = generateRoad d (distanceTraveled (player (update dt inp d s))) r1
       /\ segments r1 = segments (road s)
       /\ Forall2 raised (apexPoints (road s)) (apexPoints r1).
Proof.
  destruct (playing_dec s) as [H | H].
  - destruct (update_playing_frame dt inp d s H)
      as (_ & _ & _ & _ & _ & DT & _).
    split; [exact DT|].
    rewrite (update_playing dt inp d s H). cbv zeta.
    cbn [road player set_distanceTraveled distanceTraveled].
    destruct (driven_road dt inp s) as [S F].
    eexists. split; [reflexivity|]. split; [exact S|].
    eapply Forall2_impl; [|exact F]. intros a b. apply tickFlags_raised.
  - rewrite (update_other_eq dt inp d s H). cbv zeta.
    cbn [road player set_distanceTraveled distanceTraveled speed].
    destruct (idle_frame dt inp s) as (_ & _ & _ & _ & D & _).
    rewrite D. split; [reflexivity|].
    exists (road s). split; [reflexivity|]. split; [reflexivity|].
    apply Forall2_raised_refl.
Qed.

Lemma update_other_speed dt inp d s :
  gameState s <> PLAYING ->
  speed (player (update dt inp d s))
  = accelerate (gameState s) dt (scaledDelta dt s) (speed (player s)).
Proof.
  intro H. rewrite (update_other_eq dt inp d s H). cbv zeta.
  cbn [player set_distanceTraveled speed].
  destruct (idle_frame dt inp s) as (_ & _ & _ & V & _). exact V.
Qed.

Lemma drive_slowMo_crash delta dx ci s :
  gtb (Qabs (x (player (drive delta dx ci s)))) COLLISION_THRESHOLD = true ->
  slowMoFactor (fx (drive delta dx ci s)) = 1 # 10
  /\ shake (fx (drive delta dx ci s)) = 80.
Proof.
  destruct (drive_frame delta dx ci s) as (D1 & _).
  rewrite D1. rewrite drive_eq. cbv zeta. intro C. rewrite C.
  split; reflexivity.
Qed.

(** The time scale after a tick: interpolated towards 1 from the value
    the tick left, which is 0.1 on the tick that crashes. *)
Lemma update_slowMo dt inp d s :
  slowMoFactor (fx (update dt inp d s))
  = lerp (if GameState_eqb (gameState s) PLAYING
             && gtb (Qabs (x (player (update dt inp d s)))) COLLISION_THRESHOLD
          then 1 # 10 else slowMoFactor (fx s))
         1 (1 * dt).
Proof.
  destruct (playing_dec s) as [H | H].
  - rewrite H. cbn [GameState_eqb andb].
    rewrite (update_playing dt inp d s H). cbv zeta.
    cbn [player set_distanceTraveled x fx effects slowMoFactor set_shake
         set_slowMoFactor set_chromaticAberration set_zoom set_texts].
    unfold driven.
    destruct (gtb _ _) eqn:C.
    + destruct (drive_slowMo_crash _ _ _ _ C) as [-> _]. reflexivity.
    + rewrite (drive_slowMo _ _ _ _ C). reflexivity.
  - assert (G : GameState_eqb (gameState s) PLAYING = false).
    { destruct (GameState_eqb _ _) eqn:E; [|reflexivity].
      apply GameState_eqb_eq in E. contradiction. }
    rewrite G. cbn [andb].
    rewrite (update_other_eq dt inp d s H). reflexivity.
Qed.

(** ** How far the track reaches *)

Lemma initialRoad_cases r :
  (segments r = []
   /\ lastZ 0 (segments (initialRoad r)) == 5000
   /\ firstZ 100 (segments (initialRoad r)) == 100)
  \/ (segments r <> [] /\ segments (initialRoad r) = segments r).
Proof.
  destruct (initialRoad_block r) as (B & E & C & L & N).
  destruct (segments r) as [|sg t] eqn:S.
  - left. split; [reflexivity|]. rewrite E. cbn [app] in *.
    specialize (L eq_refl). split.
    + rewrite (chain_lastZ _ _ C), L. vm_compute. reflexivity.
    + destruct B as [|b B']; [discriminate L|]. destruct C as [C _].
      cbn [firstZ]. rewrite C. vm_compute. reflexivity.
  - right. split; [discriminate|]. rewrite E, N, app_nil_r; [reflexivity|].
    discriminate.
Qed.

Lemma cleanupBehind_first playerZ dflt l :
  chained l ->
  cleanupBehind playerZ l = l
  \/ firstZ dflt (cleanupBehind playerZ l) < playerZ - 1900
  \/ cleanupBehind playerZ l = [].
Proof.
  induction l as [|sg t IH]; intro H; [left; reflexivity|].
  simpl. destruct (ltb (seg_z sg) (playerZ - 2000)) eqn:C; [|left; reflexivity].
  apply ltb_lt in C. right.
  destruct (IH (chain_chained _ _ H)) as [E | [F | E]].
  - rewrite E. destruct t as [|u t']; [right; reflexivity|]. left.
    destruct H as [H _]. cbn [firstZ]. rewrite H.
    unfold SEGMENT_LENGTH. lra.
  - left. exact F.
  - right. exact E.
Qed.

Lemma firstZ_app dflt l B : l <> [] -> firstZ dflt (l ++ B) = firstZ dflt l.
Proof. destruct l; [intro H; contradiction H; reflexivity | reflexivity]. Qed.

(** One call of [generateRoad] on a contiguous track whose end, once the
    initial road is there, is not left behind by the cleanup. *)
Lemma generateRoad_reach d playerZ r :
  0 <= range d -> range d < 1 -> chained (segments r) ->
  playerZ - 2000 <= lastZ 0 (segments (initialRoad r)) ->
  let L0 := lastZ 0 (segments (initialRoad r)) in
  let stored := segments (generateRoad d playerZ r) in
  stored <> []
  /\ ((playerZ + 20000 <= L0 /\ lastZ 0 stored == L0)
      \/ (L0 < playerZ + 20000
          /\ L0 + 1000 <= lastZ 0 stored /\ lastZ 0 stored <= L0 + 10000))
  /\ (firstZ 100 stored = firstZ 100 (segments (initialRoad r))
      \/ firstZ 100 stored < playerZ - 1900).
Proof.
  intros R0 R1 CH HL L0 stored.
  change (playerZ - 2000 <= L0) in HL.
  assert (N0 : segments (initialRoad r) <> []) by apply initialRoad_nonempty.
  assert (CI : chained (segments (initialRoad r))).
  { destruct (initialRoad_block r) as (B & E & C & _).
    rewrite E. apply chained_append; assumption. }
  (* the track before the cleanup *)
  assert (EX : exists B,
             segments (extendRoad d playerZ r) = segments (initialRoad r) ++ B
             /\ chain L0 B
             /\ ((playerZ + 20000 <= L0 /\ B = [])
                 \/ (L0 < playerZ + 20000
                     /\ (10 <= length B <= 100)%nat))).
  { unfold extendRoad.
    destruct (aheadPatterns_cases d playerZ (initialRoad r)) as [[C ->] | [C ->]];
      cbn [fold_left]; unfold VISIBLE_SEGMENTS, SEGMENT_LENGTH in C.
    - destruct (addPattern_block (choosePattern d) (initialRoad r))
        as (B & E & CB & LB).
      exists B. split; [exact E|]. split; [exact CB|]. right.
      split; [fold L0 in C; lra|]. rewrite LB.
      apply choosePattern_length; assumption.
    - exists []. rewrite app_nil_r. split; [reflexivity|]. split; [exact I|].
      left. split; [fold L0 in C; lra | reflexivity]. }
  destruct EX as (B & E & CB & Cases).
  assert (LE : lastZ 0 (segments (extendRoad d playerZ r))
               == L0 + num (length B) * SEGMENT_LENGTH).
  { rewrite E. apply lastZ_append, CB. }
  assert (CE : chained (segments (extendRoad d playerZ r))).
  { rewrite E. apply chained_append; assumption. }
  assert (NE : segments (extendRoad d playerZ r) <> []).
  { rewrite E. destruct (segments (initialRoad r)); [contradiction N0; reflexivity|].
    discriminate. }
  assert (GE : L0 <= lastZ 0 (segments (extendRoad d playerZ r))).
  { rewrite LE. pose proof (num_nonneg (length B)). unfold SEGMENT_LENGTH. nra. }
  assert (NS : stored <> []).
  { unfold stored, generateRoad, cleanup. cbn [segments].
    apply cleanupBehind_nonempty with (a := 0); [exact NE|]. lra. }
  assert (LS : lastZ 0 stored = lastZ 0 (segments (extendRoad d playerZ r))).
  { unfold stored, generateRoad, cleanup in *. cbn [segments] in *.
    apply cleanupBehind_last, NS. }
  split; [exact NS|]. split.
  - rewrite LS, LE. destruct Cases as [[C ->] | [C [B0 B1]]].
    + left. split; [exact C|]. cbn [length]. unfold num. simpl. ring.
    + right. split; [exact C|].
      assert (N10 : 10 <= num (length B)).
      { unfold num. change 10 with (inject_Z 10). rewrite <- Zle_Qle. lia. }
      assert (N100 : num (length B) <= 100).
      { unfold num. change 100 with (inject_Z 100). rewrite <- Zle_Qle. lia. }
      unfold SEGMENT_LENGTH. split; lra.
  - unfold stored, generateRoad, cleanup in *. cbn [segments] in *.
    destruct (cleanupBehind_first playerZ 100 _ CE) as [K | [K | K]].
    + left. rewrite K, E. apply firstZ_app, N0.
    + right. exact K.
    + contradiction NS.
Qed.

Lemma generateRoad_behind d playerZ r :
  chained (segments r) ->
  Forall (fun sg => playerZ - 2000 <= seg_z sg)
         (segments (generateRoad d playerZ r)).
Proof.
  intro H. unfold generateRoad, cleanup. cbn [segments].
  apply cleanupBehind_bound.
  destruct (extendRoad_block d playerZ r) as (B & E & C).
  rewrite E. apply chained_append; assumption.
Qed.

(** ** What every state of a run satisfies *)

Lemma scaledDelta_range dt s :
  0 <= dt -> dt <= 1 # 10 ->
  1 # 10 <= slowMoFactor (fx s) -> slowMoFactor (fx s) <= 1 ->
  0 <= scaledDelta dt s /\ scaledDelta dt s <= 1 # 10.
Proof.
  intros D0 D1 M0 M1. unfold scaledDelta.
  set (m := slowMoFactor (fx s)) in *. split; nra.
Qed.

Lemma update_speed_range dt inp d s :
  0 <= dt -> dt <= 1 # 10 -> 0 <= scaledDelta dt s ->
  drivingRange s ->
  0 <= speed (player s) -> speed (player s) <= MAX_SPEED ->
  0 <= speed (player (update dt inp d s))
  /\ speed (player (update dt inp d s)) <= MAX_SPEED
  /\ (gameState s = GAME_OVER ->
      speed (player (update dt inp d s)) <= speed (player s)).
Proof.
  intros D0 D1 E0 DR S0 S1.
  destruct (playing_dec s) as [H | H].
  - destruct (DR H) as (B0 & B1 & _).
    destruct (playing_speed_range dt inp d s H E0 B0 B1) as [R0 R1].
    split; [unfold BASE_SPEED in R0; lra|]. split; [exact R1|].
    intro G. rewrite G in H. discriminate H.
  - rewrite (update_other_speed dt inp d s H). unfold accelerate.
    destruct (gameState s) eqn:G; [|contradiction H; reflexivity|];
      cbn [GameState_eqb].
    + split; [|split; [apply Q.le_min_r | intro K; discriminate K]].
      apply Q.min_glb; unfold ACCELERATION, MAX_SPEED in *; lra.
    + unfold lerp, MAX_SPEED in *. set (v := speed (player s)) in *.
      assert (P0 : 0 <= v * dt) by (apply Qmult_le_0_compat; assumption).
      assert (P1 : v * dt <= v * (1 # 10)) by (apply Qmult_le_nonneg_l; assumption).
      split; [lra|]. split; [lra|]. intros _. lra.
Qed.

Lemma update_slowMo_range dt inp d s :
  0 <= dt -> dt <= 1 # 10 ->
  1 # 10 <= slowMoFactor (fx s) -> slowMoFactor (fx s) <= 1 ->
  1 # 10 <= slowMoFactor (fx (update dt inp d s))
  /\ slowMoFactor (fx (update dt inp d s)) <= 1.
Proof.
  intros D0 D1 M0 M1. rewrite update_slowMo.
  set (a := if GameState_eqb (gameState s) PLAYING
               && gtb (Qabs (x (player (update dt inp d s)))) COLLISION_THRESHOLD
            then 1 # 10 else slowMoFactor (fx s)).
  assert (A : 1 # 10 <= a /\ a <= 1).
  { unfold a. destruct (_ && _); split; lra. }
  destruct A as [A0 A1]. unfold lerp. split; nra.
Qed.

(** One frame from a state of a run: the invariant is kept, the track is
    not empty afterwards, and the reach ahead of the vehicle grows by at
    least 50 until it is 20000. *)
Lemma tick_reach s fr :
  runInv s -> wfFrame fr ->
  let s' := tick s fr in
  runInv s'
  /\ segments (road s') <> []
  /\ (forall g, segments (road s) <> [] ->
        g <= lastZ 0 (segments (road s)) - distanceTraveled (player s) ->
        Qmin 20000 (g + 50)
        <= lastZ 0 (segments (road s')) - distanceTraveled (player s')).
Proof.
  intros [[M0 M1] [S0 S1] D DR CH BH FS ST AH UP] (T0 & T1 & R0 & R1) s'.
  unfold tick in s'.
  set (dt := frame_dt fr) in *. set (inp := frame_inp fr) in *.
  set (d := frame_draws fr) in *.
  destruct (scaledDelta_range dt s T0 T1 M0 M1) as [E0 E1].
  destruct (update_speed_range dt inp d s T0 T1 E0 DR S0 S1) as (V0 & V1 & _).
  destruct (update_slowMo_range dt inp d s T0 T1 M0 M1) as [N0 N1].
  destruct (update_forward dt inp d s) as (DT & r1 & RD & SG & _).
  fold s' in V0, V1, N0, N1, DT, RD.
  set (v := speed (player s')) in *. set (e := scaledDelta dt s) in *.
  set (z := distanceTraveled (player s)) in *.
  set (z' := distanceTraveled (player s')) in *.
  assert (ADV : z <= z' /\ z' <= z + 950).
  { rewrite DT. unfold MAX_SPEED in V1. split; nra. }
  destruct ADV as [A0 A1].
  assert (CH1 : chained (segments r1)) by (rewrite SG; exact CH).
  (* the track once the initial road is there *)
  assert (INI : z' + 4050 <= lastZ 0 (segments (initialRoad r1))
                /\ lastZ 0 (segments (initialRoad r1)) <= z' + 30000
                /\ firstZ 100 (segments (initialRoad r1)) <= z' + 100
                /\ (segments (road s) <> [] ->
                    lastZ 0 (segments (initialRoad r1))
                    = lastZ 0 (segments (road s)))).
  { destruct (initialRoad_cases r1) as [(E & L & F) | (NE & E)].
    - rewrite SG in E. specialize (ST E).
      split; [lra|]. split; [lra|]. split; [lra|]. intro K. contradiction.
    - rewrite SG in NE. rewrite E, SG. specialize (AH NE).
      split; [lra|]. split; [lra|]. split; [lra|]. intros _. reflexivity. }
  destruct INI as (I0 & I1 & I2 & I3).
  destruct (generateRoad_reach d z' r1 R0 R1 CH1) as (NS & LC & FC); [lra|].
  rewrite <- RD in NS, LC, FC.
  pose proof (generateRoad_behind d z' r1 CH1) as BH'. rewrite <- RD in BH'.
  pose proof (generateRoad_chained d z' r1 CH1) as CH'. rewrite <- RD in CH'.
  split; [|split; [exact NS|]].
  - constructor; fold z'.
    + split; assumption.
    + split; assumption.
    + lra.
    + apply drivingRange_update; assumption.
    + exact CH'.
    + exact BH'.
    + destruct FC as [-> | F]; lra.
    + intro K. contradiction.
    + intros _. destruct LC as [[C L] | (C & L0 & L1)]; [rewrite L|]; lra.
    + destruct LC as [[C L] | (C & L0 & L1)]; [rewrite L|]; lra.
  - intros g NE G. rewrite (I3 NE) in LC. fold z in G.
    destruct LC as [[C L] | (C & L0 & L1)].
    + apply Qle_trans with 20000; [apply Q.le_min_l | rewrite L; lra].
    + apply Qle_trans with (g + 50); [apply Q.le_min_r | lra].
Qed.

Lemma startSim_inv : runInv startSim.
Proof.
  constructor.
  - cbn. split; lra.
  - cbn. unfold MAX_SPEED, BASE_SPEED. split; lra.
  - cbn. lra.
  - exact drivingRange_start.
  - exact I.
  - constructor.
  - cbn. lra.
  - intros _. cbn. lra.
  - intro K. contradiction K. reflexivity.
  - cbn. lra.
Qed.

Lemma run_inv frames s :
  Forall wfFrame frames -> runInv s -> runInv (run frames s).
Proof.
  intro F. revert s. induction F as [|fr frames W _ IH]; intros s J; [exact J|].
  simpl. apply IH. apply (tick_reach s fr J W).
Qed.

Lemma run_nonempty frames s :
  Forall wfFrame frames -> runInv s -> frames <> [] ->
  segments (road (run frames s)) <> [].
Proof.
  intro F. revert s. induction F as [|fr frames W F IH]; intros s J NE;
    [contradiction NE; reflexivity|].
  simpl. destruct (tick_reach s fr J W) as (J' & N' & _).
  destruct frames as [|fr' frames']; [exact N'|].
  apply IH; [exact J' | discriminate].
Qed.

(** After [n] more frames the reach is at least [min(20000, g + 50 n)]. *)
Lemma run_reach frames s g :
  Forall wfFrame frames -> runInv s -> segments (road s) <> [] ->
  g <= lastZ 0 (segments (road s)) - distanceTraveled (player s) ->
  Qmin 20000 (g + 50 * num (length frames))
  <= lastZ 0 (segments (road (run frames s)))
     - distanceTraveled (player (run frames s)).
Proof.
  intro F. revert s g. induction F as [|fr frames W F IH]; intros s g J NE G.
  - cbn [run fold_left length]. change (num 0) with 0.
    apply Qle_trans with g; [|exact G].
    eapply Qle_trans; [apply Q.le_min_r|]. lra.
  - cbn [run fold_left length]. destruct (tick_reach s fr J W) as (J' & N' & K).
    specialize (K g NE G).
    pose proof (IH (tick s fr) _ J' N' K) as R. unfold run in R.
    eapply Qle_trans; [|exact R]. rewrite num_S.
    pose proof (num_nonneg (length frames)).
    set (n := num (length frames)) in *.
    apply Q.min_glb.
    + apply Q.le_min_l.
    + destruct (Q.min_spec 20000 (g + 50)) as [[C ->] | [C ->]].
      * eapply Qle_trans; [apply Q.le_min_l|]. lra.
      * eapply Qle_trans; [apply Q.le_min_r|]. lra.
Qed.

Lemma wfFrame_frame60 inp : wfFrame (frame60 inp).
Proof.
  unfold wfFrame. cbn. repeat split; vm_compute; discriminate || reflexivity.
Qed.

Lemma twoFrames_wf : Forall wfFrame twoFrames.
Proof. repeat constructor; apply wfFrame_frame60. Qed.

Lemma chain_upper a l : chain a l -> Forall (fun sg => seg_z sg <= lastZ a l) l.
Proof.
  revert a. induction l as [|sg t IH]; intros a H; constructor.
  - destruct H as [_ H]. cbn [lastZ]. rewrite (chain_lastZ _ _ H).
    pose proof (num_nonneg (length t)). unfold SEGMENT_LENGTH. nra.
  - destruct H as [_ H]. cbn [lastZ]. apply IH, H.
Qed.

Lemma chained_upper l : chained l -> Forall (fun sg => seg_z sg <= lastZ 0 l) l.
Proof.
  destruct l as [|sg t]; [constructor|]. intro H. constructor.
  - cbn [lastZ]. rewrite (chain_lastZ _ _ H).
    pose proof (num_nonneg (length t)). unfold SEGMENT_LENGTH. nra.
  - cbn [lastZ]. apply chain_upper, H.
Qed.

(** X1. The vehicle never outruns the track: in every state of a run
    after its first frame (time steps in [0, 0.1], draws in [0, 1)) the
    track is stored up to at least 5000 units ahead of
    [distanceTraveled]; after [n] further frames it reaches
    [min(20000, 5000 + 50 n)] ahead, so from the 301st frame on the full
    horizon [VISIBLE_SEGMENTS * SEGMENT_LENGTH] is there. *)
Theorem track_reaches_ahead (fr : Frame) (frames : list Frame) :
  Forall wfFrame (fr :: frames) ->
  let s := run (fr :: frames) startSim in
  segments (road s) <> []
  /\ distanceTraveled (player s) + 5000 <= lastZ 0 (segments (road s))
  /\ Qmin 20000 (5000 + 50 * num (length frames))
     <= lastZ 0 (segments (road s)) - distanceTraveled (player s)
  /\ ((300 <= length frames)%nat ->
      distanceTraveled (player s) + VISIBLE_SEGMENTS * SEGMENT_LENGTH
      <= lastZ 0 (segments (road s))).
Proof.
  intros F s. inversion F as [|? ? W F']; subst.
  destruct (tick_reach startSim fr startSim_inv W) as (J1 & N1 & _).
  assert (G1 : 5000 <= lastZ 0 (segments (road (tick startSim fr)))
                       - distanceTraveled (player (tick startSim fr))).
  { pose proof (ri_ahead _ J1 N1). lra. }
  pose proof (run_reach frames _ 5000 F' J1 N1 G1) as R.
  pose proof (run_inv frames _ F' J1) as J.
  assert (N : segments (road s) <> []).
  { destruct frames as [|fr' frames']; [exact N1|].
    apply (run_nonempty (fr' :: frames') _ F' J1). discriminate. }
  change (run frames (tick startSim fr)) with s in R, J.
  split; [exact N|]. split; [exact (ri_ahead _ J N)|]. split; [exact R|].
  intro L.
  assert (Q300 : 300 <= num (length frames)).
  { unfold num. change 300 with (inject_Z 300). rewrite <- Zle_Qle. lia. }
  unfold VISIBLE_SEGMENTS, SEGMENT_LENGTH.
  destruct (Q.min_spec 20000 (5000 + 50 * num (length frames)))
    as [[C E] | [C E]]; rewrite E in R; lra.
Qed.

Lemma track_reaches_ahead_witness :
  Forall wfFrame twoFrames
  /\ segments (road (run twoFrames startSim)) <> []
  /\ distanceTraveled (player (run twoFrames startSim)) + 5000
     <= lastZ 0 (segments (road (run twoFrames startSim))).
Proof.
  destruct (track_reaches_ahead (frame60 noInput) [frame60 steerRight]
              twoFrames_wf) as (A & B & _).
  split; [exact twoFrames_wf | split; [exact A | exact B]].
Defined.

(** X2. Bounded memory: in every state of a run every stored segment
    has [z] between [distanceTraveled - 2000] and
    [distanceTraveled + 30000], so at most 321 segments are stored. *)
Theorem track_bounded (frames : list Frame) :
  Forall wfFrame frames ->
  let s := run frames startSim in
  Forall (fun sg => distanceTraveled (player s) - 2000 <= seg_z sg
                    /\ seg_z sg <= distanceTraveled (player s) + 30000)
         (segments (road s))
  /\ (length (segments (road s)) <= 321)%nat.
Proof.
  intros F s.
  pose proof (run_inv frames startSim F startSim_inv) as J. fold s in J.
  destruct J as [_ _ _ _ CH BH _ _ _ UP].
  split.
  - pose proof (chained_upper _ CH) as U.
    rewrite Forall_forall in *. intros sg Hin.
    specialize (BH sg Hin). specialize (U sg Hin). cbv beta in *.
    split; lra.
  - destruct (segments (road s)) as [|sg t] eqn:S; [simpl; lia|].
    cbn [chained] in CH. cbn [lastZ] in UP.
    rewrite (chain_lastZ _ _ CH) in UP.
    inversion BH as [|? ? B0 _]; subst.
    assert (Qn : num (length t) <= 320) by (unfold SEGMENT_LENGTH in UP; lra).
    unfold num in Qn. change 320 with (inject_Z 320) in Qn.
    rewrite <- Zle_Qle in Qn. cbn [length]. lia.
Qed.

Lemma track_bounded_witness :
  Forall wfFrame twoFrames
  /\ (length (segments (road (run twoFrames startSim))) <= 321)%nat.
Proof.
  destruct (track_bounded twoFrames twoFrames_wf) as (_ & B).
  split; [exact twoFrames_wf | exact B].
Defined.

Lemma find_current l dist :
  chained l -> l <> [] ->
  firstZ 100 l <= dist + 100 -> dist <= lastZ 0 l ->
  exists sg, find (fun sg => geb (seg_z sg) dist) l = Some sg
             /\ dist <= seg_z sg /\ seg_z sg <= dist + 100.
Proof.
  induction l as [|sg t IH]; intros CH NE F L; [contradiction NE; reflexivity|].
  cbn [find]. destruct (geb (seg_z sg) dist) eqn:G.
  - exists sg. apply geb_ge in G. cbn [firstZ] in F. auto.
  - assert (B : seg_z sg < dist).
    { apply Qnot_le_lt. intro K. apply geb_ge in K. congruence. }
    destruct t as [|u t']; [cbn [lastZ] in L; lra|].
    apply IH.
    + exact (chain_chained _ _ CH).
    + discriminate.
    + destruct CH as [CH _]. cbn [firstZ]. rewrite CH.
      unfold SEGMENT_LENGTH. lra.
    + exact L.
Qed.

(** X3. In every state of a run after its first frame the curve used by
    the physics is that of the stored segment the vehicle is on: the
    first segment with [z >= distanceTraveled] exists and ends at most
    one [SEGMENT_LENGTH] ahead, so the fall-backs of the lookup (first
    stored segment, then 0) are not taken. *)
Theorem current_segment_under_vehicle (fr : Frame) (frames : list Frame) :
  Forall wfFrame (fr :: frames) ->
  let s := run (fr :: frames) startSim in
  exists sg,
    find (fun sg => geb (seg_z sg) (distanceTraveled (player s)))
         (segments (road s)) = Some sg
    /\ seg_z sg - SEGMENT_LENGTH <= distanceTraveled (player s)
    /\ distanceTraveled (player s) <= seg_z sg
    /\ curveIntensityAt (segments (road s)) (distanceTraveled (player s))
       = seg_curve sg.
Proof.
  intros F s.
  pose proof (run_inv _ startSim F startSim_inv) as J. fold s in J.
  assert (N : segments (road s) <> [])
    by (apply (run_nonempty _ startSim F startSim_inv); discriminate).
  destruct (find_current (segments (road s)) (distanceTraveled (player s)))
    as (sg & E & A & B).
  - exact (ri_chained _ J).
  - exact N.
  - exact (ri_first _ J).
  - pose proof (ri_ahead _ J N). lra.
  - exists sg. split; [exact E|]. unfold SEGMENT_LENGTH.
    split; [lra|]. split; [exact A|].
    unfold curveIntensityAt. rewrite E. reflexivity.
Qed.

Lemma current_segment_under_vehicle_witness :
  Forall wfFrame twoFrames
  /\ exists sg,
       find (fun sg => geb (seg_z sg)
                           (distanceTraveled (player (run twoFrames startSim))))
            (segments (road (run twoFrames startSim))) = Some sg
       /\ distanceTraveled (player (run twoFrames startSim)) <= seg_z sg.
Proof.
  destruct (current_segment_under_vehicle (frame60 noInput)
              [frame60 steerRight] twoFrames_wf) as (sg & E & _ & B & _).
  split; [exact twoFrames_wf|]. exists sg. split; [exact E | exact B].
Defined.

(** X4. In every state of a run, whatever the game state, the time scale
    [slowMoFactor] is within [0.1, 1]; it is 1 while [PLAYING]. *)
Theorem time_scale_range (frames : list Frame) :
  Forall wfFrame frames ->
  let s := run frames startSim in
  1 # 10 <= slowMoFactor (fx s) /\ slowMoFactor (fx s) <= 1
  /\ (gameState s = PLAYING -> slowMoFactor (fx s) == 1).
Proof.
  intros F s.
  pose proof (run_inv frames startSim F startSim_inv) as J. fold s in J.
  destruct (ri_slow _ J) as [A B].
  split; [exact A|]. split; [exact B|].
  intro H. destruct (ri_driving _ J H) as (_ & _ & M). exact M.
Qed.

Lemma time_scale_range_witness :
  Forall wfFrame twoFrames
  /\ 1 # 10 <= slowMoFactor (fx (run twoFrames startSim))
  /\ slowMoFactor (fx (run twoFrames startSim)) <= 1.
Proof.
  destruct (time_scale_range twoFrames twoFrames_wf) as (A & B & _).
  split; [exact twoFrames_wf | split; [exact A | exact B]].
Defined.

(** X5. In every state of a run, crashed or not, the speed is within
    [0, MAX_SPEED] and [distanceTraveled] is not negative; one more frame
    never moves the vehicle backwards and moves it by at most 950 units,
    and in [GAME_OVER] it does not raise the speed. *)
Theorem speed_and_advance_range (frames : list Frame) (fr : Frame) :
  Forall wfFrame frames -> wfFrame fr ->
  let s := run frames startSim in
  0 <= speed (player s) /\ speed (player s) <= MAX_SPEED
  /\ 0 <= distanceTraveled (player s)
  /\ distanceTraveled (player s) <= distanceTraveled (player (tick s fr))
  /\ distanceTraveled (player (tick s fr)) <= distanceTraveled (player s) + 950
  /\ (gameState s = GAME_OVER ->
      speed (player (tick s fr)) <= speed (player s)).
Proof.
  intros F (T0 & T1 & _) s.
  pose proof (run_inv frames startSim F startSim_inv) as J. fold s in J.
  destruct J as [[M0 M1] [S0 S1] D DR _ _ _ _ _ _].
  destruct (scaledDelta_range (frame_dt fr) s T0 T1 M0 M1) as [E0 E1].
  destruct (update_speed_range (frame_dt fr) (frame_inp fr) (frame_draws fr)
              s T0 T1 E0 DR S0 S1) as (V0 & V1 & V2).
  destruct (update_forward (frame_dt fr) (frame_inp fr) (frame_draws fr) s)
    as (DT & _).
  unfold tick. rewrite DT.
  set (v := speed (player (update _ _ _ s))) in *.
  set (e := scaledDelta (frame_dt fr) s) in *.
  unfold MAX_SPEED in *.
  split; [exact S0|]. split; [exact S1|]. split; [exact D|].
  split; [nra|]. split; [nra | exact V2].
Qed.

Lemma speed_and_advance_range_witness :
  Forall wfFrame twoFrames /\ wfFrame (frame60 noInput)
  /\ distanceTraveled (player (run twoFrames startSim))
     <= distanceTraveled (player (tick (run twoFrames startSim)
                                       (frame60 noInput))).
Proof.
  destruct (speed_and_advance_range twoFrames (frame60 noInput) twoFrames_wf
              (wfFrame_frame60 noInput)) as (_ & _ & _ & A & _).
  split; [exact twoFrames_wf | split; [exact (wfFrame_frame60 noInput) | exact A]].
Defined.

(** ** Apexes are scored before they are dropped *)

Lemma Forall2_right (R : ApexPoint -> ApexPoint -> Prop) (P : ApexPoint -> Prop)
      l l' :
  Forall2 R l l' -> (forall a a', R a a' -> P a') -> Forall P l'.
Proof.
  intros H K. induction H as [|a b l1 l2 Rab _ IH]; constructor.
  - exact (K a b Rab).
  - exact IH.
Qed.

(** X6. While driving in a run, [generateRoad] never drops an apex the
    score has not counted: of the apexes stored before a [PLAYING] tick,
    each one the tick's cleanup discards has its [scored] flag set (by
    this tick or an earlier one), because a tick advances by less than
    the 1000 units the cleanup leaves behind the vehicle. *)
Theorem no_apex_dropped_unscored (frames : list Frame) (fr : Frame) :
  Forall wfFrame frames -> wfFrame fr ->
  let s := run frames startSim in
  gameState s = PLAYING ->
  let s' := tick s fr in
  exists aps1 new,
    apexPoints (road s')
    = filter (fun ap => gtb (apex_z ap) (distanceTraveled (player s') - 1000))
             (aps1 ++ new)
    /\ Forall2 (tickFlags (distanceTraveled (player s)))
               (apexPoints (road s)) aps1
    /\ Forall (fun ap =>
                 gtb (apex_z ap) (distanceTraveled (player s') - 1000) = false ->
                 scored ap = true) aps1.
Proof.
  intros F W s H s'. destruct W as (T0 & T1 & R0 & R1).
  pose proof (run_inv frames startSim F startSim_inv) as J. fold s in J.
  destruct J as [[M0 M1] [S0 S1] D DR _ _ _ _ _ _].
  destruct (scaledDelta_range (frame_dt fr) s T0 T1 M0 M1) as [E0 E1].
  destruct (update_speed_range (frame_dt fr) (frame_inp fr) (frame_draws fr)
              s T0 T1 E0 DR S0 S1) as (V0 & V1 & _).
  destruct (update_forward (frame_dt fr) (frame_inp fr) (frame_draws fr) s)
    as (DT & _).
  destruct (update_playing_apexPoints (frame_dt fr) (frame_inp fr)
              (frame_draws fr) s H) as (aps1 & new & E & FL & _).
  fold (tick s fr) in E, DT, V0, V1. fold s' in E, DT, V0, V1.
  exists aps1, new. split; [exact E|]. split; [exact FL|].
  apply (Forall2_right _ _ _ _ FL). intros a a' (Z & _ & SC & _) K.
  apply gtb_le in K. rewrite SC.
  destruct (scored a); [reflexivity|]. cbn [orb].
  apply gtb_gt. rewrite Z in K. rewrite DT in K.
  set (v := speed (player s')) in *.
  set (e := scaledDelta (frame_dt fr) s) in *.
  unfold MAX_SPEED in *. nra.
Qed.

Lemma no_apex_dropped_unscored_witness :
  Forall wfFrame twoFrames /\ wfFrame (frame60 noInput)
  /\ gameState (run twoFrames startSim) = PLAYING
  /\ exists aps1 new,
       apexPoints (road (tick (run twoFrames startSim) (frame60 noInput)))
       = filter (fun ap =>
                   gtb (apex_z ap)
                       (distanceTraveled
                          (player (tick (run twoFrames startSim)
                                        (frame60 noInput))) - 1000))
                (aps1 ++ new)
       /\ Forall (fun ap =>
                    gtb (apex_z ap)
                        (distanceTraveled
                           (player (tick (run twoFrames startSim)
                                         (frame60 noInput))) - 1000) = false ->
                    scored ap = true) aps1.
Proof.
  assert (G : gameState (run twoFrames startSim) = PLAYING)
    by (vm_compute; reflexivity).
  destruct (no_apex_dropped_unscored twoFrames (frame60 noInput) twoFrames_wf
              (wfFrame_frame60 noInput) G) as (aps1 & new & E & _ & K).
  split; [exact twoFrames_wf|]. split; [exact (wfFrame_frame60 noInput)|].
  split; [exact G|]. exists aps1, new. split; [exact E | exact K].
Defined.

(** ** After the crash *)

Lemma update_game_over dt inp d s :
  gameState s = GAME_OVER ->
  let s' := update dt inp d s in
  gameState s' = GAME_OVER
  /\ x (player s') = x (player s) /\ lean (player s') = lean (player s)
  /\ score (player s') = score (player s)
  /\ offRoad (player s') = offRoad (player s)
  /\ trail (player s') = trail (player s)
  /\ speed (player s') = lerp (speed (player s)) 0 (3 * dt)
  /\ crash (player s')
     = (if active (crash (player s)) then fall dt (crash (player s))
        else crash (player s)).
Proof.
  intro H. cbv zeta.
  rewrite (update_other_eq dt inp d s) by (rewrite H; discriminate).
  cbv zeta. cbn [gameState player set_distanceTraveled x lean score offRoad
                 trail speed crash].
  destruct (idle_frame dt inp s) as (I1 & I2 & _ & I4 & _ & I6 & I7 & I8).
  rewrite I1, I2, I4, I6, I7, I8.
  split; [exact H|]. repeat (split; [reflexivity|]).
  split; [unfold accelerate; rewrite H; reflexivity|].
  unfold idle. cbv zeta. rewrite H. cbn [GameState_eqb andb entering player
    set_player set_speed set_targetLean crash].
  destruct (active (crash (player s))); reflexivity.
Qed.

(** X7. [GAME_OVER] is terminal for the simulation: whatever frames
    follow (any time steps, inputs and draws), the state stays
    [GAME_OVER] and the score, the lateral offset, the lean, the off-road
    flag and the trail stay what they were. *)
Theorem game_over_is_terminal (frames : list Frame) (s : Sim) :
  gameState s = GAME_OVER ->
  let s' := run frames s in
  gameState s' = GAME_OVER
  /\ score (player s') = score (player s)
  /\ x (player s') = x (player s) /\ lean (player s') = lean (player s)
  /\ offRoad (player s') = offRoad (player s)
  /\ trail (player s') = trail (player s).
Proof.
  revert s. induction frames as [|fr frames IH]; intros s H; cbv zeta.
  - cbn. repeat split; [exact H | reflexivity..].
  - change (run (fr :: frames) s)
      with (run frames (update (frame_dt fr) (frame_inp fr) (frame_draws fr) s)).
    destruct (update_game_over (frame_dt fr) (frame_inp fr) (frame_draws fr) s H)
      as (G & X & L & SC & O & T & _).
    pose proof (IH _ G) as IH'. cbv zeta in IH'.
    destruct IH' as (G' & SC' & X' & L' & O' & T').
    rewrite SC', X', L', O', T', SC, X, L, O, T.
    repeat split; [exact G' | reflexivity..].
Qed.

Lemma game_over_is_terminal_witness :
  gameState crashed = GAME_OVER
  /\ gameState (run twoFrames crashed) = GAME_OVER
  /\ score (player (run twoFrames crashed)) = score (player crashed).
Proof.
  assert (G : gameState crashed = GAME_OVER) by (vm_compute; reflexivity).
  destruct (game_over_is_terminal twoFrames crashed G) as (A & B & _).
  split; [exact G | split; [exact A | exact B]].
Defined.

(** X8. The fall keeps its direction: after any frames in [GAME_OVER]
    with an active crash and time steps that are not negative, the crash
    is still active with the same [vx] and [vRot]; the vertical velocity
    has not decreased (gravity only adds to it), and the sideways drift
    and the rotation have moved only to the side the wreck was flung and
    spun to. *)
Theorem fall_keeps_direction (frames : list Frame) (s : Sim) :
  gameState s = GAME_OVER -> active (crash (player s)) = true ->
  Forall wfFrame frames ->
  let c := crash (player s) in
  let c' := crash (player (run frames s)) in
  active c' = true /\ vx c' = vx c /\ vRot c' = vRot c
  /\ vy c <= vy c'
  /\ (0 <= vx c -> crash_x c <= crash_x c')
  /\ (vx c <= 0 -> crash_x c' <= crash_x c)
  /\ (0 <= vRot c -> rot c <= rot c')
  /\ (vRot c <= 0 -> rot c' <= rot c).
Proof.
  intros H A F. revert s H A.
  induction F as [|fr frames W _ IH]; intros s H A; cbv zeta.
  - change (run [] s) with s.
    split; [exact A|]. split; [reflexivity|]. split; [reflexivity|].
    split; [apply Qle_refl|].
    split; [intros _; apply Qle_refl|]. split; [intros _; apply Qle_refl|].
    split; intros _; apply Qle_refl.
  - change (run (fr :: frames) s)
      with (run frames (update (frame_dt fr) (frame_inp fr) (frame_draws fr) s)).
    destruct W as (T0 & _).
    destruct (update_game_over (frame_dt fr) (frame_inp fr) (frame_draws fr) s H)
      as (G & _ & _ & _ & _ & _ & _ & C).
    rewrite A in C.
    assert (A' : active (crash (player (update (frame_dt fr) (frame_inp fr)
                                               (frame_draws fr) s))) = true)
      by (rewrite C; exact A).
    pose proof (IH _ G A') as IH'. cbv zeta in IH'.
    destruct IH' as (I1 & I2 & I3 & I4 & I5 & I6 & I7 & I8).
    rewrite C in I2, I3, I4, I5, I6, I7, I8.
    cbn [fall vx vRot crash_x rot vy] in *.
    set (dt := frame_dt fr) in *.
    split; [exact I1|]. split; [exact I2|]. split; [exact I3|].
    split; [lra|].
    split; [intro P; specialize (I5 P);
            pose proof (Qmult_le_0_compat _ _ P T0); lra|].
    split; [intro P; specialize (I6 P);
            assert (0 <= (- vx (crash (player s))) * dt)
              by (apply Qmult_le_0_compat; lra); lra|].
    split; [intro P; specialize (I7 P);
            pose proof (Qmult_le_0_compat _ _ P T0); lra|].
    intro P. specialize (I8 P).
    assert (0 <= (- vRot (crash (player s))) * dt)
      by (apply Qmult_le_0_compat; lra).
    lra.
Qed.

Lemma fall_keeps_direction_witness :
  gameState crashed = GAME_OVER /\ active (crash (player crashed)) = true
  /\ Forall wfFrame twoFrames
  /\ vy (crash (player crashed)) <= vy (crash (player (run twoFrames crashed))).
Proof.
  assert (G : gameState crashed = GAME_OVER) by (vm_compute; reflexivity).
  assert (A : active (crash (player crashed)) = true)
    by (vm_compute; reflexivity).
  destruct (fall_keeps_direction twoFrames crashed G A twoFrames_wf)
    as (_ & _ & _ & K & _).
  split; [exact G | split; [exact A | split; [exact twoFrames_wf | exact K]]].
Defined.

(** ** The tick that crashes *)

(** X9. On the [PLAYING] tick whose updated offset passes
    [COLLISION_THRESHOLD], the crash state is created active at the
    origin, flung to the side the vehicle is on at half the speed the
    tick ends with, hopping up at 300, rotated by the tick's lean and
    spinning at 15 to that side; the time scale drops to 0.1 and the
    shake rises to 80, both already relaxed once by the tick's FX step. *)
Theorem crash_tick_state (dt : Q) (inp : Inputs) (d : Draws) (s : Sim) :
  gameState s = PLAYING ->
  let s' := update dt inp d s in
  COLLISION_THRESHOLD < Qabs (x (player s')) ->
  exists flyDir,
    crash (player s')
    = mkCrash true 0 0 (flyDir * (speed (player s') * (1 # 2))) (-300)
              (lean (player s')) (flyDir * 15)
    /\ (COLLISION_THRESHOLD < x (player s') -> flyDir = 1)
    /\ (x (player s') < - COLLISION_THRESHOLD -> flyDir = -1)
    /\ gameState s' = GAME_OVER
    /\ slowMoFactor (fx s') = lerp (1 # 10) 1 (1 * dt)
    /\ shake (fx s') = lerp 80 0 (5 * dt).
Proof.
  intros H s' C.
  destruct (update_playing_frame dt inp d s H) as (X & _ & _ & G & _).
  fold s' in X, G. apply gtb_gt in C.
  assert (C' : gtb (Qabs (lateralOffsetAfter dt inp s)) COLLISION_THRESHOLD
               = true) by (rewrite <- X; exact C).
  rewrite C' in G.
  exists (if gtb (x (player s')) 0 then 1 else -1).
  split; [|split; [|split; [|split; [exact G|]]]].
  - unfold s'. rewrite (update_playing dt inp d s H). cbv zeta.
    rewrite driven_eq. cbv zeta. rewrite C'. reflexivity.
  - intro P. unfold COLLISION_THRESHOLD in P.
    assert (P' : gtb (x (player s')) 0 = true) by (apply gtb_gt; lra).
    rewrite P'. reflexivity.
  - intro P. unfold COLLISION_THRESHOLD in P.
    assert (P' : gtb (x (player s')) 0 = false) by (apply gtb_le; lra).
    rewrite P'. reflexivity.
  - unfold s'. rewrite (update_playing dt inp d s H). cbv zeta.
    rewrite driven_eq. cbv zeta. rewrite C'. split; reflexivity.
Qed.

Lemma crash_tick_state_witness :
  gameState beyondBarrier = PLAYING
  /\ COLLISION_THRESHOLD < Qabs (x (player crashed))
  /\ exists flyDir,
       crash (player crashed)
       = mkCrash true 0 0 (flyDir * (speed (player crashed) * (1 # 2))) (-300)
                 (lean (player crashed)) (flyDir * 15)
       /\ flyDir = 1.
Proof.
  assert (C : COLLISION_THRESHOLD < Qabs (x (player crashed)))
    by (vm_compute; reflexivity).
  destruct (crash_tick_state (1 # 10) steerRight draws_long beyondBarrier
              eq_refl C) as (flyDir & E & P & _).
  split; [reflexivity | split; [exact C|]].
  exists flyDir. split; [exact E|]. apply P. vm_compute. reflexivity.
Defined.

(** ** The trail *)

Lemma trailStep_ok delta frame p dist :
  0 <= delta -> distanceTraveled p <= dist ->
  Forall (trailPointOk dist) (trail p) ->
  Forall (trailPointOk dist) (trail (trailStep delta frame p)).
Proof.
  intros D0 Dp F. unfold trailStep. cbn [trail set_trail].
  apply Forall_forall. intros pt Hin.
  apply filter_In in Hin. destruct Hin as [Hin A]. apply gtb_gt in A.
  apply in_map_iff in Hin. destruct Hin as (q & <- & Hq).
  cbn [alpha trail_z] in *.
  assert (Q : trailPointOk dist q).
  { destruct (Nat.eqb (frame mod 2) 0).
    - apply in_app_or in Hq. destruct Hq as [Hq | [<- | []]].
      + rewrite Forall_forall in F. exact (F q Hq).
      + unfold trailPointOk. cbn. repeat split; lra.
    - rewrite Forall_forall in F. exact (F q Hq). }
  destruct Q as (Q0 & Q1 & Q2). unfold trailPointOk. cbn [alpha trail_z].
  split; [exact A|]. split; [lra | exact Q2].
Qed.

Lemma apexDetection_trail s : trail (player (apexDetection s)) = trail (player s).
Proof. destruct (apexDetection_outcome s); reflexivity. Qed.

Lemma boundary_trail delta absX s :
  trail (player (boundary delta absX s)) = trail (player s).
Proof.
  unfold boundary. cbn [offRoad set_offRoad].
  destruct (gtb absX OFF_ROAD_LIMIT); reflexivity.
Qed.

Lemma drive_trail delta dx ci s :
  exists p1,
    trail (player (drive delta dx ci s)) = trail (trailStep delta (frameId s) p1)
    /\ trail p1 = trail (player s)
    /\ distanceTraveled p1 = distanceTraveled (player s).
Proof.
  rewrite drive_eq. cbv zeta.
  set (lean' := lerp (lean (player s)) (targetLean (player s))
                     (LEAN_SMOOTHING * delta)).
  set (x' := lateral delta dx ci (set_lean lean' (player s))).
  set (s0 := set_player (set_x x' (set_lean lean' (player s))) s).
  exists (player (boundary delta (Qabs x') s0)).
  destruct (boundary_player_frame delta (Qabs x') s0)
    as (_ & _ & _ & B4 & _).
  destruct (boundary_sim_frame delta (Qabs x') s0) as (_ & _ & B11 & _).
  split; [|split; [rewrite boundary_trail; reflexivity | rewrite B4; reflexivity]].
  assert (E : trail (player (scoring (apexDetection (beforeApex delta dx ci s))))
              = trail (trailStep delta (frameId s)
                         (player (boundary delta (Qabs x') s0)))).
  { rewrite scoring_eq. cbv zeta. cbn [player set_player set_score trail].
    rewrite apexDetection_trail. unfold beforeApex. cbv zeta.
    fold lean' x' s0. cbn [player set_player]. rewrite B11. reflexivity. }
  destruct (gtb _ _); exact E.
Qed.

Lemma update_trail_ok dt inp d s :
  0 <= scaledDelta dt s ->
  distanceTraveled (player s) <= distanceTraveled (player (update dt inp d s)) ->
  Forall (trailPointOk (distanceTraveled (player s))) (trail (player s)) ->
  Forall (trailPointOk (distanceTraveled (player (update dt inp d s))))
         (trail (player (update dt inp d s))).
Proof.
  intros E0 ADV F.
  assert (W : forall dist dist' l, dist <= dist' ->
                Forall (trailPointOk dist) l -> Forall (trailPointOk dist') l).
  { intros dist dist' l Le. apply Forall_impl. intros pt (A & B & C).
    repeat split; try assumption. lra. }
  destruct (playing_dec s) as [H | H].
  - apply (W _ _ _ ADV).
    rewrite (update_playing dt inp d s H). cbv zeta.
    cbn [player set_distanceTraveled trail]. unfold driven.
    set (s0 := entering dt inp s).
    destruct (drive_trail (scaledDelta dt s)
                (scaledDelta dt s * 2 * (speed (player s0) / MAX_SPEED))
                (curveIntensityAt (segments (road s))
                                  (distanceTraveled (player s))) s0)
      as (p1 & -> & T & D).
    apply trailStep_ok; [exact E0 | rewrite D; apply Qle_refl|].
    rewrite T. exact F.
  - apply (W _ _ _ ADV).
    rewrite (update_other_eq dt inp d s H). cbv zeta.
    cbn [player set_distanceTraveled trail].
    destruct (idle_frame dt inp s) as (_ & _ & _ & _ & _ & _ & _ & T).
    rewrite T. exact F.
Qed.

Lemma run_trail_ok frames s :
  Forall wfFrame frames -> runInv s ->
  Forall (trailPointOk (distanceTraveled (player s))) (trail (player s)) ->
  Forall (trailPointOk (distanceTraveled (player (run frames s))))
         (trail (player (run frames s))).
Proof.
  intro F. revert s. induction F as [|fr frames W _ IH]; intros s J T;
    [exact T|].
  change (run (fr :: frames) s) with (run frames (tick s fr)).
  apply IH; [apply (tick_reach s fr J W)|].
  destruct W as (T0 & T1 & R0 & R1).
  destruct J as [[M0 M1] [S0 S1] D DR _ _ _ _ _ _].
  destruct (scaledDelta_range (frame_dt fr) s T0 T1 M0 M1) as [E0 E1].
  destruct (update_speed_range (frame_dt fr) (frame_inp fr) (frame_draws fr)
              s T0 T1 E0 DR S0 S1) as (V0 & _).
  destruct (update_forward (frame_dt fr) (frame_inp fr) (frame_draws fr) s)
    as (DT & _).
  unfold tick. apply update_trail_ok; [exact E0| |exact T].
  rewrite DT.
  set (v := speed (player (update _ _ _ s))) in *.
  set (e := scaledDelta (frame_dt fr) s) in *. nra.
Qed.

(** X10. In every state of a run every trail point has an opacity in
    (0, 1] and was recorded at or behind the vehicle's present
    [distanceTraveled]. *)
Theorem trail_points_ok (frames : list Frame) :
  Forall wfFrame frames ->
  let s := run frames startSim in
  Forall (trailPointOk (distanceTraveled (player s))) (trail (player s)).
Proof.
  intros F s. apply (run_trail_ok frames startSim F startSim_inv).
  constructor.
Qed.

Lemma trail_points_ok_witness :
  Forall wfFrame twoFrames
  /\ length (trail (player (run twoFrames startSim))) = 1%nat
  /\ Forall (trailPointOk (distanceTraveled (player (run twoFrames startSim))))
            (trail (player (run twoFrames startSim))).
Proof.
  split; [exact twoFrames_wf|]. split; [vm_compute; reflexivity|].
  exact (trail_points_ok twoFrames twoFrames_wf).
Defined.

(** ** utils/gameUtils.ts *)

(** X12. [clamp] never returns less than [min]; when [min <= max] the
    result is within [min, max] and is [val] itself when [val] already
    is; when the bounds are crossed it returns [min]. *)
Theorem clamp_range (val lo hi : Q) :
  lo <= clamp val lo hi
  /\ (lo <= hi -> clamp val lo hi <= hi)
  /\ (lo <= val -> val <= hi -> clamp val lo hi == val)
  /\ (hi < lo -> clamp val lo hi == lo).
Proof.
  unfold clamp.
  destruct (Q.min_spec hi val) as [[C E] | [C E]];
    destruct (Q.max_spec lo (Qmin hi val)) as [[C' E'] | [C' E']];
    rewrite E in *; rewrite E'.
  all: split; [lra|]; split; [intro; lra|]; split; [intros; lra|intro; lra].
Qed.

Lemma clamp_range_witness :
  0 <= 1 /\ clamp 5 0 1 <= 1.
Proof.
  destruct (clamp_range 5 0 1) as (_ & H & _).
  assert (A : 0 <= 1) by (vm_compute; discriminate).
  split; [exact A | exact (H A)].
Defined.

Lemma easeOutBack_factor x :
  easeOutBack x - 1
  == (x - 1) * (x - 1) * ((270158 # 100000) * (x - 1) + (170158 # 100000)).
Proof.
  unfold easeOutBack. cbv zeta.
  unfold Qpower, Qpower_positive. cbn [pow_pos Pos.iter_op].
  ring.
Qed.

(** X14. [easeOutBack] ends at 1 and overshoots it on the way: its value
    is above 1 from 0.3702 to 0.999 and below 1 up to 0.37.  The exact
    value crosses 1 at [1 / 2.70158], about 0.37015, and reaches it again
    at 1; the two ranges stay clear of these points by more than the
    rounding of the source can move the value. *)
Theorem easeOutBack_overshoot (x : Q) :
  easeOutBack 1 == 1
  /\ (3702 # 10000 <= x -> x <= 999 # 1000 -> 1 < easeOutBack x)
  /\ (x <= 37 # 100 -> easeOutBack x < 1).
Proof.
  split; [vm_compute; reflexivity|].
  pose proof (easeOutBack_factor x) as E.
  set (y := x - 1) in *.
  split.
  - intros L U.
    assert (Y : 0 < y * y) by (unfold y; nra).
    assert (G : 0 < (270158 # 100000) * y + (170158 # 100000))
      by (unfold y; lra).
    assert (P : 0 < y * y * ((270158 # 100000) * y + (170158 # 100000)))
      by (apply Qmult_lt_0_compat; assumption).
    lra.
  - intro L.
    assert (Y : 0 < y * y) by (unfold y in *; nra).
    assert (G : 0 < - ((270158 # 100000) * y + (170158 # 100000)))
      by (unfold y; lra).
    assert (P : 0 < y * y * - ((270158 # 100000) * y + (170158 # 100000)))
      by (apply Qmult_lt_0_compat; assumption).
    lra.
Qed.

Lemma easeOutBack_overshoot_witness :
  3702 # 10000 <= 1 # 2 /\ 1 # 2 <= 999 # 1000 /\ 1 < easeOutBack (1 # 2).
Proof.
  destruct (easeOutBack_overshoot (1 # 2)) as (_ & H & _).
  assert (A : 3702 # 10000 <= 1 # 2) by (vm_compute; discriminate).
  assert (B : 1 # 2 <= 999 # 1000) by (vm_compute; discriminate).
  split; [exact A | split; [exact B | exact (H A B)]].
Defined.

(** ** Input event listeners *)

Lemma touchEnd_fold width touches l0 r0 :
  fold_left (fun '(left_, right_) clientX =>
               if gtb clientX (width / 2) then (left_, true)
               else (true, right_))
            touches (l0, r0)
  = (l0 || existsb (fun cx => negb (gtb cx (width / 2))) touches,
     r0 || existsb (fun cx => gtb cx (width / 2)) touches).
Proof.
  revert l0 r0. induction touches as [|cx t IH]; intros l0 r0; simpl.
  - rewrite !orb_false_r. reflexivity.
  - destruct (gtb cx (width / 2)); rewrite IH; simpl.
    + rewrite orb_true_r. reflexivity.
    + rewrite orb_true_r. reflexivity.
Qed.

Lemma touchStart_fold width touches inp :
  fold_left (fun acc clientX =>
               if gtb clientX (width / 2) then mkInputs (inp_left acc) true
               else mkInputs true (inp_right acc))
            touches inp
  = mkInputs (inp_left inp || existsb (fun cx => negb (gtb cx (width / 2))) touches)
             (inp_right inp || existsb (fun cx => gtb cx (width / 2)) touches).
Proof.
  revert inp. induction touches as [|cx t IH]; intro inp; simpl.
  - rewrite !orb_false_r. destruct inp; reflexivity.
  - destruct (gtb cx (width / 2)); rewrite IH; simpl.
    + rewrite orb_true_r. reflexivity.
    + rewrite orb_true_r. reflexivity.
Qed.

(** X15. Touch steering.  When a touch ends the two flags are recomputed
    from the touches that remain: left is held iff one of them is on the
    left half of the window, right iff one is on the right half, whatever
    the flags were, so with no touch left both are released.  When a
    touch starts while [PLAYING] each side that has a touch is raised and
    nothing is released; outside [PLAYING] the flags are not touched. *)
Theorem touch_steering (width : Q) (touches : list Q) (inp : Inputs)
                       (gs : GameState) :
  handleTouchEnd width touches
  = mkInputs (existsb (fun cx => negb (gtb cx (width / 2))) touches)
             (existsb (fun cx => gtb cx (width / 2)) touches)
  /\ handleTouchStart PLAYING width touches inp
     = mkInputs
         (inp_left inp || existsb (fun cx => negb (gtb cx (width / 2))) touches)
         (inp_right inp || existsb (fun cx => gtb cx (width / 2)) touches)
  /\ (gs <> PLAYING -> handleTouchStart gs width touches inp = inp).
Proof.
  split; [|split].
  - unfold handleTouchEnd. rewrite touchEnd_fold. reflexivity.
  - unfold handleTouchStart. cbn [GameState_eqb negb]. apply touchStart_fold.
  - intro H. unfold handleTouchStart.
    destruct gs; [reflexivity | contradiction H; reflexivity | reflexivity].
Qed.

Lemma touch_steering_witness :
  GAME_OVER <> PLAYING
  /\ handleTouchStart GAME_OVER 800 [100; 700] noInput = noInput.
Proof.
  assert (A : GAME_OVER <> PLAYING) by discriminate.
  destruct (touch_steering 800 [100; 700] noInput GAME_OVER) as (_ & _ & H).
  split; [exact A | exact (H A)].
Defined.

(** ** The time step of the render loop *)

Lemma renderDeltas_upper lastTime times :
  Forall (fun dt => dt <= 1 # 10) (renderDeltas lastTime times).
Proof.
  revert lastTime. induction times as [|t rest IH]; intro lastTime; simpl;
    constructor; [apply Q.le_min_r | apply IH].
Qed.

(** X16. The time steps the render loop hands to [update] never exceed
    0.1 s and, for timestamps that do not go backwards, are never
    negative, one per animation frame; on the first frame after the
    reset of [lastTimeRef] to 0 the step is 0. *)
Theorem render_time_step (lastTime : Q) (times : list Q) :
  length (renderDeltas lastTime times) = length times
  /\ Forall (fun dt => dt <= 1 # 10) (renderDeltas lastTime times)
  /\ (StronglySorted Qle (lastTime :: times) ->
      Forall (fun dt => 0 <= dt) (renderDeltas lastTime times))
  /\ (forall t, hd 1 (renderDeltas 0 (t :: times)) == 0).
Proof.
  split; [|split; [apply renderDeltas_upper|split]].
  - revert lastTime. induction times as [|t rest IH]; intro lastTime; simpl;
      [reflexivity | rewrite IH; reflexivity].
  - revert lastTime. induction times as [|t rest IH]; intros lastTime S;
      simpl; constructor.
    + apply StronglySorted_inv in S. destruct S as [_ F].
      apply Forall_inv in F.
      apply Q.min_glb; [|lra].
      destruct (eqb lastTime 0).
      * unfold Qdiv. setoid_replace (t - t) with 0 by ring. lra.
      * apply Qle_shift_div_l; lra.
    + apply IH. apply StronglySorted_inv in S. exact (proj1 S).
  - intro t.
    cbn [renderDeltas renderDelta hd snd]. change (eqb 0 0) with true.
    cbv iota zeta. cbn [snd hd].
    assert (E : (t - t) / 1000 == 0) by (unfold Qdiv; ring).
    rewrite E. vm_compute. reflexivity.
Qed.

Lemma render_time_step_witness :
  StronglySorted Qle (0 :: sampleTimes)
  /\ Forall (fun dt => 0 <= dt) (renderDeltas 0 sampleTimes)
  /\ Forall (fun dt => dt <= 1 # 10) (renderDeltas 0 sampleTimes).
Proof.
  assert (S : StronglySorted Qle (0 :: sampleTimes)).
  { repeat constructor; vm_compute; discriminate. }
  destruct (render_time_step 0 sampleTimes) as (_ & U & L & _).
  split; [exact S | split; [exact (L S) | exact U]].
Defined.

(** ** The high score *)

Lemma highScoreEffect_max score high : highScoreEffect score high = Z.max score high.
Proof.
  unfold highScoreEffect. destruct (score >? high)%Z eqn:C; lia.
Qed.

(** X17. After any succession of scores the stored high score is not
    below the one it started from nor below any of those scores, and it
    is one of these values. *)
Theorem high_score_is_best (scores : list Z) (high : Z) :
  (high <= highScoreAfter scores high)%Z
  /\ Forall (fun sc => (sc <= highScoreAfter scores high)%Z) scores
  /\ (highScoreAfter scores high = high
      \/ In (highScoreAfter scores high) scores).
Proof.
  unfold highScoreAfter. revert high.
  induction scores as [|sc t IH]; intro high; simpl.
  - split; [lia|]. split; [constructor | left; reflexivity].
  - destruct (IH (highScoreEffect sc high)) as (A & B & C).
    rewrite highScoreEffect_max in *.
    split; [lia|]. split.
    + constructor; [lia | exact B].
    + destruct C as [C | C]; [|right; right; exact C].
      rewrite C. destruct (Z.max_spec sc high) as [[_ ->] | [_ ->]]; auto.
Qed.

(** ** Which apexes a pattern creates *)

Lemma curve_sharp i dir :
  2 < i -> dir = 1 \/ dir = -1 ->
  gtb (Qabs (i * dir)) 2 = true /\ sign (i * dir) = dir
  /\ gtb (Qabs (- i * dir)) 2 = true /\ sign (- i * dir) = - dir.
Proof.
  intros I [-> | ->].
  - assert (P : 0 < i * 1) by lra. assert (N : - i * 1 < 0) by lra.
    split; [apply gtb_gt; rewrite Qabs_pos; lra|].
    split; [destruct (sign_cases (i * 1)) as [[C _] | [[C _] | [_ E]]];
            [lra | lra | exact E]|].
    split; [apply gtb_gt; rewrite Qabs_neg; lra|].
    destruct (sign_cases (- i * 1)) as [[_ E] | [[C _] | [C _]]];
      [exact E | lra | lra].
  - assert (N : i * -1 < 0) by lra. assert (P : 0 < - i * -1) by lra.
    split; [apply gtb_gt; rewrite Qabs_neg; lra|].
    split; [destruct (sign_cases (i * -1)) as [[_ E] | [[C _] | [C _]]];
            [exact E | lra | lra]|].
    split; [apply gtb_gt; rewrite Qabs_pos; lra|].
    destruct (sign_cases (- i * -1)) as [[C _] | [[C _] | [_ E]]];
      [lra | lra | exact E].
Qed.

Lemma drawDir_cases d : drawDir d = 1 \/ drawDir d = -1.
Proof. unfold drawDir. destruct (gtb _ _); auto. Qed.

Lemma addTrackSegment_sharp enter hold exit curve r :
  gtb (Qabs curve) 2 = true ->
  apexPoints (addTrackSegment enter hold exit curve r)
  = apexPoints r
    ++ [mkApex (lastZ 0 (segments r) + (enter + hold / 2) * SEGMENT_LENGTH)
               (sign curve) false false].
Proof.
  intro H. unfold addTrackSegment. cbn [apexPoints]. rewrite H. reflexivity.
Qed.

Lemma addTrackSegment_lastZ (e x : nat) (hold curve : Q) (r : Road) :
  x = O \/ hold == num (iters hold) ->
  lastZ 0 (segments (addTrackSegment (num e) hold (num x) curve r))
  == lastZ 0 (segments r) + num (e + iters hold + x) * SEGMENT_LENGTH.
Proof.
  intro Hx.
  destruct (addTrackSegment_block e x hold curve r Hx) as (B & E & C & L).
  rewrite E, (lastZ_append _ _ C), L. reflexivity.
Qed.

(** X18. What one pattern of the generator adds to the apex list, for a
    range draw that is not negative, with [L] the end of the track before
    it: a straight (pattern draw below 0.2) adds none; a medium curve
    (below 0.5) one at [L + 3000]; an S-curve (below 0.8) two, at
    [L + 2000] and [L + 6000], the second on the opposite side; a long
    hard turn one at [L + 5000].  Each new apex is neither hit nor scored
    and its direction is the drawn side. *)
Theorem pattern_apexes (d : Draws) (r : Road) :
  0 <= range d ->
  let L := lastZ 0 (segments r) in
  exists new,
    apexPoints (addPattern (choosePattern d) r) = apexPoints r ++ new
    /\ Forall fresh new
    /\ (pattern d < 2 # 10 -> new = [])
    /\ (2 # 10 <= pattern d -> pattern d < 5 # 10 ->
        map direction new = [drawDir d]
        /\ Forall2 Qeq (map apex_z new) [L + 3000])
    /\ (5 # 10 <= pattern d -> pattern d < 8 # 10 ->
        map direction new = [drawDir d; - drawDir d]
        /\ Forall2 Qeq (map apex_z new) [L + 2000; L + 6000])
    /\ (8 # 10 <= pattern d ->
        map direction new = [drawDir d]
        /\ Forall2 Qeq (map apex_z new) [L + 5000]).
Proof.
  intros U L. unfold choosePattern.
  pose proof (drawDir_cases d) as D.
  destruct (ltb (pattern d) (20 # 100)) eqn:P1.
  { apply ltb_lt in P1. exists []. cbn [addPattern].
    split.
    - unfold addTrackSegment. cbn [apexPoints].
      change (gtb (Qabs 0) 2) with false. cbv iota.
      rewrite app_nil_r. reflexivity.
    - split; [constructor|]. split; [reflexivity|].
      split; [intros; exfalso; lra|].
      split; [intros; exfalso; lra | intros; exfalso; lra]. }
  apply ltb_ge in P1.
  destruct (ltb (pattern d) (5 # 10)) eqn:P2.
  { apply ltb_lt in P2. cbn [addPattern].
    assert (I : 2 < randomRange (range d) 3 6) by (unfold randomRange; lra).
    destruct (curve_sharp _ _ I D) as (S1 & S2 & _ & _).
    rewrite (addTrackSegment_sharp _ _ _ _ _ S1), S2.
    eexists. split; [reflexivity|].
    split; [repeat constructor|]. split; [intros; exfalso; lra|].
    split; [|split; intros; exfalso; lra].
    intros _ _. split; [reflexivity|]. cbn [map apex_z].
    constructor; [|constructor]. fold L.
    change SEGMENT_LENGTH with 100. unfold Qdiv.
    change (/ 2) with (1 # 2). ring. }
  apply ltb_ge in P2.
  destruct (ltb (pattern d) (8 # 10)) eqn:P3.
  { apply ltb_lt in P3. cbn [addPattern].
    assert (I : 2 < randomRange (range d) 4 7) by (unfold randomRange; lra).
    destruct (curve_sharp _ _ I D) as (S1 & S2 & S3 & S4).
    rewrite (addTrackSegment_sharp _ _ _ _ _ S3), S4.
    rewrite (addTrackSegment_sharp _ _ _ _ _ S1), S2.
    rewrite <- app_assoc. cbn [app].
    eexists. split; [reflexivity|].
    split; [repeat constructor|]. split; [intros; exfalso; lra|].
    split; [intros; exfalso; lra|]. split; [|intros; exfalso; lra].
    intros _ _. split; [reflexivity|]. cbn [map apex_z].
    constructor; [|constructor; [|constructor]].
    - fold L. change SEGMENT_LENGTH with 100. unfold Qdiv.
      change (/ 2) with (1 # 2). ring.
    - pose proof (addTrackSegment_lastZ 15 15 10
                    (randomRange (range d) 4 7 * drawDir d) r
                    (or_intror eq_refl)) as Z.
      change (num 15) with 15 in Z. rewrite Z. fold L.
      change (num (15 + iters 10 + 15)) with 40.
      change SEGMENT_LENGTH with 100. unfold Qdiv.
      change (/ 2) with (1 # 2). ring. }
  apply ltb_ge in P3. cbn [addPattern].
  assert (I : 2 < randomRange (range d) 5 8) by (unfold randomRange; lra).
  destruct (curve_sharp _ _ I D) as (S1 & S2 & _ & _).
  rewrite (addTrackSegment_sharp _ _ _ _ _ S1), S2.
  eexists. split; [reflexivity|].
  split; [repeat constructor|]. split; [intros; exfalso; lra|].
  split; [intros; exfalso; lra|]. split; [intros; exfalso; lra|].
  intros _. split; [reflexivity|]. cbn [map apex_z].
  constructor; [|constructor]. fold L.
  change SEGMENT_LENGTH with 100. unfold Qdiv.
  change (/ 2) with (1 # 2). ring.
Qed.

Lemma pattern_apexes_witness :
  0 <= range draws_long
  /\ exists new,
       apexPoints (addPattern (choosePattern draws_long)
                              (initialRoad emptyRoad)) = new
       /\ map direction new = [drawDir draws_long]
       /\ Forall2 Qeq (map apex_z new) [5000 + 5000].
Proof.
  assert (A : 0 <= range draws_long) by (vm_compute; discriminate).
  destruct (pattern_apexes draws_long (initialRoad emptyRoad) A)
    as (new & E & _ & _ & _ & _ & H).
  assert (B : 8 # 10 <= pattern draws_long) by (vm_compute; discriminate).
  destruct (H B) as [H1 H2].
  split; [exact A|]. exists new.
  split; [exact E | split; [exact H1 | exact H2]].
Defined.

(** ** The road pass of the renderer *)

Lemma projectSegments_samples W H pX pZ segs : forall dx cx s,
  In s (fst (projectSegments W H pX pZ dx cx segs)) ->
  exists sg worldX,
    In sg segs /\ 10 <= seg_z sg - pZ
    /\ s = mkSample (project worldX (- CAMERA_HEIGHT) (seg_z sg - pZ) 0 0 0
                             CAMERA_DEPTH W H ROAD_WIDTH)
                    (seg_color sg).
Proof.
  induction segs as [|sg rest IH]; intros dx cx s I; [destruct I|].
  cbn [projectSegments] in I. cbv zeta in I.
  specialize (IH (dx + seg_curve sg) (cx + (dx + seg_curve sg)) s).
  destruct (projectSegments W H pX pZ (dx + seg_curve sg)
              (cx + (dx + seg_curve sg)) rest) as [sl ts].
  destruct (ltb (seg_z sg - pZ) 10) eqn:C; cbn [fst] in *.
  - destruct (IH I) as (sg' & wx & I' & R). exists sg', wx.
    split; [right; exact I' | exact R].
  - destruct I as [I | I].
    + apply ltb_ge in C. eexists sg, _.
      split; [left; reflexivity|]. split; [exact C | symmetry; exact I].
    + destruct (IH I) as (sg' & wx & I' & R). exists sg', wx.
      split; [right; exact I' | exact R].
Qed.

Lemma projectSegments_lengths W H pX pZ segs : forall dx cx,
  (length (fst (projectSegments W H pX pZ dx cx segs))
   <= length (snd (projectSegments W H pX pZ dx cx segs)))%nat
  /\ length (snd (projectSegments W H pX pZ dx cx segs)) = length segs.
Proof.
  induction segs as [|sg rest IH]; intros dx cx; [split; reflexivity|].
  cbn [projectSegments]. cbv zeta.
  specialize (IH (dx + seg_curve sg) (cx + (dx + seg_curve sg))).
  destruct (projectSegments W H pX pZ (dx + seg_curve sg)
              (cx + (dx + seg_curve sg)) rest) as [sl ts].
  cbn [fst snd] in IH.
  destruct (ltb (seg_z sg - pZ) 10); cbn [fst snd length]; lia.
Qed.

Lemma projectSegments_all W H pX pZ segs : forall dx cx,
  Forall (fun sg => 10 <= seg_z sg - pZ) segs ->
  length (fst (projectSegments W H pX pZ dx cx segs)) = length segs.
Proof.
  induction segs as [|sg rest IH]; intros dx cx F; [reflexivity|].
  cbn [projectSegments]. cbv zeta.
  inversion F as [|? ? F1 F2]; subst.
  specialize (IH (dx + seg_curve sg) (cx + (dx + seg_curve sg)) F2).
  destruct (projectSegments W H pX pZ (dx + seg_curve sg)
              (cx + (dx + seg_curve sg)) rest) as [sl ts].
  cbn [fst] in IH. apply ltb_ge in F1. rewrite F1. cbn [fst length].
  rewrite IH. reflexivity.
Qed.

Lemma projectSegments_cons W H pX pZ sg rest dx cx :
  (length (fst (projectSegments W H pX pZ (dx + seg_curve sg)
                  (cx + (dx + seg_curve sg)) rest))
   <= length (fst (projectSegments W H pX pZ dx cx (sg :: rest))))%nat.
Proof.
  cbn [projectSegments]. cbv zeta.
  destruct (projectSegments W H pX pZ (dx + seg_curve sg)
              (cx + (dx + seg_curve sg)) rest) as [sl ts].
  destruct (ltb (seg_z sg - pZ) 10); cbn [fst length]; lia.
Qed.

Lemma round_mono a b : a <= b -> (round a <= round b)%Z.
Proof. intro H. unfold round. apply Qfloor_resp_le. lra. Qed.

Lemma scale_at z :
  10 <= z ->
  0 < CAMERA_DEPTH / Qmax 10 (z - 0)
  /\ CAMERA_DEPTH / Qmax 10 (z - 0) * z == 8 # 10.
Proof.
  intro Z.
  assert (M : Qmax 10 (z - 0) == z) by (rewrite Q.max_r; lra).
  rewrite M. unfold CAMERA_DEPTH. split.
  - apply Qlt_shift_div_l; lra.
  - field. lra.
Qed.

Lemma project_bounds x z W H :
  0 <= W -> 0 <= H -> 10 <= z ->
  let p := project x (- CAMERA_HEIGHT) z 0 0 0 CAMERA_DEPTH W H ROAD_WIDTH in
  0 < scale p /\ scale p <= 8 # 100
  /\ (round (H / 2) <= screenY p)%Z /\ (0 <= w p)%Z.
Proof.
  intros HW HH Z p. unfold p, project. cbn [scale screenY w].
  destruct (scale_at z Z) as [P E].
  set (sc := CAMERA_DEPTH / Qmax 10 (z - 0)) in *.
  split; [exact P|]. split; [nra|]. split.
  - apply round_mono. unfold CAMERA_HEIGHT, Qdiv. change (/ 2) with (1 # 2).
    pose proof (Qmult_le_0_compat sc H). nra.
  - change 0%Z with (round 0). apply round_mono.
    unfold ROAD_WIDTH, Qdiv. change (/ 2) with (1 # 2).
    pose proof (Qmult_le_0_compat sc W). nra.
Qed.

Lemma project_screenY_mono x1 x2 z1 z2 W H :
  0 <= H -> 10 <= z1 -> z1 <= z2 ->
  (screenY (project x2 (- CAMERA_HEIGHT) z2 0 0 0 CAMERA_DEPTH W H ROAD_WIDTH)
   <= screenY (project x1 (- CAMERA_HEIGHT) z1 0 0 0 CAMERA_DEPTH W H
                       ROAD_WIDTH))%Z.
Proof.
  intros HH Z1 Z2. unfold project. cbn [screenY].
  assert (Z2' : 10 <= z2) by lra.
  destruct (scale_at z1 Z1) as [P1 E1]. destruct (scale_at z2 Z2') as [P2 E2].
  set (s1 := CAMERA_DEPTH / Qmax 10 (z1 - 0)) in *.
  set (s2 := CAMERA_DEPTH / Qmax 10 (z2 - 0)) in *.
  assert (S : s2 <= s1) by nra.
  apply round_mono. unfold CAMERA_HEIGHT, Qdiv. change (/ 2) with (1 # 2).
  assert (K : 0 <= (s1 - s2) * H) by (apply Qmult_le_0_compat; lra).
  nra.
Qed.

Lemma projectSegments_sorted W H pX pZ segs : forall dx cx,
  0 <= H -> StronglySorted zOrdered segs ->
  StronglySorted notBelow (fst (projectSegments W H pX pZ dx cx segs)).
Proof.
  induction segs as [|sg rest IH]; intros dx cx HH S; [constructor|].
  apply StronglySorted_inv in S. destruct S as [S F].
  pose proof (projectSegments_samples W H pX pZ rest (dx + seg_curve sg)
                (cx + (dx + seg_curve sg))) as Smp.
  specialize (IH (dx + seg_curve sg) (cx + (dx + seg_curve sg)) HH S).
  cbn [projectSegments]. cbv zeta.
  destruct (projectSegments W H pX pZ (dx + seg_curve sg)
              (cx + (dx + seg_curve sg)) rest) as [sl ts].
  cbn [fst] in *.
  destruct (ltb (seg_z sg - pZ) 10) eqn:C; cbn [fst]; [exact IH|].
  apply ltb_ge in C. constructor; [exact IH|].
  apply Forall_forall. intros s I.
  destruct (Smp s I) as (sg' & wx & I' & _ & ->).
  rewrite Forall_forall in F. specialize (F sg' I'). unfold zOrdered in F.
  unfold notBelow. cbn [sample_p].
  apply project_screenY_mono; [exact HH | exact C | lra].
Qed.

Lemma chain_step a l :
  chain a l -> Forall (fun sg => a + SEGMENT_LENGTH <= seg_z sg) l.
Proof.
  revert a. induction l as [|s t IH]; intros a H; constructor.
  - destruct H as [H _]. rewrite H. lra.
  - destruct H as [H1 H2]. apply IH in H2.
    eapply Forall_impl; [|exact H2]. cbv beta. intros u Hu.
    rewrite H1 in Hu. unfold SEGMENT_LENGTH in *. lra.
Qed.

Lemma chain_sorted a l : chain a l -> StronglySorted zOrdered l.
Proof.
  revert a. induction l as [|s t IH]; intros a H; constructor.
  - destruct H as [_ H]. exact (IH _ H).
  - destruct H as [_ H]. apply chain_lower in H.
    eapply Forall_impl; [|exact H]. cbv beta. intros u Hu.
    unfold zOrdered. lra.
Qed.

Lemma chained_sorted l : chained l -> StronglySorted zOrdered l.
Proof.
  destruct l as [|s t]; [constructor|]. intro H. constructor.
  - exact (chain_sorted _ _ H).
  - apply chain_lower in H. eapply Forall_impl; [|exact H].
    cbv beta. intros u Hu. unfold zOrdered. lra.
Qed.

Lemma chained_prefix l1 l2 : chained (l1 ++ l2) -> chained l1.
Proof.
  destruct l1 as [|s t]; [intros _; exact I|]. simpl. intro H.
  apply chain_app in H. exact (proj1 H).
Qed.

Lemma chained_window l n m : chained l -> chained (firstn m (skipn n l)).
Proof.
  intro H. rewrite <- (firstn_skipn n l) in H. apply chained_suffix in H.
  rewrite <- (firstn_skipn m (skipn n l)) in H.
  exact (chained_prefix _ _ H).
Qed.

Lemma roadPass_sorted W H p r :
  0 <= H -> chained (segments r) ->
  StronglySorted notBelow (fst (roadPass W H p r)).
Proof.
  intros HH C. unfold roadPass. cbv zeta.
  apply projectSegments_sorted; [exact HH|].
  apply chained_sorted, chained_window, C.
Qed.

Lemma StronglySorted_nth {A} (R : A -> A -> Prop) l : forall i a b,
  StronglySorted R l ->
  nth_error l i = Some a -> nth_error l (S i) = Some b -> R a b.
Proof.
  induction l as [|u t IH]; intros i a b S Ha Hb; [destruct i; discriminate|].
  apply StronglySorted_inv in S. destruct S as [S F].
  destruct i as [|i].
  - cbn in Ha. injection Ha as <-. cbn in Hb.
    rewrite Forall_forall in F. apply F.
    destruct t; [discriminate|]. cbn in Hb. injection Hb as <-. left. reflexivity.
  - cbn in Ha, Hb. exact (IH i a b S Ha Hb).
Qed.

Lemma rev_seq_sorted n : StronglySorted gt (rev (seq 1 n)).
Proof.
  induction n as [|n IH]; [constructor|].
  rewrite seq_S, rev_app_distr. cbn [rev app]. constructor; [exact IH|].
  apply Forall_forall. intros j I. apply in_rev, in_seq in I. lia.
Qed.

Lemma flat_map_sorted (g : nat -> list Quad) l :
  (forall i q, In q (g i) -> g i = [q] /\ quad_i q = i) ->
  StronglySorted gt l ->
  StronglySorted (fun q1 q2 => (quad_i q2 < quad_i q1)%nat) (flat_map g l).
Proof.
  intros G S. induction S as [|a l S IH F]; [constructor|].
  cbn [flat_map]. destruct (g a) as [|q t] eqn:E; [exact IH|].
  destruct (G a q) as [E' Q]; [rewrite E; left; reflexivity|].
  rewrite E in E'. injection E' as ->. cbn [app].
  constructor; [exact IH|].
  apply Forall_forall. intros q' I. apply in_flat_map in I.
  destruct I as (j & Ij & Iq). destruct (G j q' Iq) as [_ Q'].
  rewrite Forall_forall in F. specialize (F j Ij). lia.
Qed.

Lemma roadQuads_In startIdx sl q :
  In q (roadQuads startIdx sl) <->
  exists i s1 s2,
    nth_error sl i = Some s1 /\ nth_error sl (S i) = Some s2
    /\ (screenY (sample_p s2) < screenY (sample_p s1))%Z
    /\ q = mkQuad (S i) (sample_p s1) (sample_p s2) (sample_color s1)
                  (Nat.eqb (((startIdx + S i) / 2) mod 2) 0).
Proof.
  unfold roadQuads. rewrite in_flat_map. split.
  - intros (j & Ij & Iq). apply in_rev, in_seq in Ij.
    destruct j as [|i]; [lia|].
    replace (S i - 1)%nat with i in Iq by lia.
    destruct (nth_error sl i) as [s1|] eqn:H1; [|destruct Iq].
    destruct (nth_error sl (S i)) as [s2|] eqn:H2; [|destruct Iq].
    cbv zeta in Iq.
    destruct (screenY (sample_p s1) <=? screenY (sample_p s2))%Z eqn:C;
      [destruct Iq|].
    apply Z.leb_gt in C. destruct Iq as [<- | []].
    exists i, s1, s2.
    split; [exact H1|]. split; [exact H2|]. split; [exact C | reflexivity].
  - intros (i & s1 & s2 & H1 & H2 & C & ->). exists (S i). split.
    + rewrite <- in_rev. apply in_seq.
      assert (S i < length sl)%nat by (apply nth_error_Some; congruence).
      lia.
    + replace (S i - 1)%nat with i by lia. rewrite H1, H2. cbv zeta.
      apply Z.leb_gt in C. rewrite C. left. reflexivity.
Qed.

Lemma roadQuads_sorted startIdx sl :
  StronglySorted (fun q1 q2 => (quad_i q2 < quad_i q1)%nat)
                 (roadQuads startIdx sl).
Proof.
  unfold roadQuads. apply flat_map_sorted; [|apply rev_seq_sorted].
  intros i q I.
  destruct (nth_error sl (i - 1)) as [s1|]; [|destruct I].
  destruct (nth_error sl i) as [s2|]; [|destruct I].
  cbv zeta in *.
  destruct (screenY (sample_p s1) <=? screenY (sample_p s2))%Z; [destruct I|].
  destruct I as [<- | []]. split; reflexivity.
Qed.

(** X19. What the road pass of [draw] produces, for any stored track and
    a window of non-negative size: at most [VISIBLE_SEGMENTS] segments
    are visited, no more samples than visited segments; every sample is
    at least 10 units ahead of the camera, so its scale is within
    (0, 0.08], it is not above the horizon row [round (height / 2)] and
    its projected width is not negative. *)
Theorem road_pass_bounds (width height : Q) (p : Player) (r : Road) :
  0 <= width -> 0 <= height ->
  let segmentList := fst (roadPass width height p r) in
  let trailSegments := snd (roadPass width height p r) in
  (length segmentList <= length trailSegments)%nat
  /\ (length trailSegments <= 200)%nat
  /\ Forall (fun s => 0 < scale (sample_p s) /\ scale (sample_p s) <= 8 # 100
                      /\ (round (height / 2) <= screenY (sample_p s))%Z
                      /\ (0 <= w (sample_p s))%Z)
            segmentList.
Proof.
  intros HW HH segmentList trailSegments.
  unfold segmentList, trailSegments, roadPass. cbv zeta.
  match goal with
  | |- context [projectSegments ?a ?b ?c ?d ?e ?f ?g] =>
      destruct (projectSegments_lengths a b c d g e f) as [L1 L2];
      pose proof (projectSegments_samples a b c d g e f) as Smp
  end.
  split; [exact L1|]. split.
  - rewrite L2, length_firstn. change (iters VISIBLE_SEGMENTS) with 200%nat. lia.
  - apply Forall_forall. intros s I.
    destruct (Smp s I) as (sg & wx & _ & Z & ->). cbn [sample_p].
    apply project_bounds; assumption.
Qed.

Lemma road_pass_bounds_witness :
  0 <= 800 /\ 0 <= 600
  /\ Forall (fun s => 0 < scale (sample_p s) /\ scale (sample_p s) <= 8 # 100
                      /\ (round (600 / 2) <= screenY (sample_p s))%Z
                      /\ (0 <= w (sample_p s))%Z)
            (fst (roadPass 800 600 riderAt150 shortRoad)).
Proof.
  assert (A : 0 <= 800) by (vm_compute; discriminate).
  assert (B : 0 <= 600) by (vm_compute; discriminate).
  destruct (road_pass_bounds 800 600 riderAt150 shortRoad A B) as (_ & _ & F).
  split; [exact A | split; [exact B | exact F]].
Defined.

(** X20. On a contiguous track and a window of non-negative height the
    samples of the road pass never go down the screen with distance, so
    the test that skips a quad only drops pairs that project onto the
    same pixel row: every other pair of consecutive samples is drawn,
    with the kerb colour of its nearer sample, each quad once and from
    the farthest to the nearest. *)
Theorem road_drawn_far_to_near (width height : Q) (p : Player) (r : Road) :
  0 <= height -> chained (segments r) ->
  let segmentList := fst (roadPass width height p r) in
  let quads :=
    roadQuads (startIndex (distanceTraveled p) (segments r) 0) segmentList in
  StronglySorted notBelow segmentList
  /\ StronglySorted (fun q1 q2 => (quad_i q2 < quad_i q1)%nat) quads
  /\ Forall (fun q => (screenY (quad_far q) < screenY (quad_near q))%Z) quads
  /\ (forall i s1 s2,
        nth_error segmentList i = Some s1 ->
        nth_error segmentList (S i) = Some s2 ->
        screenY (sample_p s1) = screenY (sample_p s2)
        \/ exists q, In q quads /\ quad_i q = S i
                     /\ quad_near q = sample_p s1 /\ quad_far q = sample_p s2
                     /\ quad_kerb q = sample_color s1).
Proof.
  intros HH C segmentList quads.
  pose proof (roadPass_sorted width height p r HH C) as S.
  fold segmentList in S.
  split; [exact S|]. split; [apply roadQuads_sorted|]. split.
  - apply Forall_forall. intros q I. apply roadQuads_In in I.
    destruct I as (i & s1 & s2 & _ & _ & L & ->). exact L.
  - intros i s1 s2 H1 H2.
    pose proof (StronglySorted_nth _ _ _ _ _ S H1 H2) as N. unfold notBelow in N.
    destruct (Z.eq_dec (screenY (sample_p s1)) (screenY (sample_p s2)))
      as [E | NE]; [left; exact E|].
    right. eexists. split.
    + apply roadQuads_In. exists i, s1, s2.
      split; [exact H1|]. split; [exact H2|]. split; [lia | reflexivity].
    + cbn. auto.
Qed.

Lemma road_drawn_far_to_near_witness :
  0 <= 600 /\ chained (segments shortRoad)
  /\ StronglySorted notBelow (fst (roadPass 800 600 riderAt150 shortRoad)).
Proof.
  assert (A : 0 <= 600) by (vm_compute; discriminate).
  assert (B : chained (segments shortRoad)).
  { vm_compute. repeat split. }
  destruct (road_drawn_far_to_near 800 600 riderAt150 shortRoad A B)
    as (S & _).
  split; [exact A | split; [exact B | exact S]].
Defined.

Lemma startIndex_find dist l : forall i sg,
  find (fun s => geb (seg_z s) dist) l = Some sg ->
  exists pre post,
    l = pre ++ sg :: post
    /\ startIndex dist l i = (i + length pre)%nat.
Proof.
  induction l as [|u t IH]; intros i sg F; [discriminate|].
  cbn [find] in F. cbn [startIndex].
  destruct (geb (seg_z u) dist).
  - injection F as <-. exists [], t. split; [reflexivity | cbn; lia].
  - destruct (IH (S i) sg F) as (pre & post & -> & E).
    exists (u :: pre), post. split; [reflexivity | rewrite E; cbn; lia].
Qed.

Lemma skipn_app_exact {A} (pre l : list A) : skipn (length pre) (pre ++ l) = l.
Proof. induction pre as [|a t IH]; [reflexivity | exact IH]. Qed.

Lemma nth_error_app_exact {A} (pre post : list A) a :
  nth_error (pre ++ a :: post) (length pre) = Some a.
Proof. induction pre as [|u t IH]; [reflexivity | exact IH]. Qed.

Lemma num_le_inv (n m : nat) : num n <= num m -> (n <= m)%nat.
Proof.
  unfold num. rewrite <- Zle_Qle. lia.
Qed.

(** X21. What the renderer sees in every state of a run after its first
    frame: the segment selected as the start of the view is the one the
    vehicle is on, so the fraction of it already covered is within
    [0, 1]; at least 50 segments are visited and at least 49 of them are
    projected, so there always is road to draw. *)
Theorem renderer_view_of_run (fr : Frame) (frames : list Frame)
                             (width height : Q) :
  Forall wfFrame (fr :: frames) ->
  let s := run (fr :: frames) startSim in
  let playerZ := distanceTraveled (player s) in
  let startIdx := startIndex playerZ (segments (road s)) 0 in
  exists startSeg,
    nth_error (segments (road s)) startIdx = Some startSeg
    /\ 0 <= (playerZ - (seg_z startSeg - SEGMENT_LENGTH)) / SEGMENT_LENGTH
    /\ (playerZ - (seg_z startSeg - SEGMENT_LENGTH)) / SEGMENT_LENGTH <= 1
    /\ (50 <= length (snd (roadPass width height (player s) (road s))))%nat
    /\ (49 <= length (fst (roadPass width height (player s) (road s))))%nat.
Proof.
  intros F s playerZ startIdx.
  pose proof (run_inv _ startSim F startSim_inv) as J. fold s in J.
  assert (N : segments (road s) <> [])
    by (apply (run_nonempty _ startSim F startSim_inv); discriminate).
  destruct (find_current (segments (road s)) playerZ)
    as (sg & E & A & B);
    [exact (ri_chained _ J) | exact N | exact (ri_first _ J)
    | pose proof (ri_ahead _ J N); unfold playerZ; lra |].
  destruct (startIndex_find playerZ _ O sg E) as (pre & post & EL & ES).
  cbn [Nat.add] in ES. fold startIdx in ES.
  exists sg. split; [rewrite ES, EL; apply nth_error_app_exact|].
  unfold SEGMENT_LENGTH at 2 4.
  split; [apply Qle_shift_div_l; unfold SEGMENT_LENGTH; lra|].
  split; [apply Qle_shift_div_r; unfold SEGMENT_LENGTH; lra|].
  pose proof (ri_chained _ J) as C. pose proof (ri_ahead _ J N) as Ah.
  fold playerZ in Ah. rewrite EL in C, Ah.
  apply chained_suffix in C. cbn [chained] in C.
  rewrite lastZ_app in Ah. cbn [lastZ] in Ah.
  rewrite (chain_lastZ _ _ C) in Ah.
  assert (P : (49 <= length post)%nat).
  { apply num_le_inv. change (num 49) with 49.
    unfold SEGMENT_LENGTH in Ah. lra. }
  assert (SK : skipn startIdx (segments (road s)) = sg :: post)
    by (rewrite ES, EL; apply skipn_app_exact).
  unfold roadPass. cbv zeta. fold playerZ. fold startIdx. rewrite SK.
  change (iters VISIBLE_SEGMENTS) with 200%nat.
  change (firstn 200 (sg :: post)) with (sg :: firstn 199 post).
  match goal with
  | |- context [projectSegments ?a ?b ?c ?d ?e ?f (sg :: ?g)] =>
      destruct (projectSegments_lengths a b c d (sg :: g) e f) as [_ L2];
      pose proof (projectSegments_cons a b c d sg g e f) as L1;
      pose proof (projectSegments_all a b c d g (e + seg_curve sg)
                    (f + (e + seg_curve sg))) as L3
  end.
  assert (LF : (49 <= length (firstn 199 post))%nat)
    by (rewrite length_firstn; lia).
  split; [rewrite L2; cbn [length]; lia|].
  rewrite L3 in L1; [lia|].
  apply chain_step in C. apply Forall_forall. intros u I.
  assert (I' : In u post)
    by (rewrite <- (firstn_skipn 199 post); apply in_or_app; left; exact I).
  rewrite Forall_forall in C. specialize (C u I').
  unfold SEGMENT_LENGTH in C. lra.
Qed.

Lemma renderer_view_of_run_witness :
  Forall wfFrame twoFrames
  /\ (49 <= length (fst (roadPass 800 600 (player (run twoFrames startSim))
                                  (road (run twoFrames startSim)))))%nat.
Proof.
  destruct (renderer_view_of_run (frame60 noInput) [frame60 steerRight]
              800 600 twoFrames_wf) as (sg & _ & _ & _ & _ & H).
  split; [exact twoFrames_wf | exact H].
Defined.

(** ** The rider in a run *)

Lemma beforeApex_crash delta dx ci s :
  crash (player (beforeApex delta dx ci s)) = crash (player s).
Proof.
  unfold beforeApex. cbv zeta.
  match goal with
  | |- context [boundary ?a ?b ?c] =>
      destruct (boundary_player_frame a b c) as (_ & _ & _ & _ & _ & B & _)
  end.
  cbn [player set_player trailStep set_trail crash]. cbn in B |- *. exact B.
Qed.

Lemma drive_rest delta dx ci s :
  targetLean (player (drive delta dx ci s)) = targetLean (player s)
  /\ (gtb (Qabs (x (player (drive delta dx ci s)))) COLLISION_THRESHOLD = false ->
      crash (player (drive delta dx ci s)) = crash (player s)).
Proof.
  destruct (drive_frame delta dx ci s) as (D1 & _). rewrite D1.
  rewrite drive_eq. cbv zeta.
  destruct (beforeApex_frame delta dx ci s) as (_ & _ & F3 & _).
  destruct (apexDetection_frame (beforeApex delta dx ci s))
    as (_ & _ & A3 & _ & _ & _ & A7 & _).
  assert (T : targetLean (player (scoring (apexDetection (beforeApex delta dx ci s))))
              = targetLean (player s)).
  { rewrite scoring_eq. cbn. rewrite A3. exact F3. }
  split.
  - destruct (gtb _ COLLISION_THRESHOLD); [cbn; cbn in T; exact T | exact T].
  - intro C. rewrite C. rewrite scoring_eq. cbn. rewrite A7.
    apply beforeApex_crash.
Qed.

Lemma update_playing_rest dt inp d s :
  gameState s = PLAYING ->
  targetLean (player (update dt inp d s)) = controls inp
  /\ (gtb (Qabs (x (player (update dt inp d s)))) COLLISION_THRESHOLD = false ->
      crash (player (update dt inp d s)) = crash (player s)).
Proof.
  intro H. rewrite (update_playing dt inp d s H). cbv zeta.
  cbn [player set_distanceTraveled x crash targetLean]. unfold driven.
  match goal with
  | |- context [drive ?a ?b ?c ?e] => destruct (drive_rest a b c e) as [T C]
  end.
  split; [rewrite T; reflexivity|]. intro K. rewrite (C K). reflexivity.
Qed.

Lemma update_other_targetLean dt inp d s :
  gameState s <> PLAYING ->
  targetLean (player (update dt inp d s)) = controls inp.
Proof.
  intro H. rewrite (update_other_eq dt inp d s H). cbv zeta.
  cbn [player set_distanceTraveled targetLean]. unfold idle.
  destruct (_ && _); reflexivity.
Qed.

Lemma controls_cases inp :
  controls inp = 1 \/ controls inp = 0 \/ controls inp = -1.
Proof.
  unfold controls. destruct (inp_right inp); [auto|].
  destruct (inp_left inp); auto.
Qed.

Lemma lean_step_range a b t :
  - (3 # 2) <= a -> a <= 3 # 2 -> b = 1 \/ b = 0 \/ b = -1 ->
  0 <= t -> t <= 12 # 10 ->
  - (3 # 2) <= lerp a b t /\ lerp a b t <= 3 # 2.
Proof.
  intros A0 A1 B T0 T1. rewrite lerp_step.
  destruct (Qlt_le_dec t 1) as [L | L].
  - assert (P1 : 0 <= (1 - t) * (a + (3 # 2)))
      by (apply Qmult_le_0_compat; lra).
    assert (P2 : 0 <= (1 - t) * ((3 # 2) - a))
      by (apply Qmult_le_0_compat; lra).
    destruct B as [-> | [-> | ->]]; split; lra.
  - assert (P1 : 0 <= (t - 1) * (a + (3 # 2)))
      by (apply Qmult_le_0_compat; lra).
    assert (P2 : 0 <= (t - 1) * ((3 # 2) - a))
      by (apply Qmult_le_0_compat; lra).
    destruct B as [-> | [-> | ->]]; split; lra.
Qed.

Lemma tick_rider s fr :
  runInv s -> riderInv s -> wfFrame fr -> riderInv (tick s fr).
Proof.
  intros J [ST IN CR [L0 L1] TG] (T0 & T1 & _ & _). unfold tick.
  set (dt := frame_dt fr) in *. set (inp := frame_inp fr).
  set (d := frame_draws fr).
  destruct ST as [P | G].
  - destruct (update_playing_frame dt inp d s P) as (X & LE & _ & GS & _).
    cbv zeta in X, LE, GS.
    destruct (update_playing_rest dt inp d s P) as [TL CK].
    destruct (ri_driving _ J P) as (_ & _ & M).
    destruct (IN P) as [_ AC].
    assert (LR : - (3 # 2) <= lean (player (update dt inp d s))
                 /\ lean (player (update dt inp d s)) <= 3 # 2).
    { rewrite LE. apply lean_step_range;
        [exact L0 | exact L1 | apply controls_cases | |];
        unfold scaledDelta, LEAN_SMOOTHING; rewrite M; lra. }
    rewrite <- X in GS.
    destruct (gtb (Qabs (x (player (update dt inp d s)))) COLLISION_THRESHOLD)
      eqn:C.
    + constructor.
      * right. exact GS.
      * intro K. rewrite GS in K. discriminate K.
      * intros _. split; [apply gtb_gt, C|].
        apply update_playing_crash; [exact P | exact C].
      * exact LR.
      * rewrite TL. apply controls_cases.
    + constructor.
      * left. exact GS.
      * intros _. split; [apply gtb_le, C|]. rewrite (CK eq_refl). exact AC.
      * intro K. rewrite GS in K. discriminate K.
      * exact LR.
      * rewrite TL. apply controls_cases.
  - destruct (update_game_over dt inp d s G)
      as (GS & X & LE & _ & _ & _ & _ & CS).
    cbv zeta in GS, X, LE, CS. destruct (CR G) as [CX CA].
    constructor.
    + right. exact GS.
    + intro K. rewrite GS in K. discriminate K.
    + intros _. rewrite X. split; [exact CX|].
      rewrite CS, CA. cbn [fall active]. exact CA.
    + rewrite LE. split; assumption.
    + rewrite update_other_targetLean; [apply controls_cases|].
      rewrite G. discriminate.
Qed.

Lemma startSim_rider : riderInv startSim.
Proof.
  constructor.
  - left. reflexivity.
  - intros _. split; [vm_compute; discriminate | reflexivity].
  - intro K. discriminate K.
  - cbn. split; lra.
  - right. left. reflexivity.
Qed.

Lemma run_rider frames s :
  Forall wfFrame frames -> runInv s -> riderInv s -> riderInv (run frames s).
Proof.
  intro F. revert s. induction F as [|fr frames W _ IH]; intros s J R;
    [exact R|].
  simpl. apply IH.
  - apply (tick_reach s fr J W).
  - apply tick_rider; assumption.
Qed.

(** X22. The rider in every state of a run: the state is [PLAYING] or
    [GAME_OVER]; while [PLAYING] the vehicle is within the barriers
    (|x| <= 1.75) and no crash is active; in [GAME_OVER] it is beyond
    them with the crash active; the target lean is one of 1, 0, -1 and
    the lean is within [-1.6, 1.6].  The unclamped smoothing overshoots
    the target: with steps of up to 1.2 the lean comes as close to 1.5
    as one likes, and the bound leaves a margin for the rounding of the
    interpolation. *)
Theorem rider_state_ranges (frames : list Frame) :
  Forall wfFrame frames ->
  let s := run frames startSim in
  (gameState s = PLAYING \/ gameState s = GAME_OVER)
  /\ (gameState s = PLAYING ->
      Qabs (x (player s)) <= COLLISION_THRESHOLD
      /\ active (crash (player s)) = false)
  /\ (gameState s = GAME_OVER ->
      COLLISION_THRESHOLD < Qabs (x (player s))
      /\ active (crash (player s)) = true)
  /\ - (16 # 10) <= lean (player s) /\ lean (player s) <= 16 # 10
  /\ (targetLean (player s) = 1 \/ targetLean (player s) = 0
      \/ targetLean (player s) = -1).
Proof.
  intros F s.
  destruct (run_rider frames startSim F startSim_inv startSim_rider)
    as [ST IN CR [L0 L1] TG].
  split; [exact ST|]. split; [exact IN|]. split; [exact CR|].
  fold s in L0, L1.
  split; [lra|]. split; [lra | exact TG].
Qed.

Lemma rider_state_ranges_witness :
  Forall wfFrame twoFrames
  /\ - (16 # 10) <= lean (player (run twoFrames startSim))
  /\ lean (player (run twoFrames startSim)) <= 16 # 10.
Proof.
  destruct (rider_state_ranges twoFrames twoFrames_wf)
    as (_ & _ & _ & L0 & L1 & _).
  split; [exact twoFrames_wf | split; [exact L0 | exact L1]].
Defined.

(** ** What the generator stores: kerb marks and curve values *)

Lemma marked_app segs B ap : marked segs ap -> marked (segs ++ B) ap.
Proof.
  intros (sg & I & Z & C). exists sg.
  split; [apply in_or_app; left; exact I | split; assumption].
Qed.

Lemma num_double k : num (2 * S k) == 2 * num k + 2.
Proof.
  unfold num. replace (Z.of_nat (2 * S k)) with (2 * Z.of_nat k + 2)%Z by lia.
  rewrite inject_Z_plus, inject_Z_mult. reflexivity.
Qed.

Lemma addTrackSegment_flat_marked enter hold exit curve r :
  gtb (Qabs curve) 2 = false ->
  apexesMarked r -> apexesMarked (addTrackSegment enter hold exit curve r).
Proof.
  intros C M. unfold apexesMarked, addTrackSegment. cbn [segments apexPoints].
  rewrite C. eapply Forall_impl; [|exact M]. intros ap. apply marked_app.
Qed.

Lemma addTrackSegment_marked (e k x : nat) curve r :
  apexesMarked r ->
  apexesMarked (addTrackSegment (num e) (num (2 * S k)) (num x) curve r).
Proof.
  intro M. destruct (gtb (Qabs curve) 2) eqn:C;
    [|apply addTrackSegment_flat_marked; assumption].
  unfold apexesMarked, addTrackSegment. cbn [segments apexPoints]. rewrite C.
  apply Forall_app. split.
  - eapply Forall_impl; [|exact M]. intros ap. apply marked_app.
  - constructor; [|constructor].
    pose proof (num_double k) as D.
    set (h := num (2 * S k)) in *.
    set (startZ := lastZ 0 (segments r)).
    eexists. split; [|split].
    + apply in_or_app. right. apply in_or_app. right.
      apply in_or_app. left. unfold pushLoop.
      apply (in_map _ _ k). apply in_seq. unfold h. rewrite iters_num. lia.
    + cbn [seg_z apex_z]. unfold Qdiv. change (/ 2) with (1 # 2).
      rewrite D. ring.
    + cbn [seg_color].
      assert (G : gtb (num k) (h / 2 - 2) = true).
      { apply gtb_gt. unfold Qdiv. change (/ 2) with (1 # 2). lra. }
      assert (L : ltb (num k) (h / 2 + 2) = true).
      { apply ltb_lt. unfold Qdiv. change (/ 2) with (1 # 2). lra. }
      rewrite G, L. reflexivity.
Qed.

Lemma addPattern_marked p r : apexesMarked r -> apexesMarked (addPattern p r).
Proof.
  intro M. destruct p as [hold | i dr | i dr | i dr]; cbn [addPattern].
  - apply addTrackSegment_flat_marked; [reflexivity | exact M].
  - apply (addTrackSegment_marked 20 9 20), M.
  - apply (addTrackSegment_marked 15 4 15).
    apply (addTrackSegment_marked 15 4 15), M.
  - apply (addTrackSegment_marked 30 19 30), M.
Qed.

Lemma extendRoad_marked d playerZ r :
  apexesMarked r -> apexesMarked (extendRoad d playerZ r).
Proof.
  intro M.
  assert (M1 : apexesMarked (initialRoad r)).
  { unfold initialRoad. destruct (Nat.eqb _ _); [|exact M].
    apply addTrackSegment_flat_marked; [reflexivity | exact M]. }
  unfold extendRoad.
  destruct (aheadPatterns_cases d playerZ (initialRoad r)) as [[_ ->] | [_ ->]];
    cbn [fold_left]; [apply addPattern_marked|]; exact M1.
Qed.

Lemma generateRoad_marked d playerZ r :
  apexesMarked r -> apexesMarked (generateRoad d playerZ r).
Proof.
  intro M. apply (extendRoad_marked d playerZ) in M.
  unfold generateRoad, cleanup, apexesMarked. cbn [segments apexPoints].
  apply Forall_forall. intros ap I. apply filter_In in I. destruct I as [I G].
  apply gtb_gt in G. unfold apexesMarked in M. rewrite Forall_forall in M.
  destruct (M ap I) as (sg & Is & Z & C). exists sg.
  split; [|split; assumption].
  apply cleanupBehind_keeps; [exact Is | rewrite Z; lra].
Qed.

Lemma raised_marked segs l l' :
  Forall2 raised l l' -> Forall (marked segs) l -> Forall (marked segs) l'.
Proof.
  induction 1 as [|a a' l l' R _ IH]; intro F; [constructor|].
  inversion F as [|? ? Fa Ft]; subst. constructor; [|exact (IH Ft)].
  destruct Fa as (sg & I & Z & C). destruct R as (E & _).
  exists sg. rewrite E. split; [exact I | split; assumption].
Qed.

Lemma update_marked dt inp d s :
  apexesMarked (road s) -> apexesMarked (road (update dt inp d s)).
Proof.
  intro M. destruct (update_road dt inp d s) as (r1 & playerZ & E & SG & R).
  rewrite E. apply generateRoad_marked. unfold apexesMarked. rewrite SG.
  exact (raised_marked _ _ _ R M).
Qed.

(** X23. Every apex is shown on the track: in every state of a run,
    whatever the frames, each stored apex lies at the far end of a
    stored segment drawn with the apex kerb colour. *)
Theorem apexes_marked_on_track (frames : list Frame) :
  let s := run frames startSim in
  Forall (fun ap => exists sg,
            In sg (segments (road s)) /\ seg_z sg == apex_z ap
            /\ seg_color sg = Some COLOR_APEX_EDGE)
         (apexPoints (road s)).
Proof.
  cbv zeta. change (apexesMarked (road (run frames startSim))).
  assert (G : forall s, apexesMarked (road s) ->
                        apexesMarked (road (run frames s))).
  { induction frames as [|fr frames IH]; intros s M; [exact M|].
    simpl. apply IH. apply update_marked, M. }
  apply G. constructor.
Qed.

Lemma num_le (i j : nat) : (i <= j)%nat -> num i <= num j.
Proof. intro H. unfold num. rewrite <- Zle_Qle. lia. Qed.

Lemma loop_fraction (i e : nat) :
  (i < e)%nat -> 0 <= num i / num e /\ num i / num e <= 1.
Proof.
  intro H. pose proof (num_nonneg i) as N.
  assert (P : 0 < num e).
  { apply Qlt_le_trans with (num 1); [vm_compute; reflexivity|].
    apply num_le. lia. }
  assert (L : num i <= num e) by (apply num_le; lia).
  split; [apply Qle_shift_div_l; [exact P | lra]
         | apply Qle_shift_div_r; [exact P | lra]].
Qed.

Lemma addTrackSegment_curves (e x : nat) hold curve r :
  curveInRange curve -> curveBounded r ->
  curveBounded (addTrackSegment (num e) hold (num x) curve r).
Proof.
  intros [C0 C1] B. unfold curveBounded, addTrackSegment. cbn [segments].
  apply Forall_app. split; [exact B|].
  apply Forall_app. split; [|apply Forall_app; split].
  - apply Forall_forall. intros sg I. unfold pushLoop in I.
    apply in_map_iff in I. destruct I as (i & <- & I).
    apply in_seq in I. rewrite iters_num in I.
    destruct (loop_fraction i e) as [T0 T1]; [lia|].
    cbn [seg_curve]. unfold curveInRange. rewrite lerp_step.
    set (t := num i / num e) in *. split; nra.
  - apply Forall_forall. intros sg I. unfold pushLoop in I.
    apply in_map_iff in I. destruct I as (i & <- & I).
    cbn [seg_curve]. split; assumption.
  - apply Forall_forall. intros sg I. unfold pushLoop in I.
    apply in_map_iff in I. destruct I as (i & <- & I).
    apply in_seq in I. rewrite iters_num in I.
    destruct (loop_fraction i x) as [T0 T1]; [lia|].
    cbn [seg_curve]. unfold curveInRange. rewrite lerp_step.
    set (t := num i / num x) in *. split; nra.
Qed.

Lemma choosePattern_curves d r :
  0 <= range d -> range d < 1 ->
  curveBounded r -> curveBounded (addPattern (choosePattern d) r).
Proof.
  intros U0 U1 B. unfold choosePattern.
  assert (Z : curveInRange 0) by (split; lra).
  assert (K : forall lo hi, 0 <= lo -> lo <= hi -> hi <= 8 ->
            curveInRange (randomRange (range d) lo hi * drawDir d)
            /\ curveInRange (- randomRange (range d) lo hi * drawDir d)).
  { intros lo hi L0 L1 L2. unfold randomRange.
    assert (P : 0 <= range d * (hi - lo)) by (apply Qmult_le_0_compat; lra).
    assert (P' : 0 <= (1 - range d) * (hi - lo))
      by (apply Qmult_le_0_compat; lra).
    unfold curveInRange.
    destruct (drawDir_cases d) as [-> | ->]; split; split; lra. }
  destruct (ltb (pattern d) (20 # 100)); cbn [addPattern].
  { apply (addTrackSegment_curves 0 0); assumption. }
  destruct (ltb (pattern d) (5 # 10)); cbn [addPattern].
  { apply (addTrackSegment_curves 20 20); [|exact B].
    apply (K 3 6); lra. }
  destruct (ltb (pattern d) (8 # 10)); cbn [addPattern].
  { apply (addTrackSegment_curves 15 15); [apply (K 4 7); lra|].
    apply (addTrackSegment_curves 15 15); [apply (K 4 7); lra | exact B]. }
  apply (addTrackSegment_curves 30 30); [|exact B]. apply (K 5 8); lra.
Qed.

Lemma generateRoad_curves d playerZ r :
  0 <= range d -> range d < 1 ->
  curveBounded r -> curveBounded (generateRoad d playerZ r).
Proof.
  intros U0 U1 B.
  assert (B1 : curveBounded (initialRoad r)).
  { unfold initialRoad. destruct (Nat.eqb _ _); [|exact B].
    apply (addTrackSegment_curves 0 0); [split; lra | exact B]. }
  assert (B2 : curveBounded (extendRoad d playerZ r)).
  { unfold extendRoad.
    destruct (aheadPatterns_cases d playerZ (initialRoad r))
      as [[_ ->] | [_ ->]]; cbn [fold_left];
      [apply choosePattern_curves; assumption | exact B1]. }
  unfold generateRoad, cleanup, curveBounded. cbn [segments].
  destruct (cleanupBehind_suffix playerZ (segments (extendRoad d playerZ r)))
    as (l1 & E & _).
  unfold curveBounded in B2. rewrite E in B2.
  apply Forall_app in B2. exact (proj2 B2).
Qed.

Lemma update_curves dt inp d s :
  0 <= range d -> range d < 1 ->
  curveBounded (road s) -> curveBounded (road (update dt inp d s)).
Proof.
  intros U0 U1 B. destruct (update_road dt inp d s) as (r1 & playerZ & E & SG & _).
  rewrite E. apply generateRoad_curves; [exact U0 | exact U1|].
  unfold curveBounded. rewrite SG. exact B.
Qed.

Lemma run_curves frames s :
  Forall wfFrame frames -> curveBounded (road s) ->
  curveBounded (road (run frames s)).
Proof.
  intro F. revert s. induction F as [|fr frames W _ IH]; intros s B; [exact B|].
  simpl. apply IH. destruct W as (_ & _ & U0 & U1).
  apply update_curves; assumption.
Qed.

Lemma curveIntensityAt_range segs dist :
  Forall (fun sg => curveInRange (seg_curve sg)) segs ->
  curveInRange (curveIntensityAt segs dist).
Proof.
  intro F. rewrite Forall_forall in F. unfold curveIntensityAt.
  destruct (find _ segs) as [sg|] eqn:E.
  - apply find_some in E. apply F, E.
  - destruct segs as [|sg t]; cbn [hd_error].
    + split; lra.
    + apply F. left. reflexivity.
Qed.

(** X24. In every state of a run every stored segment has a curve
    within [-8, 8], the sharpest the generator draws, entries and exits
    of the turns included; so has the curve the physics reads at any
    position. *)
Theorem track_curves_bounded (frames : list Frame) (dist : Q) :
  Forall wfFrame frames ->
  let s := run frames startSim in
  Forall (fun sg => - 8 <= seg_curve sg /\ seg_curve sg <= 8)
         (segments (road s))
  /\ - 8 <= curveIntensityAt (segments (road s)) dist
  /\ curveIntensityAt (segments (road s)) dist <= 8.
Proof.
  intros F s.
  assert (B : curveBounded (road s))
    by (apply run_curves; [exact F | constructor]).
  split; [exact B|]. apply curveIntensityAt_range, B.
Qed.

Lemma track_curves_bounded_witness :
  Forall wfFrame twoFrames
  /\ Forall (fun sg => - 8 <= seg_curve sg /\ seg_curve sg <= 8)
            (segments (road (run twoFrames startSim))).
Proof.
  destruct (track_curves_bounded twoFrames 0 twoFrames_wf) as (B & _).
  split; [exact twoFrames_wf | exact B].
Defined.

(** ** The effects in a run *)

Lemma boundary_fx delta absX s :
  zoom (fx (boundary delta absX s)) = zoom (fx s)
  /\ chromaticAberration (fx (boundary delta absX s))
     = chromaticAberration (fx s)
  /\ shake (fx (boundary delta absX s))
     = (if gtb absX OFF_ROAD_LIMIT
        then lerp (shake (fx s))
                  (15 * ((absX - OFF_ROAD_LIMIT)
                         / (COLLISION_THRESHOLD - OFF_ROAD_LIMIT)))
                  (10 * delta)
        else shake (fx s)).
Proof.
  unfold boundary. cbv zeta. cbn [offRoad set_offRoad].
  destruct (gtb absX OFF_ROAD_LIMIT); cbn;
    (split; [reflexivity | split; reflexivity]).
Qed.

Lemma apexDetection_fx s :
  zoom (fx (apexDetection s)) = zoom (fx s)
  /\ chromaticAberration (fx (apexDetection s)) = chromaticAberration (fx s)
  /\ shake (fx (apexDetection s)) = shake (fx s)
  /\ (texts (fx (apexDetection s)) = texts (fx s)
      \/ exists rating,
           texts (fx (apexDetection s))
           = texts (fx s) ++ [mkText rating 0 (8 # 10) (1 # 2)]).
Proof.
  unfold apexDetection.
  destruct (findRef _ _) as [i|]; [|auto].
  destruct (eqb _ _ && gtb _ _); [|auto].
  cbn. split; [reflexivity|]. split; [reflexivity|]. split; [reflexivity|].
  right. eexists. reflexivity.
Qed.

Lemma drive_fx delta dx ci s :
  0 <= delta -> delta <= 1 # 10 ->
  0 <= shake (fx s) -> shake (fx s) <= 80 ->
  let f' := fx (drive delta dx ci s) in
  zoom f' = zoom (fx s)
  /\ chromaticAberration f' = chromaticAberration (fx s)
  /\ 0 <= shake f' /\ shake f' <= 80
  /\ (texts f' = texts (fx s)
      \/ exists rating,
           texts f' = texts (fx s) ++ [mkText rating 0 (8 # 10) (1 # 2)]).
Proof.
  intros D0 D1 S0 S1. cbv zeta. rewrite drive_eq. cbv zeta.
  destruct (beforeApex_frame delta dx ci s)
    as (_ & _ & _ & _ & _ & _ & _ & _ & _ & _ & F11).
  destruct (apexDetection_fx (beforeApex delta dx ci s)) as (A1 & A2 & A3 & A4).
  assert (B : fx (beforeApex delta dx ci s)
              = fx (boundary delta
                      (Qabs (lateral delta dx ci
                               (set_lean (lerp (lean (player s))
                                               (targetLean (player s))
                                               (LEAN_SMOOTHING * delta))
                                         (player s))))
                      (set_player
                         (set_x (lateral delta dx ci
                                   (set_lean (lerp (lean (player s))
                                                   (targetLean (player s))
                                                   (LEAN_SMOOTHING * delta))
                                             (player s)))
                                (set_lean (lerp (lean (player s))
                                                (targetLean (player s))
                                                (LEAN_SMOOTHING * delta))
                                          (player s))) s)))
    by reflexivity.
  set (x' := lateral delta dx ci _) in *.
  match type of B with
  | _ = fx (boundary _ _ ?s0) =>
      destruct (boundary_fx delta (Qabs x') s0) as (B1 & B2 & B3)
  end.
  rewrite <- B in B1, B2, B3. cbn [fx set_player shake] in B1, B2, B3.
  rewrite scoring_eq. cbv zeta.
  set (b := beforeApex delta dx ci s) in *.
  assert (T : texts (fx (apexDetection b)) = texts (fx s)
              \/ exists rating,
                   texts (fx (apexDetection b))
                   = texts (fx s) ++ [mkText rating 0 (8 # 10) (1 # 2)])
    by (rewrite <- F11; exact A4).
  destruct (gtb (Qabs x') COLLISION_THRESHOLD) eqn:C.
  - cbn. rewrite A1, A2, B1, B2.
    split; [reflexivity|]. split; [reflexivity|].
    split; [lra|]. split; [lra | exact T].
  - cbn. rewrite A1, A2, A3, B1, B2, B3.
    split; [reflexivity|]. split; [reflexivity|].
    apply gtb_le in C.
    destruct (gtb (Qabs x') OFF_ROAD_LIMIT) eqn:O.
    + apply gtb_gt in O. unfold COLLISION_THRESHOLD, OFF_ROAD_LIMIT in *.
      set (a := Qabs x') in *.
      assert (E : 15 * ((a - 1) / ((175 # 100) - 1)) == 20 * (a - 1))
        by (field; lra).
      rewrite lerp_step, E.
      assert (P1 : 0 <= (1 - 10 * delta) * shake (fx s))
        by (apply Qmult_le_0_compat; lra).
      assert (P2 : 0 <= (1 - 10 * delta) * (80 - shake (fx s)))
        by (apply Qmult_le_0_compat; lra).
      assert (P3 : 0 <= (10 * delta) * (a - 1))
        by (apply Qmult_le_0_compat; lra).
      assert (P4 : 0 <= (10 * delta) * ((175 # 100) - a))
        by (apply Qmult_le_0_compat; lra).
      split; [lra|]. split; [lra | exact T].
    + split; [lra|]. split; [lra | exact T].
Qed.

Lemma entering_speed_range dt inp s :
  0 <= dt -> dt <= 1 # 10 -> 0 <= scaledDelta dt s ->
  0 <= speed (player s) -> speed (player s) <= MAX_SPEED ->
  0 <= speed (player (entering dt inp s))
  /\ speed (player (entering dt inp s)) <= MAX_SPEED.
Proof.
  intros D0 D1 E0 V0 V1. unfold entering, accelerate. cbn [player set_player speed set_speed set_targetLean].
  cbn. destruct (GameState_eqb (gameState s) GAME_OVER).
  - rewrite lerp_step.
    assert (P : 0 <= (1 - 3 * dt) * speed (player s))
      by (apply Qmult_le_0_compat; lra).
    assert (P' : 0 <= dt * speed (player s))
      by (apply Qmult_le_0_compat; lra).
    split; lra.
  - split; [|apply Q.le_min_r].
    apply Q.min_glb; [|unfold MAX_SPEED; lra].
    assert (P : 0 <= ACCELERATION * scaledDelta dt s)
      by (apply Qmult_le_0_compat; [unfold ACCELERATION; lra | exact E0]).
    lra.
Qed.

Lemma text_spawned_ok rating : textOk (mkText rating 0 (8 # 10) (1 # 2)).
Proof. unfold textOk. cbn. repeat split; lra. Qed.

Lemma effects_inv dt ratio f :
  0 <= dt -> dt <= 1 # 10 -> 0 <= ratio -> ratio <= 1 ->
  fxInv f -> fxInv (effects dt ratio f).
Proof.
  intros D0 D1 R0 R1 [[S0 S1] [Z0 Z1] C T]. unfold effects. cbv zeta. cbn.
  constructor; cbn.
  - rewrite lerp_step.
    assert (P : 0 <= (1 - 5 * dt) * shake f)
      by (apply Qmult_le_0_compat; lra).
    assert (P' : 0 <= dt * shake f) by (apply Qmult_le_0_compat; lra).
    split; lra.
  - rewrite lerp_step.
    assert (P1 : 0 <= (1 - 2 * dt) * (zoom f - (8 # 10)))
      by (apply Qmult_le_0_compat; lra).
    assert (P2 : 0 <= (1 - 2 * dt) * (1 - zoom f))
      by (apply Qmult_le_0_compat; lra).
    assert (P3 : 0 <= (2 * dt) * ratio) by (apply Qmult_le_0_compat; lra).
    assert (P4 : 0 <= (2 * dt) * (1 - ratio))
      by (apply Qmult_le_0_compat; lra).
    split; lra.
  - rewrite lerp_step, C. ring.
  - apply Forall_forall. intros t I. apply filter_In in I.
    destruct I as [I G]. apply gtb_gt in G.
    apply in_map_iff in I. destruct I as (t0 & <- & I).
    rewrite Forall_forall in T. destruct (T t0 I) as (L0 & L1 & C0 & C1 & Y).
    cbn [life] in G. unfold textOk. cbn [life text_scale text_y_off].
    rewrite lerp_step.
    assert (P1 : 0 <= (1 - 5 * dt) * (text_scale t0 - (5 # 10)))
      by (apply Qmult_le_0_compat; lra).
    assert (P2 : 0 <= (1 - 5 * dt) * ((12 # 10) - text_scale t0))
      by (apply Qmult_le_0_compat; lra).
    split; [exact G|]. split; [lra|]. split; [lra|]. split; lra.
Qed.

Lemma tick_fx s fr :
  runInv s -> fxInv (fx s) -> wfFrame fr -> fxInv (fx (tick s fr)).
Proof.
  intros J [[S0 S1] Z C T] (T0 & T1 & _ & _). unfold tick.
  set (dt := frame_dt fr) in *. set (inp := frame_inp fr).
  set (d := frame_draws fr).
  destruct (ri_slow _ J) as [M0 M1]. destruct (ri_speed _ J) as [V0 V1].
  destruct (scaledDelta_range dt s T0 T1 M0 M1) as [E0 E1].
  destruct (entering_speed_range dt inp s T0 T1 E0 V0 V1) as [W0 W1].
  assert (R : 0 <= speed (player (entering dt inp s)) / MAX_SPEED
              /\ speed (player (entering dt inp s)) / MAX_SPEED <= 1).
  { unfold MAX_SPEED in *.
    split; [apply Qle_shift_div_l | apply Qle_shift_div_r]; lra. }
  destruct R as [R0 R1].
  destruct (playing_dec s) as [P | P].
  - rewrite (update_playing dt inp d s P). cbv zeta. cbn [fx].
    apply effects_inv; try assumption.
    unfold driven.
    match goal with
    | |- fxInv (fx (drive ?a ?b ?c ?e)) =>
        destruct (drive_fx a b c e E0 E1 S0 S1) as (F1 & F2 & F3 & F4 & F5)
    end.
    constructor.
    + split; assumption.
    + rewrite F1. exact Z.
    + rewrite F2. exact C.
    + destruct F5 as [-> | [rating ->]]; [exact T|].
      apply Forall_app. split; [exact T|].
      constructor; [apply text_spawned_ok | constructor].
  - rewrite (update_other_eq dt inp d s P). cbv zeta. cbn [fx].
    apply effects_inv; try assumption.
    constructor; [split|..]; assumption.
Qed.

Lemma run_fx frames s :
  Forall wfFrame frames -> runInv s -> fxInv (fx s) -> fxInv (fx (run frames s)).
Proof.
  intro F. revert s. induction F as [|fr frames W _ IH]; intros s J R;
    [exact R|].
  simpl. apply IH.
  - apply (tick_reach s fr J W).
  - apply tick_fx; assumption.
Qed.

(** X25. The effects in every state of a run: the shake is within
    [0, 80], the zoom is at most 1 and not below 0.799, the chromatic
    aberration stays 0, and every floating text has a life in (0, 0.8],
    a scale of at least 0.5 and not above 1.201, and is at or above the
    height it was spawned at.  The zoom tends to a target in [0.8, 1]
    and the scale to 1.2; the two bounds next to these targets leave a
    margin for the rounding of the interpolation. *)
Theorem fx_ranges (frames : list Frame) :
  Forall wfFrame frames ->
  let f := fx (run frames startSim) in
  0 <= shake f /\ shake f <= 80
  /\ 799 # 1000 <= zoom f /\ zoom f <= 1
  /\ chromaticAberration f == 0
  /\ Forall (fun t => 0 < life t /\ life t <= 8 # 10
                      /\ 5 # 10 <= text_scale t
                      /\ text_scale t <= 1201 # 1000
                      /\ text_y_off t <= 0)
            (texts f).
Proof.
  intros F f.
  assert (I0 : fxInv (fx startSim)).
  { constructor; cbn; [split; lra | split; lra | reflexivity | constructor]. }
  destruct (run_fx frames startSim F startSim_inv I0) as [[S0 S1] [Z0 Z1] C T].
  fold f in S0, S1, Z0, Z1, C, T.
  split; [exact S0|]. split; [exact S1|]. split; [lra|].
  split; [exact Z1|]. split; [exact C|].
  eapply Forall_impl; [|exact T].
  intros t (L0 & L1 & C0 & C1 & Y).
  split; [exact L0|]. split; [exact L1|]. split; [exact C0|].
  split; [lra | exact Y].
Qed.

Lemma fx_ranges_witness :
  Forall wfFrame twoFrames
  /\ 799 # 1000 <= zoom (fx (run twoFrames startSim))
  /\ zoom (fx (run twoFrames startSim)) <= 1.
Proof.
  destruct (fx_ranges twoFrames twoFrames_wf) as (_ & _ & Z0 & Z1 & _).
  split; [exact twoFrames_wf | split; [exact Z0 | exact Z1]].
Defined.

(** ** The trail pass and the speed lines *)

Lemma flat_map_nil {A B} (f : A -> list B) l :
  (forall a, In a l -> f a = []) -> flat_map f l = [].
Proof.
  induction l as [|a t IH]; intro H; [reflexivity|].
  cbn [flat_map]. rewrite (H a (or_introl eq_refl)), IH; [reflexivity|].
  intros b I. apply H. right. exact I.
Qed.

Lemma trailPass_behind gs width height p trailSegments :
  Forall (fun pt => trail_z pt <= distanceTraveled p) (trail p) ->
  trailPass gs width height p trailSegments = [].
Proof.
  intro T. unfold trailPass. cbv zeta.
  destruct (GameState_eqb gs PLAYING && (1 <? length (trail p))%nat);
    [|reflexivity].
  apply flat_map_nil. intros i _.
  destruct (nth_error (trail p) i) as [tp1|] eqn:E1; [|reflexivity].
  destruct (nth_error (trail p) (i + 1)) as [tp2|]; [|reflexivity].
  destruct (find _ trailSegments) as [seg1|]; [|reflexivity].
  destruct (find _ trailSegments) as [seg2|]; [|reflexivity].
  apply nth_error_In in E1. rewrite Forall_forall in T. specialize (T tp1 E1).
  assert (G : gtb (trail_z tp1) (distanceTraveled p + 10) = false)
    by (apply gtb_le; lra).
  rewrite G. reflexivity.
Qed.

(** X26. The trail is never drawn: in every state of a run, for any
    window and any list of trail segments, the trail pass of [draw]
    produces no polygon, because it only joins points more than 10 units
    ahead of the vehicle while every trail point was recorded at or
    behind it. *)
Theorem trail_never_drawn (frames : list Frame) (width height : Q)
                          (trailSegments : list TrailSegment) :
  Forall wfFrame frames ->
  let s := run frames startSim in
  trailPass (gameState s) width height (player s) trailSegments = [].
Proof.
  intros F s. apply trailPass_behind.
  pose proof (run_trail_ok frames startSim F startSim_inv) as T.
  fold s in T. eapply Forall_impl; [|apply T; constructor].
  intros pt (_ & _ & Z). exact Z.
Qed.

Lemma trail_never_drawn_witness :
  Forall wfFrame twoFrames
  /\ trailPass (gameState (run twoFrames startSim)) 800 600
               (player (run twoFrames startSim))
               (snd (roadPass 800 600 (player (run twoFrames startSim))
                              (road (run twoFrames startSim)))) = [].
Proof.
  split; [exact twoFrames_wf|].
  exact (trail_never_drawn twoFrames 800 600 _ twoFrames_wf).
Defined.



(** ** Keyboard steering *)

Lemma handleKey_idle gs ev inp :
  gs <> PLAYING ->
  (inp_right (handleKey gs ev inp) = true -> inp_right inp = true)
  /\ (inp_left (handleKey gs ev inp) = true -> inp_left inp = true).
Proof.
  intro N. destruct ev as [c | c]; cbn [handleKey].
  - unfold handleKeyDown.
    destruct gs; [|contradiction N; reflexivity|]; cbn; auto.
  - unfold handleKeyUp. destruct c; cbn; split; auto; discriminate.
Qed.

Lemma handleKeys_snoc gs evs ev inp :
  handleKeys gs (evs ++ [ev]) inp = handleKey gs ev (handleKeys gs evs inp).
Proof. unfold handleKeys. rewrite fold_left_app. reflexivity. Qed.

(** X28. Keyboard steering, for any succession of key events: outside
    [PLAYING] no key event raises a flag; releasing either key of a side
    drops that side whatever was pressed before, the other key of the
    side included; and once a right key is pressed while [PLAYING] the
    controls steer right even if left is held, while a left key steers
    left only if right is not held. *)
Theorem keyboard_steering (gs : GameState) (evs : list KeyEvent)
                          (inp : Inputs) (c : KeyCode) :
  (gs <> PLAYING ->
   (inp_right (handleKeys gs evs inp) = true -> inp_right inp = true)
   /\ (inp_left (handleKeys gs evs inp) = true -> inp_left inp = true))
  /\ (isRightKey c = true ->
      inp_right (handleKeys gs (evs ++ [KeyUp c]) inp) = false
      /\ controls (handleKeys PLAYING (evs ++ [KeyDown c]) inp) = 1)
  /\ (isLeftKey c = true ->
      inp_left (handleKeys gs (evs ++ [KeyUp c]) inp) = false
      /\ controls (handleKeys PLAYING (evs ++ [KeyDown c]) inp)
         = (if inp_right (handleKeys PLAYING evs inp) then 1 else -1)).
Proof.
  split; [|split].
  - intro N. revert inp. unfold handleKeys.
    induction evs as [|ev t IH]; intro inp; [auto|].
    cbn [fold_left]. destruct (IH (handleKey gs ev inp)) as [R L].
    destruct (handleKey_idle gs ev inp N) as [R' L']. auto.
  - intro K. rewrite !handleKeys_snoc. cbn [handleKey].
    destruct c; try discriminate K; cbn; auto.
  - intro K. rewrite !handleKeys_snoc. cbn [handleKey].
    destruct c; try discriminate K; cbn;
      (split; [reflexivity|]);
      destruct (inp_right (handleKeys PLAYING evs inp)); reflexivity.
Qed.

Lemma keyboard_steering_witness :
  isRightKey KeyD = true
  /\ inp_right (handleKeys PLAYING ([KeyDown ArrowRight; KeyDown KeyD]
                                    ++ [KeyUp KeyD]) noInput) = false.
Proof.
  assert (A : isRightKey KeyD = true) by reflexivity.
  destruct (keyboard_steering PLAYING [KeyDown ArrowRight; KeyDown KeyD]
              noInput KeyD) as (_ & H & _).
  split; [exact A | exact (proj1 (H A))].
Defined.

(** ** Coasting after the crash *)

Lemma coast_tick dt inp d s :
  gameState s = GAME_OVER -> 0 <= dt -> dt <= 1 # 10 ->
  0 <= speed (player s) ->
  0 <= slowMoFactor (fx s) -> slowMoFactor (fx s) <= 1 ->
  let s' := update dt inp d s in
  gameState s' = GAME_OVER
  /\ 0 <= speed (player s') /\ speed (player s') <= speed (player s)
  /\ 0 <= slowMoFactor (fx s') /\ slowMoFactor (fx s') <= 1
  /\ distanceTraveled (player s) <= distanceTraveled (player s')
  /\ distanceTraveled (player s') + speed (player s') / 3
     <= distanceTraveled (player s) + speed (player s) / 3.
Proof.
  intros G D0 D1 V0 M0 M1 s'.
  destruct (update_game_over dt inp d s G) as (GS & _ & _ & _ & _ & _ & SP & _).
  destruct (update_forward dt inp d s) as (DT & _).
  pose proof (update_slowMo dt inp d s) as SM.
  rewrite G in SM. cbn [GameState_eqb andb] in SM.
  fold s' in GS, SP, DT, SM. cbv zeta in GS, SP.
  rewrite SM, DT, SP, !lerp_step. unfold scaledDelta.
  set (v := speed (player s)) in *. set (m := slowMoFactor (fx s)) in *.
  set (z := distanceTraveled (player s)).
  assert (P1 : 0 <= (1 - 3 * dt) * v) by (apply Qmult_le_0_compat; lra).
  assert (P2 : 0 <= dt * v) by (apply Qmult_le_0_compat; lra).
  assert (P3 : 0 <= (1 - dt) * m) by (apply Qmult_le_0_compat; lra).
  assert (P4 : 0 <= (1 - dt) * (1 - m)) by (apply Qmult_le_0_compat; lra).
  assert (P5 : 0 <= ((1 - 3 * dt) * v) * (dt * m)).
  { apply Qmult_le_0_compat; [exact P1|]. apply Qmult_le_0_compat; lra. }
  assert (P6 : 0 <= ((1 - 3 * dt) * v) * (dt * (1 - m))).
  { apply Qmult_le_0_compat; [exact P1|]. apply Qmult_le_0_compat; lra. }
  assert (P7 : 0 <= (dt * v) * dt) by (apply Qmult_le_0_compat; lra).
  split; [exact GS|]. split; [lra|]. split; [lra|].
  split; [lra|]. split; [lra|]. split; [lra|].
  unfold Qdiv. change (/ 3) with (1 # 3). lra.
Qed.

(** X29. After the crash the wreck coasts about a third of its speed
    at most: from any [GAME_OVER] state with a speed that is not negative
    and a time scale within [0, 1], whatever frames follow, the vehicle
    never moves back, the speed only falls and stays non-negative, and
    the distance covered since is below [speed / 3 + 1].  In exact
    arithmetic it is at most [speed / 3] less the third of the speed that
    is left; the unit is a margin for the rounding of the sums. *)
Theorem coasting_after_crash (frames : list Frame) (s : Sim) :
  gameState s = GAME_OVER -> 0 <= speed (player s) ->
  0 <= slowMoFactor (fx s) -> slowMoFactor (fx s) <= 1 ->
  Forall wfFrame frames ->
  let s' := run frames s in
  distanceTraveled (player s) <= distanceTraveled (player s')
  /\ distanceTraveled (player s')
     < distanceTraveled (player s) + speed (player s) / 3 + 1
  /\ 0 <= speed (player s') /\ speed (player s') <= speed (player s).
Proof.
  intros G V0 M0 M1 F.
  assert (K : distanceTraveled (player s) <= distanceTraveled (player (run frames s))
              /\ distanceTraveled (player (run frames s))
                 + speed (player (run frames s)) / 3
                 <= distanceTraveled (player s) + speed (player s) / 3
              /\ 0 <= speed (player (run frames s))
              /\ speed (player (run frames s)) <= speed (player s)).
  { revert s G V0 M0 M1.
    induction F as [|fr frames W _ IH]; intros s G V0 M0 M1.
    - cbn [run fold_left]. split; [lra|]. split; [lra|].
      split; [exact V0 | lra].
    - change (run (fr :: frames) s) with (run frames (tick s fr)).
      destruct W as (T0 & T1 & _ & _).
      destruct (coast_tick (frame_dt fr) (frame_inp fr) (frame_draws fr) s
                  G T0 T1 V0 M0 M1) as (G' & V0' & V1' & M0' & M1' & A & B).
      fold (tick s fr) in G', V0', V1', M0', M1', A, B.
      destruct (IH (tick s fr) G' V0' M0' M1') as (A2 & B2 & C2 & D2).
      split; [lra|]. split; [lra|]. split; [exact C2 | lra]. }
  cbv zeta. destruct K as (A & B & C & D).
  split; [exact A|]. split; [|split; [exact C | exact D]].
  unfold Qdiv in *. change (/ 3) with (1 # 3) in *. lra.
Qed.

Lemma coasting_after_crash_witness :
  gameState crashed = GAME_OVER /\ 0 <= speed (player crashed)
  /\ 0 <= slowMoFactor (fx crashed) /\ slowMoFactor (fx crashed) <= 1
  /\ Forall wfFrame twoFrames
  /\ distanceTraveled (player (run twoFrames crashed))
     < distanceTraveled (player crashed) + speed (player crashed) / 3 + 1.
Proof.
  assert (G : gameState crashed = GAME_OVER) by (vm_compute; reflexivity).
  assert (V : 0 <= speed (player crashed)) by (vm_compute; discriminate).
  assert (M0 : 0 <= slowMoFactor (fx crashed)) by (vm_compute; discriminate).
  assert (M1 : slowMoFactor (fx crashed) <= 1) by (vm_compute; discriminate).
  destruct (coasting_after_crash twoFrames crashed G V M0 M1 twoFrames_wf)
    as (_ & B & _).
  split; [exact G|]. split; [exact V|]. split; [exact M0|].
  split; [exact M1|]. split; [exact twoFrames_wf | exact B].
Defined.

(** * Binary64: the source's functions *)

(** ** [project] in binary64 *)

Lemma depth_mono z1 z2 cameraZ :
  z1 <= z2 ->
  Qmax 10 (b64 (z1 - cameraZ)) <= Qmax 10 (b64 (z2 - cameraZ)).
Proof.
  intro H. apply Q.max_le_compat_l. apply b64_mono. lra.
Qed.

Lemma Qdiv_le_denominator c a b : 0 <= c -> 0 < a -> a <= b -> c / b <= c / a.
Proof.
  intros Hc Ha Hab.
  apply Qle_shift_div_r; [lra|].
  assert (E : c / a * b == c * b / a) by (field; lra).
  rewrite E. apply Qle_shift_div_l; [exact Ha|]. nra.
Qed.

Lemma Qdiv_gap c a b k :
  0 < c -> 0 < a -> 0 <= k -> a * (1 + k) <= b -> c / b * (1 + k) <= c / a.
Proof.
  intros Hc Ha Hk G.
  assert (Hb : 0 < b) by nra.
  assert (E : c / b * (1 + k) == c * (1 + k) / b) by (field; lra).
  rewrite E. apply Qle_shift_div_r; [exact Hb|].
  assert (E2 : c / a * b == c * b / a) by (field; lra).
  rewrite E2. apply Qle_shift_div_l; [exact Ha|].
  assert (M : c * (a * (1 + k)) <= c * b)
    by (apply Qmult_le_l; [exact Hc | exact G]).
  lra.
Qed.

(** C7 (as the code has it). [project] is a function of its arguments
    whose [scale] is [cameraDepth] over the relative depth clamped to at
    least 10, rounded as every quotient of the source is.  The clamped
    depth does not decrease with [z]; so, for a [cameraDepth] that is not
    negative and two points that differ only in [z], the farther one
    never has the larger scale, and both have the same one while they are
    within the floor.  For a positive [cameraDepth] the farther one has
    the strictly smaller scale once its clamped depth is larger by a
    factor of [1 + 2^-50]; between closer depths the rounding keeps the
    order but not the strictness. *)
Theorem project_scale_monotone
    (lineX lineY z1 z2 cameraX cameraY cameraZ cameraDepth
     width height roadWidth : Q) :
  let p1 := project64 lineX lineY z1 cameraX cameraY cameraZ cameraDepth
                      width height roadWidth in
  let p2 := project64 lineX lineY z2 cameraX cameraY cameraZ cameraDepth
                      width height roadWidth in
  let depth1 := Qmax 10 (b64 (z1 - cameraZ)) in
  let depth2 := Qmax 10 (b64 (z2 - cameraZ)) in
  scale p1 = b64 (cameraDepth / depth1)
  /\ scale p2 = b64 (cameraDepth / depth2)
  /\ 10 <= depth1
  /\ (z1 <= z2 -> depth1 <= depth2)
  /\ (0 <= cameraDepth -> z1 <= z2 ->
      scale p2 <= scale p1
      /\ (z2 - cameraZ <= 10 -> scale p2 == scale p1))
  /\ (0 < cameraDepth -> depth1 * (1 + pow2 (-50)) <= depth2 ->
      scale p2 < scale p1).
Proof.
  cbv zeta. cbn [scale project64].
  split; [reflexivity|]. split; [reflexivity|]. split; [apply Q.le_max_l|].
  split; [apply depth_mono|]. split.
  - intros Hc Hz.
    pose proof (depth_mono z1 z2 cameraZ Hz) as D.
    pose proof (Q.le_max_l 10 (b64 (z1 - cameraZ))) as P.
    split.
    + apply b64_mono. apply Qdiv_le_denominator; [exact Hc | lra | exact D].
    + intro F.
      assert (B2 : b64 (z2 - cameraZ) <= 10)
        by (rewrite <- b64_10; apply b64_mono, F).
      assert (B1 : b64 (z1 - cameraZ) <= 10)
        by (rewrite <- b64_10; apply b64_mono; lra).
      rewrite (Q.max_l 10 (b64 (z2 - cameraZ)) B2).
      rewrite (Q.max_l 10 (b64 (z1 - cameraZ)) B1). reflexivity.
  - intros Hc D.
    pose proof (Q.le_max_l 10 (b64 (z1 - cameraZ))) as P.
    pose proof (pow2_pos (-50)) as P50.
    set (d1 := Qmax 10 (b64 (z1 - cameraZ))) in *.
    set (d2 := Qmax 10 (b64 (z2 - cameraZ))) in *.
    assert (P2 : 0 < d2) by nra.
    apply b64_separates.
    + apply Qlt_shift_div_l; [exact P2 | lra].
    + apply Qdiv_gap; [exact Hc | lra | lra | exact D].
Qed.

Lemma project_scale_monotone_witness :
  0 <= CAMERA_DEPTH64 /\ 0 < CAMERA_DEPTH64 /\ 500 <= 600
  /\ Qmax 10 (b64 (500 - 0)) * (1 + pow2 (-50)) <= Qmax 10 (b64 (600 - 0))
  /\ scale (project64 0 (- CAMERA_HEIGHT) 600 0 0 0 CAMERA_DEPTH64 800 600 2200)
     <= scale (project64 0 (- CAMERA_HEIGHT) 500 0 0 0 CAMERA_DEPTH64
                         800 600 2200)
  /\ scale (project64 0 (- CAMERA_HEIGHT) 600 0 0 0 CAMERA_DEPTH64 800 600 2200)
     < scale (project64 0 (- CAMERA_HEIGHT) 500 0 0 0 CAMERA_DEPTH64
                        800 600 2200).
Proof.
  destruct (project_scale_monotone 0 (- CAMERA_HEIGHT) 500 600 0 0 0
              CAMERA_DEPTH64 800 600 2200) as (_ & _ & _ & _ & H & S).
  assert (A : 0 <= CAMERA_DEPTH64) by (vm_compute; discriminate).
  assert (A' : 0 < CAMERA_DEPTH64) by (vm_compute; reflexivity).
  assert (B : 500 <= 600) by (vm_compute; discriminate).
  assert (G : Qmax 10 (b64 (500 - 0)) * (1 + pow2 (-50))
              <= Qmax 10 (b64 (600 - 0))) by (vm_compute; discriminate).
  destruct (H A B) as (K & _).
  split; [exact A|]. split; [exact A'|]. split; [exact B|].
  split; [exact G|]. split; [exact K | exact (S A' G)].
Defined.

(** C7 (as stated) fails between neighbouring depths.  The segment at
    [z = 200] is at depth 100 for a vehicle at distance 100 and at depth
    [100 + 2^-46], the next binary64 number, for a vehicle at
    [100 - 2^-46], the number just below.  With the camera depth of the
    game the two depths, both beyond the clamp floor, give the same scale:
    the two quotients round to the same number. *)
Lemma project_scale_counterexample :
  b64 (100 - pow2 (-46)) == 100 - pow2 (-46)
  /\ b64 (200 - 100) == 100
  /\ b64 (200 - (100 - pow2 (-46))) == 100 + pow2 (-46)
  /\ 10 < 100 /\ 100 < 100 + pow2 (-46)
  /\ scale (project64 0 (- CAMERA_HEIGHT) (100 + pow2 (-46)) 0 0 0
                      CAMERA_DEPTH64 800 600 2200)
     == scale (project64 0 (- CAMERA_HEIGHT) 100 0 0 0 CAMERA_DEPTH64
                         800 600 2200)
  /\ ~ (scale (project64 0 (- CAMERA_HEIGHT) (100 + pow2 (-46)) 0 0 0
                         CAMERA_DEPTH64 800 600 2200)
        < scale (project64 0 (- CAMERA_HEIGHT) 100 0 0 0 CAMERA_DEPTH64
                           800 600 2200)).
Proof.
  split; [vm_compute; reflexivity|]. split; [vm_compute; reflexivity|].
  split; [vm_compute; reflexivity|]. split; [reflexivity|].
  split; [vm_compute; reflexivity|]. split; [vm_compute; reflexivity|].
  intro H. vm_compute in H. discriminate H.
Qed.

(** ** [lerp] and [randomRange] in binary64 *)

(** X11. [lerp] as the source evaluates it returns [start] at 0 and
    [end] at 1 and, for [t] in [0, 1], does not decrease when [start] or
    [end] grow; from 1 to 1 it returns 1, and between two numbers of
    [-1, 1] a number of [-1, 1]; but it is not confined to the interval
    between the two in general: [lerp (0.1, 0.1, 0.2)] is above 0.1. *)
Theorem lerp_binary64 (a b a' b' t : Q) :
  (b64 a == a -> lerp64 a b 0 == a)
  /\ (b64 b == b -> lerp64 a b 1 == b)
  /\ (0 <= t -> t <= 1 -> a <= a' -> b <= b' ->
      lerp64 a b t <= lerp64 a' b' t)
  /\ (b64 t == t -> 0 <= t -> t <= 1 -> lerp64 1 1 t == 1)
  /\ (b64 t == t -> 0 <= t -> t <= 1 ->
      -1 <= a -> a <= 1 -> -1 <= b -> b <= 1 ->
      -1 <= lerp64 a b t /\ lerp64 a b t <= 1)
  /\ b64 (1 # 10) < lerp64 (b64 (1 # 10)) (b64 (1 # 10)) (b64 (2 # 10)).
Proof.
  split; [|split; [|split; [|split; [|split]]]].
  - intro Ra. unfold lerp64.
    assert (E1 : 1 - 0 == 1) by ring. rewrite E1, b64_1.
    assert (E2 : a * 1 == a) by ring. rewrite E2, Ra.
    assert (E3 : b * 0 == 0) by ring. rewrite E3, b64_0.
    assert (E4 : a + 0 == a) by ring. rewrite E4. exact Ra.
  - intro Rb. unfold lerp64.
    assert (E1 : 1 - 1 == 0) by ring. rewrite E1, b64_0.
    assert (E2 : a * 0 == 0) by ring. rewrite E2, b64_0.
    assert (E3 : b * 1 == b) by ring. rewrite E3, Rb.
    assert (E4 : 0 + b == b) by ring. rewrite E4. exact Rb.
  - intros T0 T1 La Lb. apply lerp64_mono; assumption.
  - apply lerp64_one.
  - apply lerp64_unit_range.
  - vm_compute. reflexivity.
Qed.

Lemma lerp_binary64_witness :
  b64 3 == 3 /\ lerp64 3 7 0 == 3
  /\ b64 (1 # 4) == 1 # 4 /\ lerp64 1 1 (1 # 4) == 1.
Proof.
  assert (A : b64 3 == 3) by (vm_compute; reflexivity).
  assert (R : b64 (1 # 4) == 1 # 4) by (vm_compute; reflexivity).
  assert (T0 : 0 <= 1 # 4) by (vm_compute; discriminate).
  assert (T1 : 1 # 4 <= 1) by (vm_compute; discriminate).
  destruct (lerp_binary64 3 7 3 7 0) as (H & _).
  destruct (lerp_binary64 3 7 3 7 (1 # 4)) as (_ & _ & _ & K & _).
  split; [exact A|]. split; [exact (H A)|].
  split; [exact R | exact (K R T0 T1)].
Defined.

(** X13. [randomRange (min, max)] as the source evaluates it, for a draw
    in [0, 1) and [min <= max]: the result is never below [min]; it is
    never above [max] when [max - min] is computed without rounding, as
    for every pair of bounds the generator passes; but it is not always
    below [max]: on (3, 6) the draw [1 - 2^-53] returns 6. *)
Theorem randomRange_binary64 (u lo hi : Q) :
  0 <= u -> u < 1 -> b64 lo == lo -> lo <= hi ->
  lo <= randomRange64 u lo hi
  /\ (b64 (hi - lo) == hi - lo -> b64 hi == hi ->
      randomRange64 u lo hi <= hi)
  /\ randomRange64 (1 - pow2 (-53)) 3 6 == 6.
Proof.
  intros U0 U1 Rlo L. unfold randomRange64.
  assert (D : 0 <= b64 (hi - lo)) by (apply b64_nonneg; lra).
  split; [|split].
  - rewrite <- Rlo at 1. apply b64_mono.
    assert (P : 0 <= b64 (u * b64 (hi - lo)))
      by (apply b64_nonneg, Qmult_le_0_compat; assumption).
    lra.
  - intros Rd Rhi. rewrite <- Rhi at 2. apply b64_mono.
    assert (P : b64 (u * b64 (hi - lo)) <= hi - lo).
    { rewrite <- Rd at 2. apply b64_mono. rewrite Rd.
      assert (0 <= (1 - u) * (hi - lo))
        by (apply Qmult_le_0_compat; lra).
      lra. }
    lra.
  - vm_compute. reflexivity.
Qed.

Lemma randomRange_binary64_witness :
  0 <= 1 # 2 /\ 1 # 2 < 1 /\ b64 10 == 10 /\ 10 <= 30
  /\ b64 (30 - 10) == 30 - 10 /\ b64 30 == 30
  /\ 10 <= randomRange64 (1 # 2) 10 30 /\ randomRange64 (1 # 2) 10 30 <= 30.
Proof.
  assert (A : 0 <= 1 # 2) by (vm_compute; discriminate).
  assert (B : 1 # 2 < 1) by (vm_compute; reflexivity).
  assert (C : b64 10 == 10) by (vm_compute; reflexivity).
  assert (D : 10 <= 30) by (vm_compute; discriminate).
  assert (E : b64 (30 - 10) == 30 - 10) by (vm_compute; reflexivity).
  assert (F : b64 30 == 30) by (vm_compute; reflexivity).
  destruct (randomRange_binary64 (1 # 2) 10 30 A B C D) as (G & H & _).
  split; [exact A|]. split; [exact B|]. split; [exact C|].
  split; [exact D|]. split; [exact E|]. split; [exact F|].
  split; [exact G | exact (H E F)].
Defined.
